(** * EVD PDF parser: the line-reassembly core of [pdf_parser.py]

    A shallow embedding of [split_into_segments], [parse_segment],
    [parse_articles] and [load_and_flatten] (with the three regular
    expressions and [normalize_line] they rest on), and of the filter the
    upload handler of [main.py] applies between the last two.

    Python strings are sequences of Unicode code points; they are modelled
    as lists of code points.  Everything the code does on ASCII is written
    out.  The part of the Unicode character database that decides how
    [re] and [str.upper]/[str.lower] treat code points from 128 on is an
    interface, [UnicodeDB], carrying the few facts about it that the proofs
    use.

    The three parsing functions are embedded a second time as programs
    over a heap of objects, with the lists and dictionaries of the code as
    objects that are made, changed in place and passed by reference; the
    two embeddings are proved to agree. *)

From Stdlib Require Import String Ascii.
From Stdlib Require Import List NArith Arith Bool Lia Sorted.
Import ListNotations.

(** ** Code points and strings *)

Abbreviation char := N.
Abbreviation str := (list N).

(** A literal of the source, written as an ASCII string. *)
Definition lit (s : string) : str :=
  map N_of_ascii (list_ascii_of_string s).

Definition c_LF : char := 10%N.
Definition c_CR : char := 13%N.
Definition c_quote : char := 34%N.
Definition c_dot : char := 46%N.
Definition c_underscore : char := 95%N.
(** U+00DC and U+00FC, the upper and lower case U with diaeresis. *)
Definition c_UE : char := 220%N.
Definition c_ue : char := 252%N.

Fixpoint str_eqb (a b : str) : bool :=
  match a, b with
  | [], [] => true
  | x :: a', y :: b' => N.eqb x y && str_eqb a' b'
  | _, _ => false
  end.

Definition is_empty {A} (l : list A) : bool :=
  match l with [] => true | _ => false end.

(** [span p l]: the longest prefix of [l] whose elements satisfy [p], and
    what follows it (a greedy [p*]). *)
Fixpoint span {A} (p : A -> bool) (l : list A) : list A * list A :=
  match l with
  | x :: l' =>
      if p x then let (a, b) := span p l' in (x :: a, b) else ([], l)
  | [] => ([], [])
  end.

Fixpoint dropwhile {A} (p : A -> bool) (l : list A) : list A :=
  match l with
  | x :: l' => if p x then dropwhile p l' else l
  | [] => []
  end.

(** [strip_prefix p s]: [s] without its prefix [p], when [s] starts with [p]. *)
Fixpoint strip_prefix (p s : str) : option str :=
  match p, s with
  | [], _ => Some s
  | x :: p', y :: s' => if N.eqb x y then strip_prefix p' s' else None
  | _ :: _, [] => None
  end.

(** [str.startswith]. *)
Definition startswith (p s : str) : bool :=
  match strip_prefix p s with Some _ => true | None => false end.

(** Python's [s[a:b]] for [0 <= a] and [0 <= b]. *)
Definition slice (s : str) (a b : nat) : str := firstn (b - a) (skipn a s).

(** ** Character classes on ASCII *)

Definition in_range (lo hi c : N) : bool := N.leb lo c && N.leb c hi.

Definition is_ascii (c : char) : bool := N.ltb c 128.
Definition is_ascii_digit (c : char) : bool := in_range 48 57 c.
Definition is_ascii_upper (c : char) : bool := in_range 65 90 c.
Definition is_ascii_lower (c : char) : bool := in_range 97 122 c.
Definition is_ascii_letter (c : char) : bool :=
  is_ascii_upper c || is_ascii_lower c.

Definition ascii_lower (c : char) : char :=
  if is_ascii_upper c then (c + 32)%N else c.
Definition ascii_upper (c : char) : char :=
  if is_ascii_lower c then (c - 32)%N else c.

(** [Py_UNICODE_ISSPACE]: what [str.strip()] removes and what [\s] matches
    in a [str] pattern. *)
Definition isspace (c : char) : bool :=
  in_range 9 13 c || in_range 28 32 c || N.eqb c 133 || N.eqb c 160
  || N.eqb c 5760 || in_range 8192 8202 c || N.eqb c 8232 || N.eqb c 8233
  || N.eqb c 8239 || N.eqb c 8287 || N.eqb c 12288.

(** The line boundaries of [str.splitlines]. *)
Definition is_linebreak (c : char) : bool :=
  in_range 10 13 c || in_range 28 30 c || N.eqb c 133
  || N.eqb c 8232 || N.eqb c 8233.

(** ** The Unicode character database beyond ASCII *)

Record UnicodeDB := {
  (** category Nd: the code points [\d] matches *)
  uni_isdecimal : char -> bool;
  (** alphanumeric code points: with [_], what [\w] matches (used by [\b]) *)
  uni_isalnum : char -> bool;
  (** the lower-case ASCII letter a code point is equal to under
      [re.IGNORECASE], if any (the Kelvin sign and [k], the long s and [s]) *)
  uni_fold : char -> option char;
  (** [str.upper] and [str.lower] of the one-character string *)
  uni_upper : char -> str;
  uni_lower : char -> str;
  (** White space, decimal digits and letters are disjoint classes. *)
  uni_decimal_not_space :
    forall c, uni_isdecimal c = true -> isspace c = false;
  uni_fold_not_space :
    forall c p, uni_fold c = Some p -> isspace c = false;
  uni_fold_not_decimal :
    forall c p, uni_fold c = Some p -> uni_isdecimal c = false;
  (** Case mappings send letters to letters: the upper-case form of a
      non-ASCII code point does not begin with a space, nor its lower-case
      form with a full stop or the digit one; neither is empty. *)
  uni_upper_head :
    forall c, (128 <= c)%N ->
      match uni_upper c with [] => False | x :: _ => x <> 32%N end;
  uni_lower_head :
    forall c, (128 <= c)%N ->
      match uni_lower c with
      | [] => False
      | x :: _ => x <> 46%N /\ x <> 49%N
      end
}.

(** The database in which no code point from 128 on is a digit, a letter
    or cased.  On ASCII input every database gives the same results. *)
Definition ascii_db : UnicodeDB.
Proof.
  refine {| uni_isdecimal := fun _ => false;
            uni_isalnum := fun _ => false;
            uni_fold := fun _ => None;
            uni_upper := fun c => [c];
            uni_lower := fun c => [c] |}.
  - discriminate.
  - discriminate.
  - discriminate.
  - intros c Hc; cbn; lia.
  - intros c Hc; cbn; lia.
Defined.

(** ** Python dictionaries and values

    A [dict] keeps its keys in insertion order; [d[k] = v] updates the
    entry of [k] in place when there is one and appends otherwise. *)

Definition dict (V : Type) := list (str * V).

Fixpoint dict_get {V} (d : dict V) (k : str) : option V :=
  match d with
  | [] => None
  | (k', v) :: d' => if str_eqb k' k then Some v else dict_get d' k
  end.

Fixpoint dict_set {V} (d : dict V) (k : str) (v : V) : dict V :=
  match d with
  | [] => [(k, v)]
  | (k', v') :: d' =>
      if str_eqb k' k then (k', v) :: d' else (k', v') :: dict_set d' k v
  end.

Definition dict_keys {V} (d : dict V) : list str := map fst d.

(** The values a record of [parse_segment] holds: a mapping of labels to
    value strings, or the list of unmapped values. *)
Inductive pyval :=
| VDict (d : dict str)
| VList (l : list str).

(** What a call does: it returns, raises, or is still running when the
    fuel of the model is spent. *)
Inductive exn := ValueError | AttributeError.

Inductive outcome (A : Type) :=
| Returned (a : A)
| Raised (e : exn)
| OutOfFuel.
Arguments Returned {A} a.
Arguments Raised {A} e.
Arguments OutOfFuel {A}.

(** ** [normalize_line] and [splitlines] *)

Definition lstrip (p : char -> bool) (s : str) : str := dropwhile p s.
Definition rstrip (p : char -> bool) (s : str) : str :=
  rev (dropwhile p (rev s)).
Definition strip (p : char -> bool) (s : str) : str := rstrip p (lstrip p s).

Definition is_quote (c : char) : bool := N.eqb c c_quote.

(** [s.strip()], then [strip] of the double quote character, then
    [strip()] again. *)
Definition normalize_line (s : str) : str :=
  strip isspace (strip is_quote (strip isspace s)).

(** [s.replace('\r', '\n')] *)
Definition replace_cr (s : str) : str :=
  map (fun c => if N.eqb c c_CR then c_LF else c) s.

(** [str.splitlines]: [line] is the line being read, [after_cr] says that
    the previous character was a carriage return, so that a line feed
    now belongs to the same boundary.  A last line is kept only when it
    is not empty. *)
Fixpoint splitlines_from (line : str) (after_cr : bool) (s : str) : list str :=
  match s with
  | [] => if is_empty line then [] else [line]
  | c :: s' =>
      if after_cr && N.eqb c c_LF then splitlines_from [] false s'
      else if is_linebreak c then line :: splitlines_from [] (N.eqb c c_CR) s'
      else splitlines_from (line ++ [c]) false s'
  end.

Definition splitlines (s : str) : list str := splitlines_from [] false s.

Section Parser.

Variable db : UnicodeDB.

(** ** The pieces of the regular expressions *)

(** [\d] *)
Definition re_digit (c : char) : bool :=
  if is_ascii c then is_ascii_digit c else uni_isdecimal db c.

(** [\w] *)
Definition re_word (c : char) : bool :=
  if is_ascii c
  then is_ascii_letter c || is_ascii_digit c || N.eqb c c_underscore
  else uni_isalnum db c.

(** A literal character [p] of a pattern compiled with [re.IGNORECASE],
    against the character [c] of the text: a cased [p] is compared on
    lower-case forms, any other exactly. *)
Definition re_lit_ci (p c : char) : bool :=
  if is_ascii_letter p then
    if is_ascii c then N.eqb (ascii_lower c) (ascii_lower p)
    else match uni_fold db c with
         | Some q => N.eqb q (ascii_lower p)
         | None => false
         end
  else N.eqb c p.

(** [[A-Za-z]] under [re.IGNORECASE] *)
Definition re_letter_ci (c : char) : bool :=
  if is_ascii c then is_ascii_letter c
  else match uni_fold db c with
       | Some q => is_ascii_lower q
       | None => false
       end.

(** The class of U and U with diaeresis, under [re.IGNORECASE] *)
Definition re_U_class_ci (c : char) : bool :=
  N.eqb c c_UE || N.eqb c c_ue || re_lit_ci 85%N c.

(** A literal string of a pattern under [re.IGNORECASE]: the text matched
    and the rest. *)
Fixpoint match_lit_ci (pat s : str) : option (str * str) :=
  match pat with
  | [] => Some ([], s)
  | p :: pat' =>
      match s with
      | c :: s' =>
          if re_lit_ci p c then
            match match_lit_ci pat' s' with
            | Some (m, r) => Some (c :: m, r)
            | None => None
            end
          else None
      | [] => None
      end
  end.

(** [\b] between the matched text [m] (its last character) and the
    rest [r] of the string. *)
Definition word_boundary (m r : str) : bool :=
  xorb (match rev m with c :: _ => re_word c | [] => false end)
       (match r with c :: _ => re_word c | [] => false end).

(** ** [SEGMENT_HEADER_RE]

    [(?im)^\s*Q?\s*17 POSITIONSDATEN\b], where Q stands for the double
    quote character, tried at a position where [^] holds: the rest of the
    text after the match.  White space, the quote and the digit one
    exclude each other, so the greedy choices are the only ones that can
    lead to a match (lemma [header_at_iff] below). *)
Definition HEADER_LITERAL : str := lit "17 POSITIONSDATEN".

Definition header_at (s : str) : option str :=
  let s1 := dropwhile isspace s in
  let s2 := match s1 with
            | c :: s1' => if is_quote c then s1' else s1
            | [] => s1
            end in
  let s3 := dropwhile isspace s2 in
  match match_lit_ci HEADER_LITERAL s3 with
  | Some (m, r) => if word_boundary m r then Some r else None
  | None => None
  end.

(** [SEGMENT_HEADER_RE.match(line)] as a truth value *)
Definition SEGMENT_HEADER_RE_match (line : str) : bool :=
  match header_at line with Some _ => true | None => false end.

(** [[m.start() for m in SEGMENT_HEADER_RE.finditer(raw_text)]]: the text
    is scanned from [pos]; [skip] characters still belong to the match
    found last, and [bol] says that [^] holds here (the start of the text,
    or just after a line feed). *)
Fixpoint finditer_from (skip : nat) (bol : bool) (pos : nat) (s : str)
  : list nat :=
  match s with
  | [] => []
  | c :: s' =>
      match skip with
      | S k => finditer_from k (N.eqb c c_LF) (S pos) s'
      | O =>
          match (if bol then header_at s else None) with
          | Some r =>
              pos :: finditer_from (length s - length r - 1)
                                   (N.eqb c c_LF) (S pos) s'
          | None => finditer_from 0 (N.eqb c c_LF) (S pos) s'
          end
      end
  end.

Definition header_starts (raw_text : str) : list nat :=
  finditer_from 0 true 0 raw_text.

(** ** [split_into_segments] *)

(** The [for idx, start in enumerate(starts)] loop; [todo] is what is left
    of [starts] from index [idx] on. *)
Fixpoint segments_loop (raw_text : str) (starts : list nat) (idx : nat)
  (todo : list nat) : list str :=
  match todo with
  | [] => []
  | start :: todo' =>
      let stop := if S idx <? length starts
                  then nth (S idx) starts 0
                  else length raw_text in
      slice raw_text start stop :: segments_loop raw_text starts (S idx) todo'
  end.

Definition split_into_segments (raw_text : str) : list str :=
  let starts := header_starts raw_text in
  if is_empty starts then []
  else segments_loop raw_text starts 0 starts.

(** ** [KEY_RE]

    [^(17(?:\.\d+)?[A-Za-z])(?:\s+(REST))?$] with [re.IGNORECASE], where
    REST stands for the dot-star: groups 1 and 2 of the match.  Digits and
    letters are disjoint, and so are letters and white space, so the
    greedy run of digits and the greedy run of white space are the only
    ones that can lead to a match (lemmas [key_code_complete] and
    [is_key_line_iff] below). *)

(** [(?:\s+(REST))?$] after the code: group 2, when it took part.  The dot
    stops at a line feed and [$] holds at the end of the string and before
    a line feed that ends it. *)
Definition key_tail (r : str) : option (option str) :=
  match r with
  | [] => Some None
  | _ =>
      let (ws, r1) := span isspace r in
      if is_empty ws then None
      else
        let (label, r2) := span (fun c => negb (N.eqb c c_LF)) r1 in
        match r2 with
        | [] => Some (Some label)
        | [_] => Some (Some label)
        | _ => None
        end
  end.

(** [17(?:\.\d+)?[A-Za-z]]: the code and the rest of the string. *)
Definition key_code (s : str) : option (str * str) :=
  match strip_prefix (lit "17") s with
  | None => None
  | Some r =>
      match r with
      | [] => None
      | c :: r' =>
          if N.eqb c c_dot then
            let (ds, r1) := span re_digit r' in
            match ds, r1 with
            | _ :: _, l :: r2 =>
                if re_letter_ci l
                then Some (lit "17" ++ c :: ds ++ [l], r2)
                else None
            | _, _ => None
            end
          else if re_letter_ci c then Some (lit "17" ++ [c], r')
          else None
      end
  end.

Definition KEY_RE_match (line : str) : option (str * option str) :=
  match key_code line with
  | None => None
  | Some (code, r) =>
      match key_tail r with
      | Some g2 => Some (code, g2)
      | None => None
      end
  end.

(** ** [PACK_HEADER_RE]

    [^(17(?:\.\d+)?)\s+PACKST[UU']CKE\b] with [re.IGNORECASE], where U' is
    U with diaeresis.  Here too the greedy runs of digits and of white
    space are the only ones that can lead to a match (lemma
    [PACK_HEADER_RE_match_iff] below). *)
Definition PACK_HEADER_RE_match (line : str) : bool :=
  match strip_prefix (lit "17") line with
  | None => false
  | Some r =>
      let after_number :=
        match r with
        | c :: r' =>
            if N.eqb c c_dot then
              let (ds, r1) := span re_digit r' in
              if is_empty ds then None else Some r1
            else Some r
        | [] => Some r
        end in
      match after_number with
      | None => false
      | Some r1 =>
          let (ws, r2) := span isspace r1 in
          if is_empty ws then false
          else
            match match_lit_ci (lit "PACKST") r2 with
            | Some (_, u :: r3) =>
                if re_U_class_ci u then
                  match match_lit_ci (lit "CKE") r3 with
                  | Some (m, r4) => word_boundary m r4
                  | None => false
                  end
                else false
            | _ => false
            end
      end
  end.

(** ** [parse_segment] *)

(** [str.upper] and [str.lower], character by character.  ([str.lower]
    chooses between the two small sigmas by the place of a capital sigma
    in its word; both are beyond ASCII, and the code only asks whether the
    result starts with [17.1].) *)
Definition str_upper (s : str) : str :=
  flat_map (fun c => if is_ascii c then [ascii_upper c] else uni_upper db c) s.
Definition str_lower (s : str) : str :=
  flat_map (fun c => if is_ascii c then [ascii_lower c] else uni_lower db c) s.

(** The normalized lines of the segment that are not empty. *)
Definition normalized_lines (segment : str) : list str :=
  map normalize_line
      (filter (fun l => negb (is_empty (normalize_line l)))
              (splitlines (replace_cr segment))).

(** The first line is dropped when it is the header. *)
Definition drop_header (lines : list str) : list str :=
  match lines with
  | l0 :: rest =>
      if startswith HEADER_LITERAL (str_upper l0) then rest else lines
  | [] => lines
  end.

(** The list [lines] the outer loop reads. *)
Definition segment_lines (segment : str) : list str :=
  drop_header (normalized_lines segment).

(** The label of a key line: group 2 stripped, or the code when group 2
    is missing, empty or blank. *)
Definition key_label (code : str) (g2 : option str) : str :=
  match g2 with
  | Some g =>
      if negb (is_empty g) && negb (is_empty (strip isspace g))
      then strip isspace g else code
  | None => code
  end.

(** The loops below read [lines] from the cursor [i] on; the cursor is
    kept as the lines not read yet, [lines[i:]]. *)

(** The loop that collects the keys: the key group and the lines left. *)
Fixpoint collect_keys (lines : list str) : list (str * str) * list str :=
  match lines with
  | l :: rest =>
      match KEY_RE_match l with
      | Some (code, g2) =>
          let (key_group, rest') := collect_keys rest in
          ((code, key_label code g2) :: key_group, rest')
      | None => ([], lines)
      end
  | [] => ([], [])
  end.

(** [KEY_RE.match(line)] as a truth value *)
Definition is_key_line (l : str) : bool :=
  match KEY_RE_match l with Some _ => true | None => false end.

(** The guard of the two loops that collect values. *)
Definition is_value_line (l : str) : bool :=
  negb (is_key_line l)
  && negb (SEGMENT_HEADER_RE_match l)
  && negb (PACK_HEADER_RE_match l).

Definition collect_values (lines : list str) : list str * list str :=
  span is_value_line lines.

(** [code.lower().startswith("17.1")] *)
Definition is_pack_code (code : str) : bool :=
  startswith (lit "17.1") (str_lower code).

(** The [for idx, (code, label) in enumerate(key_group)] loop, from index
    [idx] on. *)
Fixpoint assign_keys (key_group : list (str * str)) (idx : nat)
  (values_available : list str) (maps : dict str * dict str)
  : dict str * dict str :=
  match key_group with
  | [] => maps
  | (code, label) :: key_group' =>
      let val := if idx <? length values_available
                 then nth idx values_available []
                 else [] in
      let (mapping, pack_mapping) := maps in
      assign_keys key_group' (S idx) values_available
        (if is_pack_code code
         then (mapping, dict_set pack_mapping label val)
         else (dict_set mapping label val, pack_mapping))
  end.

(** The state of the outer loop. *)
Record pstate := {
  st_lines : list str;
  st_mapping : dict str;
  st_pack : dict str;
  st_pending : list str
}.

(** One turn of [while i < len(lines)], for a cursor inside the list. *)
Definition loop_body (st : pstate) : pstate :=
  match st_lines st with
  | [] => st
  | l :: rest =>
      if PACK_HEADER_RE_match l then
        {| st_lines := rest; st_mapping := st_mapping st;
           st_pack := st_pack st; st_pending := st_pending st |}
      else
        let (key_group, rest1) := collect_keys (l :: rest) in
        if is_empty key_group then
          let (vals, rest2) := collect_values rest1 in
          {| st_lines := rest2; st_mapping := st_mapping st;
             st_pack := st_pack st; st_pending := st_pending st ++ vals |}
        else
          let (val_group, rest2) := collect_values rest1 in
          let values_available := st_pending st ++ val_group in
          let (mapping, pack_mapping) :=
            assign_keys key_group 0 values_available
                        (st_mapping st, st_pack st) in
          {| st_lines := rest2; st_mapping := mapping;
             st_pack := pack_mapping;
             st_pending := skipn (length key_group) values_available |}
  end.

(** The outer loop, for at most [fuel] turns. *)
Fixpoint while_loop (fuel : nat) (st : pstate) : option pstate :=
  match st_lines st with
  | [] => Some st
  | _ :: _ =>
      match fuel with
      | O => None
      | S fuel' => while_loop fuel' (loop_body st)
      end
  end.

Definition MAIN_SECTION : str := lit "POSITIONSDATEN e-VD/v-e-VD".
Definition PACK_SECTION : str := lit "PACKST" ++ c_UE :: lit "CKE".
Definition UNMAPPED_SECTION : str := lit "_UNMAPPED_VALUES".

Definition record := dict pyval.

(** The dictionary [article_obj] built from the final state. *)
Definition article_obj (st : pstate) : record :=
  [(MAIN_SECTION, VDict (st_mapping st))]
  ++ (if is_empty (st_pack st) then []
      else [(PACK_SECTION, VDict (st_pack st))])
  ++ (if is_empty (st_pending st) then []
      else [(UNMAPPED_SECTION, VList (st_pending st))]).

Definition initial_state (lines : list str) : pstate :=
  {| st_lines := lines; st_mapping := []; st_pack := []; st_pending := [] |}.

Definition parse_segment (fuel : nat) (segment : str) : option record :=
  match while_loop fuel (initial_state (segment_lines segment)) with
  | Some st => Some (article_obj st)
  | None => None
  end.

(** ** [parse_articles] *)

Fixpoint parse_all (fuel : nat) (segments : list str) : option (list record) :=
  match segments with
  | [] => Some []
  | seg :: segments' =>
      match parse_segment fuel seg with
      | None => None
      | Some r =>
          match parse_all fuel segments' with
          | None => None
          | Some rs => Some (r :: rs)
          end
      end
  end.

Definition parse_articles (fuel : nat) (raw_text : str)
  : outcome (list record) :=
  let segments := split_into_segments raw_text in
  if is_empty segments then Raised ValueError
  else match parse_all fuel segments with
       | Some rs => Returned rs
       | None => OutOfFuel
       end.

End Parser.

(** ** [load_and_flatten] and the filter of the upload handler *)

(** [for key, value in section_dict.items(): flat_record[key] = value];
    a list has no [items]. *)
Definition flatten_section (flat_record : dict str) (section_dict : pyval)
  : outcome (dict str) :=
  match section_dict with
  | VDict d =>
      Returned (fold_left (fun flat kv => dict_set flat (fst kv) (snd kv))
                          d flat_record)
  | VList _ => Raised AttributeError
  end.

(** [for section_dict in record.values()] *)
Fixpoint flatten_sections (flat_record : dict str) (values : list pyval)
  : outcome (dict str) :=
  match values with
  | [] => Returned flat_record
  | section_dict :: values' =>
      match flatten_section flat_record section_dict with
      | Returned flat => flatten_sections flat values'
      | Raised e => Raised e
      | OutOfFuel => OutOfFuel
      end
  end.

Definition flatten_record (r : record) : outcome (dict str) :=
  flatten_sections [] (map snd r).

(** [for record in records] *)
Fixpoint flatten_records (records : list record) : outcome (list (dict str)) :=
  match records with
  | [] => Returned []
  | r :: records' =>
      match flatten_record r with
      | Returned flat =>
          match flatten_records records' with
          | Returned flats => Returned (flat :: flats)
          | Raised e => Raised e
          | OutOfFuel => OutOfFuel
          end
      | Raised e => Raised e
      | OutOfFuel => OutOfFuel
      end
  end.

(** A data frame built from a list of rows: the rows, and as columns the
    labels of all rows, each once, in the order they are first seen.  A row
    without a label of the frame has no value in that column. *)
Record DataFrame := {
  df_columns : list str;
  df_rows : list (dict str)
}.

Definition add_column (columns : list str) (k : str) : list str :=
  if existsb (str_eqb k) columns then columns else columns ++ [k].

Definition make_dataframe (rows : list (dict str)) : DataFrame :=
  {| df_columns := fold_left (fun cols row => fold_left add_column (dict_keys row) cols)
                             rows [];
     df_rows := rows |}.

Definition load_and_flatten (records : list record) : outcome DataFrame :=
  match flatten_records records with
  | Returned flats => Returned (make_dataframe flats)
  | Raised e => Raised e
  | OutOfFuel => OutOfFuel
  end.

(** The handler of [main.py], between [parse_articles] and
    [load_and_flatten]: every record without its [_UNMAPPED_VALUES] entry. *)
Definition drop_unmapped (r : record) : record :=
  filter (fun kv => negb (str_eqb (fst kv) (lit "_UNMAPPED_VALUES"))) r.

Definition clean_articles (articles : list record) : list record :=
  map drop_unmapped articles.

(** ** Notions the claims are stated with *)

Section Notions.

Variable db : UnicodeDB.

(** The key a line stands for, when it is a key line: code and label. *)
Definition key_of_line (l : str) : option (str * str) :=
  match KEY_RE_match db l with
  | Some (code, g2) => Some (code, key_label code g2)
  | None => None
  end.

(** The keys of the key lines among [lines], in order. *)
Definition all_keys (lines : list str) : list (str * str) :=
  flat_map (fun l => match key_of_line l with
                     | Some k => [k]
                     | None => []
                     end) lines.

(** The value lines among [lines], in order. *)
Definition value_lines (lines : list str) : list str :=
  filter (is_value_line db) lines.

(** A line that matches the section header without being a key line or
    a sub-section header. *)
Definition is_stall_line (l : str) : bool :=
  negb (is_key_line db l) && negb (PACK_HEADER_RE_match db l)
  && SEGMENT_HEADER_RE_match db l.

(** A key code is [17], then either a letter, or a full stop, digits and a
    letter. *)
Inductive key_code_shape : str -> Prop :=
| shape_plain l :
    re_letter_ci db l = true -> l <> c_dot ->
    key_code_shape (49 :: 55 :: [l])%N
| shape_sub d ds l :
    Forall (fun c => re_digit db c = true) (d :: ds) ->
    re_letter_ci db l = true ->
    key_code_shape ((49 :: 55 :: c_dot :: d :: ds) ++ [l])%N.

(** What one turn of the outer loop does, by the three cases of its body:
    a sub-section header is skipped; values without keys are kept pending;
    a key group and its values are reconciled. *)
Inductive turn (st st' : pstate) : Prop :=
| turn_header l :
    st_lines st = l :: st_lines st' ->
    PACK_HEADER_RE_match db l = true ->
    st_mapping st' = st_mapping st -> st_pack st' = st_pack st ->
    st_pending st' = st_pending st ->
    turn st st'
| turn_values vals :
    st_lines st = vals ++ st_lines st' ->
    Forall (fun l => is_value_line db l = true) vals ->
    match st_lines st' with
    | l :: _ => is_value_line db l = false | [] => True
    end ->
    match st_lines st with
    | l :: _ => is_key_line db l = false /\ PACK_HEADER_RE_match db l = false
    | [] => True
    end ->
    st_mapping st' = st_mapping st -> st_pack st' = st_pack st ->
    st_pending st' = st_pending st ++ vals ->
    turn st st'
| turn_keys keylines vals :
    st_lines st = keylines ++ vals ++ st_lines st' ->
    keylines <> [] ->
    Forall (fun l => is_key_line db l = true) keylines ->
    Forall (fun l => is_value_line db l = true) vals ->
    match st_lines st' with
    | l :: _ => is_value_line db l = false | [] => True
    end ->
    (vals = [] ->
     match st_lines st' with
     | l :: _ => is_key_line db l = false | [] => True
     end) ->
    (st_mapping st', st_pack st') =
      assign_keys db (all_keys keylines) 0 (st_pending st ++ vals)
                  (st_mapping st, st_pack st) ->
    st_pending st' =
      skipn (length (all_keys keylines)) (st_pending st ++ vals) ->
    turn st st'.

(** One assignment of the reconciliation step: the label receives the
    value in the bucket its code selects. *)
Definition store (maps : dict str * dict str) (kv : (str * str) * str)
  : dict str * dict str :=
  let '((code, label), val) := kv in
  if is_pack_code db code
  then (fst maps, dict_set (snd maps) label val)
  else (dict_set (fst maps) label val, snd maps).

(** The reconciliation step in the words of the specification: key
    number [idx] receives value number [idx], and the empty string when
    there are not that many values. *)
Definition paired_values (n : nat) (values : list str) : list str :=
  firstn n (values ++ repeat [] (n - length values)).

Definition reconcile (key_group : list (str * str)) (values : list str)
  (maps : dict str * dict str) : dict str * dict str :=
  fold_left store
            (combine key_group (paired_values (length key_group) values))
            maps.

(** The values the keys of a group receive: value number [idx] for key
    number [idx], the empty string beyond the values. *)
Definition received (n idx : nat) (values : list str) : list str :=
  map (fun i => nth i values []) (seq idx n).

(** The bucket a code selects. *)
Definition bucket (maps : dict str * dict str) (code : str) : dict str :=
  if is_pack_code db code then snd maps else fst maps.

(** [k] is the label of a key line among [lines] whose code selects the
    packages mapping ([pack] true) or the main one. *)
Definition keys_of (pack : bool) (lines : list str) (k : str) : Prop :=
  exists code, In (code, k) (all_keys lines) /\ is_pack_code db code = pack.

(** Where a value can come from: the empty string, a value that was
    pending, or a value line. *)
Definition value_source (pending lines : list str) (v : str) : Prop :=
  v = [] \/ In v pending \/ In v (value_lines lines).

(** The bucket of a record a key with this code belongs to. *)
Definition section_of (code : str) : str :=
  if startswith (lit "17.1") code then PACK_SECTION else MAIN_SECTION.

(** The value a record holds for [label] in the section [name]. *)
Definition record_get (r : record) (name label : str) : option str :=
  match dict_get r name with
  | Some (VDict d) => dict_get d label
  | _ => None
  end.

End Notions.

(** [line_start bol s i]: [^] holds at position [i] of the text [s], which
    itself begins at a place where [^] holds or not, as [bol] says: the
    position is the first one, or the character before it is a line feed. *)
Definition line_start (bol : bool) (s : str) (i : nat) : bool :=
  match i with
  | O => bol
  | S j =>
      match nth_error s j with
      | Some c => N.eqb c c_LF
      | None => false
      end
  end.

(** The section-header pattern matches at position [i] of [s]. *)
Definition matches_at (db : UnicodeDB) (bol : bool) (s : str) (i : nat)
  : bool :=
  line_start bol s i
  && match header_at db (skipn i s) with Some _ => true | None => false end.

(** The pattern occurs at position [i] of the whole text. *)
Definition header_occurs (db : UnicodeDB) (raw_text : str) (i : nat) : bool :=
  matches_at db true raw_text i.

(** The row the flattener should build from a main and a packages
    mapping: main first, then packages, a later entry for a label
    replacing the value of an earlier one. *)
Definition merge_sections (main packages : dict str) : dict str :=
  fold_left (fun flat kv => dict_set flat (fst kv) (snd kv)) packages
            (fold_left (fun flat kv => dict_set flat (fst kv) (snd kv))
                       main []).

(** [segments_between raw_text starts]: the text cut at the positions
    [starts], each piece running to the next position, the last one to
    the end of the text. *)
Fixpoint segments_between (raw_text : str) (starts : list nat) : list str :=
  match starts with
  | [] => []
  | a :: starts' =>
      match starts' with
      | [] => [skipn a raw_text]
      | b :: _ => slice raw_text a b :: segments_between raw_text starts'
      end
  end.

(** ** Inputs of the examples *)

(** Two lines: the header, and the header between two pairs of double
    quotes. *)
Definition quoted_header_text : str :=
  lit "17 POSITIONSDATEN"
  ++ c_LF :: c_quote :: c_quote :: lit "17 POSITIONSDATEN"
  ++ [c_quote; c_quote].

(** A key line followed by the line [17 PACKSTUECKE]. *)
Definition packstuecke_segment : str :=
  lit "17a Label" ++ c_LF :: lit "17 PACKSTUECKE".

(** The lines of a segment: a key with two values, a sub-section header
    and one more value. *)
Definition carry_over_lines : list str :=
  [lit "17a A"; lit "v1"; lit "v2"; lit "17.1 PACKSTUCKE"; lit "v3"].

(** A header line and a value line with no key. *)
Definition stray_value_text : str :=
  lit "17 POSITIONSDATEN" ++ c_LF :: lit "x".

(** The record [parse_segment] builds from it. *)
Definition stray_value_record : record :=
  [(MAIN_SECTION, VDict []); (UNMAPPED_SECTION, VList [lit "x"])].

(** A segment with a main key, a packages key and their two values, and
    the record [parse_segment] builds from it. *)
Definition routing_segment : str :=
  lit "17 POSITIONSDATEN" ++ c_LF :: lit "17a A" ++ c_LF :: lit "17.1a P"
  ++ c_LF :: lit "v1" ++ c_LF :: lit "v2".

Definition routing_record : record :=
  [(MAIN_SECTION, VDict [(lit "A", lit "v1")]);
   (PACK_SECTION, VDict [(lit "P", lit "v2")])].

(** The lines of a segment with two keys and one value. *)
Definition padding_lines : list str :=
  [lit "17a A"; lit "17b B"; lit "v1"].

(** A text with two occurrences of the header. *)
Definition two_segments_text : str :=
  lit "17 POSITIONSDATEN" ++ c_LF :: lit "17a A" ++ c_LF :: lit "v1"
  ++ c_LF :: lit "17 POSITIONSDATEN" ++ c_LF :: lit "17b B".

(** Lines joined by line feeds. *)
Definition join_lines (lines : list str) : str :=
  flat_map (fun l => l ++ [c_LF]) lines.

(** The end-to-end example of the specification: two headers, each
    followed by three key lines and three value lines. *)
Definition end_to_end_text : str :=
  join_lines
    [lit "17 POSITIONSDATEN"; lit "17a A"; lit "17b B"; lit "17c C";
     lit "a1"; lit "b1"; lit "c1";
     lit "17 POSITIONSDATEN"; lit "17a A"; lit "17b B"; lit "17c C";
     lit "a2"; lit "b2"; lit "c2"].

(** ** The regular expressions read as grammars

    What it means for a text to match each pattern, whatever choices a
    matcher makes: the functions [header_at], [KEY_RE_match] and
    [PACK_HEADER_RE_match] above are compared with these. *)

Section Grammars.

Variable db : UnicodeDB.

(** [17(?:\.\d+)?] *)
Inductive numeric_prefix : str -> Prop :=
| prefix_plain : numeric_prefix (lit "17")
| prefix_sub d ds :
    Forall (fun c => re_digit db c = true) (d :: ds) ->
    numeric_prefix (lit "17" ++ c_dot :: d :: ds).

(** The text [m] matches the literal [pat], character by character. *)
Definition lit_matches (pat m : str) : Prop :=
  Forall2 (fun p c => re_lit_ci db p c = true) pat m.

(** [\s*], an optional double quote, [\s*], the header literal and [\b]
    match a prefix of [s] and leave [r]. *)
Definition header_matches (s r : str) : Prop :=
  exists ws1 q ws2 m,
    Forall (fun c => isspace c = true) ws1
    /\ (q = [] \/ q = [c_quote])
    /\ Forall (fun c => isspace c = true) ws2
    /\ lit_matches HEADER_LITERAL m
    /\ word_boundary db m r = true
    /\ s = ws1 ++ q ++ ws2 ++ m ++ r.

(** [PACK_HEADER_RE] matches a prefix of the line. *)
Definition pack_header_matches (line : str) : Prop :=
  exists n ws m1 u m2 r,
    numeric_prefix n
    /\ ws <> [] /\ Forall (fun c => isspace c = true) ws
    /\ lit_matches (lit "PACKST") m1
    /\ re_U_class_ci db u = true
    /\ lit_matches (lit "CKE") m2
    /\ word_boundary db m2 r = true
    /\ line = n ++ ws ++ m1 ++ u :: m2 ++ r.

(** What may follow the code on a key line: nothing, or white space and a
    text without line feed, up to the end of the line or to a line feed
    that ends it. *)
Definition tail_matches (r : str) : Prop :=
  r = []
  \/ exists ws x e,
       ws <> [] /\ Forall (fun c => isspace c = true) ws
       /\ Forall (fun c => N.eqb c c_LF = false) x
       /\ (e = [] \/ e = [c_LF])
       /\ r = ws ++ x ++ e.

(** [KEY_RE] matches the line, with [code] as its first group. *)
Definition key_matches (line code : str) : Prop :=
  exists n c r,
    numeric_prefix n /\ re_letter_ci db c = true
    /\ code = n ++ [c] /\ line = code ++ r /\ tail_matches r.

End Grammars.

(** ** [prefix_mengeneinheit]

    The function reads one text file line by line and writes another.  A
    file is taken as the text Python reads from it or writes to it: in
    text mode every line end of the input arrives as a line feed, and
    [for line in infile] yields the text cut after each line feed, every
    line with the line feed that ends it, the last one as it is when the
    text does not end in a line feed. *)
Fixpoint file_lines (text : str) : list str :=
  match text with
  | [] => []
  | c :: text' =>
      if N.eqb c c_LF then [c] :: file_lines text'
      else match file_lines text' with
           | [] => [[c]]
           | line :: lines => (c :: line) :: lines
           end
  end.

(** What the body of the loop writes for [line]. *)
Definition prefix_line (line : str) : str :=
  let stripped := lstrip isspace line in
  if startswith (lit "Mengeneinheit") stripped
  then lit "17w " ++ stripped
  else line.

(** The text written to the output file for the text of the input file. *)
Definition prefix_mengeneinheit (text : str) : str :=
  concat (map prefix_line (file_lines text)).

(** A line that ends in a line feed and holds no other one, and a last
    line without line feed. *)
Definition complete_line (l : str) : Prop :=
  exists body, l = body ++ [c_LF]
               /\ Forall (fun c => N.eqb c c_LF = false) body.

Definition partial_line (l : str) : Prop :=
  l <> [] /\ Forall (fun c => N.eqb c c_LF = false) l.

(** A list of lines as the iteration over a file yields it. *)
Inductive file_lines_shape : list str -> Prop :=
| shape_none : file_lines_shape []
| shape_last l : partial_line l -> file_lines_shape [l]
| shape_more l lines :
    complete_line l -> file_lines_shape lines -> file_lines_shape (l :: lines).

(** ** Segments whose keys and values come in matching groups *)

Section Layouts.

Variable db : UnicodeDB.

(** [aligned lines kvs]: the lines are groups of key lines, each group
    followed by as many value lines, with sub-section headers anywhere
    between the groups; [kvs] pairs the keys of each group with its value
    lines, in order. *)
Inductive aligned : list str -> list ((str * str) * str) -> Prop :=
| aligned_nil : aligned [] []
| aligned_header l lines kvs :
    PACK_HEADER_RE_match db l = true ->
    aligned lines kvs ->
    aligned (l :: lines) kvs
| aligned_group keylines vals lines kvs :
    keylines <> [] ->
    Forall (fun l => is_key_line db l = true) keylines ->
    Forall (fun l => is_value_line db l = true) vals ->
    length vals = length keylines ->
    aligned lines kvs ->
    aligned (keylines ++ vals ++ lines)
            (combine (all_keys db keylines) vals ++ kvs).

(** The entries of [kvs] whose code selects the packages mapping ([pack]
    true) or the main one, as label and value. *)
Definition entries_of (pack : bool) (kvs : list ((str * str) * str))
  : dict str :=
  map (fun w => (snd (fst w), snd w))
      (filter (fun w => Bool.eqb (is_pack_code db (fst (fst w))) pack) kvs).

End Layouts.

(** A character [normalize_line] may remove at either end. *)
Definition is_padding (c : char) : bool := isspace c || is_quote c.

(** The first and the last character of a string. *)
Definition first_char (s : str) : option char := hd_error s.
Definition last_char (s : str) : option char := hd_error (rev s).

(** [p] holds of no end of [s]. *)
Definition ends_free (p : char -> bool) (s : str) : Prop :=
  (forall c, first_char s = Some c -> p c = false)
  /\ (forall c, last_char s = Some c -> p c = false).

(** A text with a line before its first header. *)
Definition preamble_text : str :=
  lit "EVD" ++ c_LF :: two_segments_text.

(** A line of a file: the word after two spaces, a quantity and the line
    feed. *)
Definition indented_unit_line : str :=
  lit "  Mengeneinheit kg" ++ [c_LF].

(** A segment with a group of two keys and two values, a sub-section
    header, and a group of one key and one value. *)
Definition grouped_segment : str :=
  lit "17 POSITIONSDATEN" ++ c_LF :: lit "17a A" ++ c_LF :: lit "17b B"
  ++ c_LF :: lit "v1" ++ c_LF :: lit "v2" ++ c_LF :: lit "17.1 PACKSTUCKE"
  ++ c_LF :: lit "17.1a P" ++ c_LF :: lit "v3".

(** The record holds a list where [load_and_flatten] expects a mapping. *)
Definition holds_list (r : record) : bool :=
  existsb (fun kv => match snd kv with VList _ => true | VDict _ => false end)
          r.

(** The same text with other line ends: every line feed written as a
    carriage return and a line feed, or as a carriage return alone. *)
Definition to_crlf (s : str) : str :=
  flat_map (fun c => if N.eqb c c_LF then [c_CR; c_LF] else [c]) s.

Definition to_cr (s : str) : str :=
  map (fun c => if N.eqb c c_LF then c_CR else c) s.

(** A text of four lines that end in carriage returns, with the header on
    the first and on the third. *)
Definition cr_only_text : str :=
  lit "17 POSITIONSDATEN" ++ c_CR :: lit "17a A" ++ c_CR
  :: lit "17 POSITIONSDATEN" ++ c_CR :: lit "17b B".

(** The same lines followed by a packages key and its value: the key group
    that follows the leftover value. *)
Definition carry_over_group_lines : list str :=
  carry_over_lines ++ [lit "17.1a P"; lit "v4"].

(** ** The same functions over a heap of objects

    The functions above take strings and return values.  The code they
    embed works on Python objects: every list and dictionary it names is
    an object in memory, created by a display or a comprehension, changed
    in place by [append] and by item assignment, and handed over by
    reference.  Whether a call depends on what earlier calls left behind,
    or leaves something behind itself, is a question about these objects.
    This part writes the three functions once more, statement by
    statement, as programs over a heap of objects, in which a call could
    read or change any object there is.

    Strings, integers and tuples of strings cannot be changed: they are
    values.  The module binds three names, [KEY_RE], [PACK_HEADER_RE] and
    [SEGMENT_HEADER_RE], to compiled patterns when it is loaded; no
    function holds a [global] statement or assigns one of them, and
    matching does not change a pattern: they are the matchers above.
    Objects that are bound to no name ([segment.replace(...)], the list
    [splitlines] returns) are not kept in the heap. *)

Definition addr := nat.

(** The objects of the code, by what they hold. *)
Inductive object :=
| OStrs (items : list str)            (* a list of strings *)
| OKeys (items : list (str * str))    (* a list of (code, label) tuples *)
| OInts (items : list nat)            (* a list of integers *)
| ORefs (items : list addr)           (* a list of objects *)
| OMap (entries : dict str)           (* a dictionary of strings *)
| ORec (entries : dict addr).         (* a dictionary of objects *)

(** The heap: the objects made so far, each at its own address, and the
    address the next object gets. *)
Record heap := {
  next_free : addr;
  cell : addr -> option object
}.

(** How a program ends: with a value, with an exception, by using what is
    no object of the kind it needs, or not within the fuel of the model;
    the first two leave a heap. *)
Inductive run (A : Type) :=
| Ok (x : A) (s : heap)
| Exn (e : exn) (s : heap)
| Fault
| Unfinished.
Arguments Ok {A} x s.
Arguments Exn {A} e s.
Arguments Fault {A}.
Arguments Unfinished {A}.

Definition prog (A : Type) : Type := heap -> run A.

Definition ret {A} (x : A) : prog A := fun s => Ok x s.

Definition bind {A B} (c : prog A) (k : A -> prog B) : prog B :=
  fun s =>
    match c s with
    | Ok x s' => k x s'
    | Exn e s' => Exn e s'
    | Fault => Fault
    | Unfinished => Unfinished
    end.

Declare Scope prog_scope.
Delimit Scope prog_scope with prog.
Notation "x <- c ;; k" := (bind c (fun x => k))
  (at level 100, c at next level, right associativity) : prog_scope.

Definition fault {A} : prog A := fun _ => Fault.
Definition raise {A} (e : exn) : prog A := fun s => Exn e s.

(** The heap with one more object, and the heap with another object at
    an address. *)
Definition with_new (s : heap) (o : object) : heap :=
  {| next_free := S (next_free s);
     cell := fun a => if Nat.eqb a (next_free s) then Some o else cell s a |}.

Definition with_cell (s : heap) (a : addr) (o : object) : heap :=
  {| next_free := next_free s;
     cell := fun a' => if Nat.eqb a' a then Some o else cell s a' |}.

(** A display or a comprehension: a new object, at a new address. *)
Definition new (o : object) : prog addr :=
  fun s => Ok (next_free s) (with_new s o).

(** Reading the object a name is bound to. *)
Definition load (a : addr) : prog object :=
  fun s => match cell s a with Some o => Ok o s | None => Fault end.

(** Changing an object in place. *)
Definition assign (a : addr) (o : object) : prog unit :=
  fun s =>
    match cell s a with
    | Some _ => Ok tt (with_cell s a o)
    | None => Fault
    end.

Open Scope prog_scope.

Definition load_strs (a : addr) : prog (list str) :=
  o <- load a ;; match o with OStrs l => ret l | _ => fault end.
Definition load_keys (a : addr) : prog (list (str * str)) :=
  o <- load a ;; match o with OKeys l => ret l | _ => fault end.
Definition load_ints (a : addr) : prog (list nat) :=
  o <- load a ;; match o with OInts l => ret l | _ => fault end.
Definition load_refs (a : addr) : prog (list addr) :=
  o <- load a ;; match o with ORefs l => ret l | _ => fault end.
Definition load_map (a : addr) : prog (dict str) :=
  o <- load a ;; match o with OMap d => ret d | _ => fault end.
Definition load_rec (a : addr) : prog (dict addr) :=
  o <- load a ;; match o with ORec d => ret d | _ => fault end.

(** [a.append(x)], for the three kinds of list, and [a[k] = v], for the
    two kinds of dictionary. *)
Definition append_str (a : addr) (x : str) : prog unit :=
  l <- load_strs a ;; assign a (OStrs (l ++ [x])).
Definition append_key (a : addr) (x : str * str) : prog unit :=
  l <- load_keys a ;; assign a (OKeys (l ++ [x])).
Definition append_ref (a : addr) (x : addr) : prog unit :=
  l <- load_refs a ;; assign a (ORefs (l ++ [x])).
Definition set_item (a : addr) (k v : str) : prog unit :=
  d <- load_map a ;; assign a (OMap (dict_set d k v)).
Definition set_ref (a : addr) (k : str) (v : addr) : prog unit :=
  d <- load_rec a ;; assign a (ORec (dict_set d k v)).

(** [while cond: body], for at most [fuel] turns; [x] is what the local
    names the loop rebinds are bound to.  A [for] loop over a list is the
    loop over its indices: the iterator of a list reads the list anew at
    every step. *)
Fixpoint while_do {X} (fuel : nat) (cond : X -> prog bool)
  (body : X -> prog X) (x : X) : prog X :=
  fun s =>
    match cond x s with
    | Ok true s1 =>
        match fuel with
        | O => Unfinished
        | S fuel' =>
            match body x s1 with
            | Ok x' s2 => while_do fuel' cond body x' s2
            | Exn e s2 => Exn e s2
            | Fault => Fault
            | Unfinished => Unfinished
            end
        end
    | Ok false s1 => Ok x s1
    | Exn e s1 => Exn e s1
    | Fault => Fault
    | Unfinished => Unfinished
    end.

Section HeapParser.

Variable db : UnicodeDB.

(** [lines[i]], when [i < len(lines)]. *)
Definition line_at (lines : addr) (i : nat) : prog (option str) :=
  ls <- load_strs lines ;; ret (nth_error ls i).

(** The loop that collects the keys.  Its [break] is in the condition:
    [i < len(lines)] and [KEY_RE.match(lines[i])]. *)
Definition key_cond (lines : addr) (i : nat) : prog bool :=
  l <- line_at lines i ;;
  ret (match l with Some l => is_key_line db l | None => false end).

Definition key_body (lines key_group : addr) (i : nat) : prog nat :=
  l <- line_at lines i ;;
  match l with
  | Some l =>
      match KEY_RE_match db l with
      | Some (code, g2) =>
          _ <- append_key key_group (code, key_label code g2) ;;
          ret (S i)
      | None => fault
      end
  | None => fault
  end.

(** The two loops that collect values: into [pending_values] when there is
    no key group, into [val_group] otherwise. *)
Definition value_cond (lines : addr) (i : nat) : prog bool :=
  l <- line_at lines i ;;
  ret (match l with Some l => is_value_line db l | None => false end).

Definition value_body (lines target : addr) (i : nat) : prog nat :=
  l <- line_at lines i ;;
  match l with
  | Some l => _ <- append_str target l ;; ret (S i)
  | None => fault
  end.

(** [for idx, (code, label) in enumerate(key_group)] *)
Definition assign_cond (key_group : addr) (idx : nat) : prog bool :=
  kg <- load_keys key_group ;; ret (idx <? length kg).

Definition assign_body (key_group values_available mapping pack_mapping : addr)
  (idx : nat) : prog nat :=
  kg <- load_keys key_group ;;
  match nth_error kg idx with
  | Some (code, label) =>
      va <- load_strs values_available ;;
      let val := if idx <? length va then nth idx va [] else [] in
      _ <- set_item (if is_pack_code db code then pack_mapping else mapping)
                    label val ;;
      ret (S idx)
  | None => fault
  end.

(** The outer loop rebinds [i] and [pending_values]. *)
Definition outer_cond (lines : addr) (x : nat * addr) : prog bool :=
  ls <- load_strs lines ;; ret (fst x <? length ls).

Definition outer_body (fuel : nat) (lines mapping pack_mapping : addr)
  (x : nat * addr) : prog (nat * addr) :=
  let i := fst x in
  let pending_values := snd x in
  l <- line_at lines i ;;
  match l with
  | None => fault
  | Some l =>
      if PACK_HEADER_RE_match db l then ret (S i, pending_values)
      else
        key_group <- new (OKeys []) ;;
        i <- while_do fuel (key_cond lines) (key_body lines key_group) i ;;
        kg <- load_keys key_group ;;
        if is_empty kg then
          i <- while_do fuel (value_cond lines)
                        (value_body lines pending_values) i ;;
          ret (i, pending_values)
        else
          val_group <- new (OStrs []) ;;
          i <- while_do fuel (value_cond lines)
                        (value_body lines val_group) i ;;
          pv <- load_strs pending_values ;;
          vg <- load_strs val_group ;;
          values_available <- new (OStrs (pv ++ vg)) ;;
          _ <- while_do fuel (assign_cond key_group)
                        (assign_body key_group values_available
                                     mapping pack_mapping) 0 ;;
          va <- load_strs values_available ;;
          kg <- load_keys key_group ;;
          pending_values <- new (OStrs (skipn (length kg) va)) ;;
          ret (i, pending_values)
  end.

(** [parse_segment]: the address of [article_obj]. *)
Definition parse_segment_in (fuel : nat) (segment : str) : prog addr :=
  lines <- new (OStrs (normalized_lines segment)) ;;
  ls <- load_strs lines ;;
  lines <- match ls with
           | l0 :: rest =>
               if startswith HEADER_LITERAL (str_upper db l0)
               then new (OStrs rest) else ret lines
           | [] => ret lines
           end ;;
  mapping <- new (OMap []) ;;
  pack_mapping <- new (OMap []) ;;
  pending_values <- new (OStrs []) ;;
  x <- while_do fuel (outer_cond lines)
                (outer_body fuel lines mapping pack_mapping)
                (0, pending_values) ;;
  article_obj <- new (ORec [(MAIN_SECTION, mapping)]) ;;
  pm <- load_map pack_mapping ;;
  _ <- (if is_empty pm then ret tt
        else set_ref article_obj PACK_SECTION pack_mapping) ;;
  pv <- load_strs (snd x) ;;
  _ <- (if is_empty pv then ret tt
        else set_ref article_obj UNMAPPED_SECTION (snd x)) ;;
  ret article_obj.

(** [split_into_segments]: the address of the list it returns. *)
Definition segments_cond (starts : addr) (idx : nat) : prog bool :=
  ss <- load_ints starts ;; ret (idx <? length ss).

Definition segments_body (raw_text : str) (starts segments : addr)
  (idx : nat) : prog nat :=
  ss <- load_ints starts ;;
  match nth_error ss idx with
  | Some start =>
      let stop := if S idx <? length ss then nth (S idx) ss 0
                  else length raw_text in
      _ <- append_str segments (slice raw_text start stop) ;;
      ret (S idx)
  | None => fault
  end.

Definition split_into_segments_in (fuel : nat) (raw_text : str) : prog addr :=
  starts <- new (OInts (header_starts db raw_text)) ;;
  ss <- load_ints starts ;;
  if is_empty ss then new (OStrs [])
  else
    segments <- new (OStrs []) ;;
    _ <- while_do fuel (segments_cond starts)
                  (segments_body raw_text starts segments) 0 ;;
    ret segments.

(** [parse_articles]: the address of the list of records. *)
Definition articles_cond (segments : addr) (idx : nat) : prog bool :=
  segs <- load_strs segments ;; ret (idx <? length segs).

Definition articles_body (fuel : nat) (segments out : addr) (idx : nat)
  : prog nat :=
  segs <- load_strs segments ;;
  match nth_error segs idx with
  | Some seg =>
      r <- parse_segment_in fuel seg ;;
      _ <- append_ref out r ;;
      ret (S idx)
  | None => fault
  end.

Definition parse_articles_in (fuel : nat) (raw_text : str) : prog addr :=
  segments <- split_into_segments_in fuel raw_text ;;
  segs <- load_strs segments ;;
  if is_empty segs then raise ValueError
  else
    out <- new (ORefs []) ;;
    _ <- while_do fuel (articles_cond segments)
                  (articles_body fuel segments out) 0 ;;
    ret out.

End HeapParser.

Close Scope prog_scope.

(** What a reader of the heap finds at the address of a record: the
    sections behind the references, as values. *)
Definition read_value (s : heap) (a : addr) : option pyval :=
  match cell s a with
  | Some (OMap d) => Some (VDict d)
  | Some (OStrs l) => Some (VList l)
  | _ => None
  end.

Fixpoint read_entries (s : heap) (entries : dict addr) : option record :=
  match entries with
  | [] => Some []
  | (name, a) :: entries' =>
      match read_value s a, read_entries s entries' with
      | Some v, Some r => Some ((name, v) :: r)
      | _, _ => None
      end
  end.

Definition read_record (s : heap) (a : addr) : option record :=
  match cell s a with
  | Some (ORec entries) => read_entries s entries
  | _ => None
  end.

Fixpoint read_all (s : heap) (refs : list addr) : option (list record) :=
  match refs with
  | [] => Some []
  | a :: refs' =>
      match read_record s a, read_all s refs' with
      | Some r, Some rs => Some (r :: rs)
      | _, _ => None
      end
  end.

Definition read_records (s : heap) (a : addr) : option (list record) :=
  match cell s a with
  | Some (ORefs refs) => read_all s refs
  | _ => None
  end.

(** The objects of a record: the dictionary and its sections. *)
Definition record_objects (s : heap) (a : addr) : list addr :=
  match cell s a with
  | Some (ORec entries) => a :: map snd entries
  | _ => [a]
  end.

(** The reference [a] leads, in the heap [s], to the record [r], through
    objects with addresses from [lo] on and below [hi]. *)
Definition holds_record (lo hi : addr) (s : heap) (a : addr) (r : record)
  : Prop :=
  read_record s a = Some r
  /\ Forall (fun b => lo <= b < hi) (record_objects s a).

(** The second heap keeps every object the first holds below [bound] as
    it is. *)
Definition kept_below (bound : addr) (s s' : heap) : Prop :=
  forall a, a < bound -> cell s' a = cell s a.

(** The outer loop of [parse_segment] over the heap, at a state of the
    loop over values: the names [lines], [mapping], [pack_mapping] and
    [pending_values] are bound to four different objects, none older than
    [bound], that hold the lines, the two mappings and the pending values
    of the state; the cursor [i] stands before the lines not read yet. *)
Record linked (bound : addr) (ls : list str)
  (lines mapping pack_mapping : addr) (s : heap) (x : nat * addr)
  (st : pstate) : Prop := {
  lk_lines : cell s lines = Some (OStrs ls);
  lk_cursor : skipn (fst x) ls = st_lines st;
  lk_mapping : cell s mapping = Some (OMap (st_mapping st));
  lk_pack : cell s pack_mapping = Some (OMap (st_pack st));
  lk_pending : cell s (snd x) = Some (OStrs (st_pending st));
  lk_apart : lines <> mapping /\ lines <> pack_mapping
             /\ mapping <> pack_mapping /\ snd x <> lines
             /\ snd x <> mapping /\ snd x <> pack_mapping;
  lk_made : lines < next_free s /\ mapping < next_free s
            /\ pack_mapping < next_free s /\ snd x < next_free s;
  lk_bound : bound <= lines /\ bound <= mapping /\ bound <= pack_mapping
             /\ bound <= snd x
}.

(** A heap that holds objects already. *)
Definition used_heap : heap :=
  {| next_free := 2;
     cell := fun a => match a with
                      | 0 => Some (OMap [(lit "A", lit "old")])
                      | 1 => Some (OStrs [lit "left over"])
                      | _ => None
                      end |}.

(** * Properties *)

(** ** Strings, lists and dictionaries *)

Lemma str_eqb_eq (a b : str) : str_eqb a b = true <-> a = b.
Proof.
  revert b; induction a as [|x a IH]; intros [|y b]; cbn; split;
    try congruence; try reflexivity.
  - intros H. apply andb_true_iff in H as [Hx Hr].
    apply N.eqb_eq in Hx. apply IH in Hr. congruence.
  - intros H; injection H as -> ->.
    apply andb_true_iff; split; [apply N.eqb_refl | now apply IH].
Qed.

Lemma str_eqb_refl (a : str) : str_eqb a a = true.
Proof. now apply str_eqb_eq. Qed.

Lemma str_eqb_neq (a b : str) : str_eqb a b = false <-> a <> b.
Proof.
  split.
  - intros H E. apply str_eqb_eq in E. congruence.
  - intros H. destruct (str_eqb a b) eqn:E; [|reflexivity].
    apply str_eqb_eq in E. contradiction.
Qed.

Lemma strip_prefix_app (p s r : str) :
  strip_prefix p s = Some r <-> s = p ++ r.
Proof.
  revert s; induction p as [|x p IH]; intros s; cbn.
  - split; congruence.
  - destruct s as [|y s]; [split; discriminate|].
    destruct (N.eqb x y) eqn:E.
    + apply N.eqb_eq in E; subst y. rewrite IH. split; congruence.
    + apply N.eqb_neq in E. split; [discriminate | congruence].
Qed.

Lemma span_app {A} (p : A -> bool) (l : list A) :
  fst (span p l) ++ snd (span p l) = l.
Proof.
  induction l as [|x l IH]; cbn; [reflexivity|].
  destruct (p x); [|reflexivity].
  destruct (span p l); cbn in *; congruence.
Qed.

Lemma span_prefix_all {A} (p : A -> bool) (l : list A) :
  Forall (fun x => p x = true) (fst (span p l)).
Proof.
  induction l as [|x l IH]; cbn; [constructor|].
  destruct (p x) eqn:E; [|constructor].
  destruct (span p l); cbn in *. now constructor.
Qed.

Lemma span_rest_head {A} (p : A -> bool) (l : list A) :
  match snd (span p l) with x :: _ => p x = false | [] => True end.
Proof.
  induction l as [|x l IH]; cbn; [exact I|].
  destruct (p x) eqn:E; [|exact E].
  destruct (span p l); cbn in *. exact IH.
Qed.

Lemma span_length {A} (p : A -> bool) (l : list A) :
  length (snd (span p l)) <= length l.
Proof.
  rewrite <- (span_app p l) at 2. rewrite length_app. lia.
Qed.

Lemma span_eq {A} (p : A -> bool) (l a b : list A) :
  span p l = (a, b) ->
  l = a ++ b /\ Forall (fun x => p x = true) a
  /\ match b with x :: _ => p x = false | [] => True end.
Proof.
  intros E. pose proof (span_app p l). pose proof (span_prefix_all p l).
  pose proof (span_rest_head p l). rewrite E in *. cbn in *. auto.
Qed.

Lemma dict_get_set_same {V} (d : dict V) k v :
  dict_get (dict_set d k v) k = Some v.
Proof.
  induction d as [|[k' v'] d IH]; cbn.
  - now rewrite str_eqb_refl.
  - destruct (str_eqb k' k) eqn:E; cbn; rewrite E; auto.
Qed.

Lemma dict_get_set_other {V} (d : dict V) k k' v :
  k <> k' -> dict_get (dict_set d k v) k' = dict_get d k'.
Proof.
  intros N. induction d as [|[k0 v0] d IH]; cbn.
  - apply str_eqb_neq in N. now rewrite N.
  - destruct (str_eqb k0 k) eqn:E; cbn.
    + apply str_eqb_eq in E; subst k0.
      apply str_eqb_neq in N. now rewrite N.
    + destruct (str_eqb k0 k'); auto.
Qed.

Lemma dict_get_set {V} (d : dict V) k k' v :
  dict_get (dict_set d k v) k' =
  if str_eqb k k' then Some v else dict_get d k'.
Proof.
  destruct (str_eqb k k') eqn:E.
  - apply str_eqb_eq in E; subst. apply dict_get_set_same.
  - apply str_eqb_neq in E. now apply dict_get_set_other.
Qed.

Lemma dict_keys_set {V} (d : dict V) k v k' :
  In k' (dict_keys (dict_set d k v)) <-> k' = k \/ In k' (dict_keys d).
Proof.
  unfold dict_keys. induction d as [|[k0 v0] d IH]; cbn.
  - intuition.
  - destruct (str_eqb k0 k) eqn:E; cbn.
    + apply str_eqb_eq in E; subst. intuition.
    + rewrite IH. intuition.
Qed.

Lemma dict_get_In_keys {V} (d : dict V) k :
  In k (dict_keys d) <-> exists v, dict_get d k = Some v.
Proof.
  unfold dict_keys. induction d as [|[k0 v0] d IH]; cbn.
  - split; [tauto | intros [v H]; discriminate].
  - destruct (str_eqb k0 k) eqn:E.
    + apply str_eqb_eq in E; subst. split; eauto.
    + apply str_eqb_neq in E. rewrite <- IH. intuition.
Qed.

Lemma dict_set_nonempty {V} (d : dict V) k v : is_empty (dict_set d k v) = false.
Proof.
  destruct d as [|[k0 v0] d]; cbn; [reflexivity|].
  destruct (str_eqb k0 k); reflexivity.
Qed.

Lemma dict_keys_set_NoDup {V} (d : dict V) k v :
  NoDup (dict_keys d) -> NoDup (dict_keys (dict_set d k v)).
Proof.
  unfold dict_keys. induction d as [|[k0 v0] d IH]; cbn; intros H.
  - constructor; [tauto | constructor].
  - destruct (str_eqb k0 k) eqn:E; cbn; [exact H|].
    inversion H as [|? ? Hn Hd]; subst. constructor; [|auto].
    intros Hin. apply (dict_keys_set d k v k0) in Hin as [->|Hin].
    + now rewrite str_eqb_refl in E.
    + contradiction.
Qed.

Lemma span_stop {A} (p : A -> bool) (a b : list A) :
  Forall (fun x => p x = true) a ->
  match b with x :: _ => p x = false | [] => True end ->
  span p (a ++ b) = (a, b).
Proof.
  intros Ha Hb. induction Ha as [|x a Hx Ha IH]; cbn.
  - destruct b as [|y b]; [reflexivity|]. cbn. now rewrite Hb.
  - now rewrite Hx, IH.
Qed.

(** ** Character classes *)

Ltac bprop :=
  repeat rewrite ?orb_true_iff, ?andb_true_iff, ?orb_false_iff,
    ?andb_false_iff, ?negb_true_iff, ?negb_false_iff,
    ?N.leb_le, ?N.leb_gt, ?N.ltb_lt, ?N.ltb_ge, ?N.eqb_eq, ?N.eqb_neq in *.

Lemma lit_17 : lit "17" = [49; 55]%N.
Proof. reflexivity. Qed.

Lemma lit_17_1 : lit "17.1" = [49; 55; 46; 49]%N.
Proof. reflexivity. Qed.

Lemma HEADER_LITERAL_eq :
  HEADER_LITERAL = (49 :: 55 :: 32 :: lit "POSITIONSDATEN")%N.
Proof. reflexivity. Qed.

Lemma ascii_letter_not_space c :
  is_ascii_letter c = true -> isspace c = false.
Proof.
  unfold is_ascii_letter, is_ascii_upper, is_ascii_lower, isspace, in_range.
  intros H. apply not_true_is_false. intros S. bprop. lia.
Qed.

Lemma ascii_digit_not_space c :
  is_ascii_digit c = true -> isspace c = false.
Proof.
  unfold is_ascii_digit, isspace, in_range.
  intros H. apply not_true_is_false. intros S. bprop. lia.
Qed.

Lemma ascii_digit_not_letter c :
  is_ascii_digit c = true -> is_ascii_letter c = false.
Proof.
  unfold is_ascii_digit, is_ascii_letter, is_ascii_upper, is_ascii_lower,
    in_range.
  intros H. apply not_true_is_false. intros S. bprop. lia.
Qed.

Section Classes.

Variable db : UnicodeDB.

Lemma letter_not_space c : re_letter_ci db c = true -> isspace c = false.
Proof.
  unfold re_letter_ci. destruct (is_ascii c).
  - apply ascii_letter_not_space.
  - destruct (uni_fold db c) eqn:E; [|discriminate].
    intros _. eapply uni_fold_not_space; eauto.
Qed.

Lemma digit_not_space c : re_digit db c = true -> isspace c = false.
Proof.
  unfold re_digit. destruct (is_ascii c).
  - apply ascii_digit_not_space.
  - apply uni_decimal_not_space.
Qed.

Lemma digit_not_letter c : re_digit db c = true -> re_letter_ci db c = false.
Proof.
  unfold re_digit, re_letter_ci. destruct (is_ascii c).
  - apply ascii_digit_not_letter.
  - intros D. destruct (uni_fold db c) eqn:E; [|reflexivity].
    apply uni_fold_not_decimal in E. congruence.
Qed.

Lemma dot_not_letter : re_letter_ci db c_dot = false.
Proof. reflexivity. Qed.

Lemma dot_not_space : isspace c_dot = false.
Proof. reflexivity. Qed.

(** ** The shape of a key line *)

Lemma key_code_sound s code r :
  key_code db s = Some (code, r) -> s = code ++ r /\ key_code_shape db code.
Proof.
  unfold key_code. destruct (strip_prefix (lit "17") s) as [r0|] eqn:P;
    [|discriminate].
  apply strip_prefix_app in P. rewrite lit_17 in *. subst s.
  destruct r0 as [|c r']; [discriminate|].
  destruct (N.eqb c c_dot) eqn:D.
  - apply N.eqb_eq in D; subst c.
    destruct (span (re_digit db) r') as [ds r1] eqn:S.
    apply span_eq in S as (-> & Hds & _).
    destruct ds as [|d ds]; [discriminate|].
    destruct r1 as [|l r2]; [discriminate|].
    destruct (re_letter_ci db l) eqn:L; [|discriminate].
    intros H; injection H as <- <-. split.
    + cbn. rewrite <- app_assoc. reflexivity.
    + now apply shape_sub.
  - destruct (re_letter_ci db c) eqn:L; [|discriminate].
    intros H; injection H as <- <-. split; [reflexivity|].
    apply shape_plain; [assumption|]. now apply N.eqb_neq.
Qed.

Lemma KEY_RE_match_sound l code g2 :
  KEY_RE_match db l = Some (code, g2) ->
  exists r, l = code ++ r /\ key_code_shape db code.
Proof.
  unfold KEY_RE_match. destruct (key_code db l) as [[code' r]|] eqn:K;
    [|discriminate].
  destruct (key_tail r); [|discriminate].
  intros H; injection H as <- _. exists r. now apply key_code_sound.
Qed.

(** A line is never both a key line and a sub-section header. *)
Lemma key_line_not_pack_header l :
  is_key_line db l = true -> PACK_HEADER_RE_match db l = false.
Proof.
  unfold is_key_line. destruct (KEY_RE_match db l) as [[code g2]|] eqn:K;
    [|discriminate].
  intros _. apply KEY_RE_match_sound in K as (r & -> & Sh).
  unfold PACK_HEADER_RE_match. destruct Sh as [l0 L ND | d ds l0 Hd L].
  - cbn [app strip_prefix lit]. rewrite lit_17. cbn [strip_prefix N.eqb Pos.eqb].
    apply N.eqb_neq in ND. rewrite ND.
    cbn [span]. rewrite (letter_not_space _ L). reflexivity.
  - rewrite lit_17. cbn [app strip_prefix N.eqb Pos.eqb].
    replace (N.eqb c_dot c_dot) with true by reflexivity.
    rewrite <- app_assoc.
    change (d :: ds ++ [l0] ++ r) with ((d :: ds) ++ [l0] ++ r).
    rewrite (span_stop (re_digit db) (d :: ds) ([l0] ++ r)); [|assumption|].
    2:{ cbn. destruct (re_digit db l0) eqn:D; [|reflexivity].
        apply digit_not_letter in D. congruence. }
    cbn [is_empty span app]. rewrite (letter_not_space _ L). reflexivity.
Qed.

Lemma strip_prefix_cons x p y s :
  strip_prefix (x :: p) (y :: s) =
  if N.eqb x y then strip_prefix p s else None.
Proof. reflexivity. Qed.

Lemma str_upper_cons c s :
  str_upper db (c :: s) =
  (if is_ascii c then [ascii_upper c] else uni_upper db c) ++ str_upper db s.
Proof. reflexivity. Qed.

Lemma str_lower_cons c s :
  str_lower db (c :: s) =
  (if is_ascii c then [ascii_lower c] else uni_lower db c) ++ str_lower db s.
Proof. reflexivity. Qed.

Lemma ascii_letter_upper_not_space c :
  is_ascii_letter c = true -> ascii_upper c <> 32%N.
Proof.
  unfold is_ascii_letter, ascii_upper, is_ascii_upper, is_ascii_lower, in_range.
  intros H. destruct (N.leb 97 c && N.leb c 122) eqn:E; bprop; lia.
Qed.

Lemma ascii_letter_lower_not_dot c :
  is_ascii_letter c = true -> ascii_lower c <> 46%N.
Proof.
  unfold is_ascii_letter, ascii_lower, is_ascii_upper, is_ascii_lower, in_range.
  intros H. destruct (N.leb 65 c && N.leb c 90) eqn:E; bprop; lia.
Qed.

Lemma ascii_digit_lower c : is_ascii_digit c = true -> ascii_lower c = c.
Proof.
  unfold is_ascii_digit, ascii_lower, is_ascii_upper, in_range.
  intros H. destruct (N.leb 65 c && N.leb c 90) eqn:E; bprop; lia.
Qed.

(** The first character of the upper-case form of a text that starts with
    a letter or a full stop is not a space. *)
Lemma upper_head_not_space c s :
  re_letter_ci db c = true \/ c = c_dot ->
  match str_upper db (c :: s) with x :: _ => x <> 32%N | [] => False end.
Proof.
  intros H. rewrite str_upper_cons. destruct (is_ascii c) eqn:A.
  - cbn. destruct H as [L | ->]; [|cbn; discriminate].
    unfold re_letter_ci in L. rewrite A in L.
    now apply ascii_letter_upper_not_space.
  - unfold is_ascii in A. bprop.
    pose proof (uni_upper_head db c A) as U.
    destruct (uni_upper db c); [contradiction | exact U].
Qed.

(** The header test on the first line never drops a key line. *)
Lemma key_line_not_dropped l :
  is_key_line db l = true ->
  startswith HEADER_LITERAL (str_upper db l) = false.
Proof.
  unfold is_key_line. destruct (KEY_RE_match db l) as [[code g2]|] eqn:K;
    [|discriminate].
  intros _. apply KEY_RE_match_sound in K as (r & -> & Sh).
  assert (exists c s, code ++ r = (49 :: 55 :: c :: s)%N
                      /\ (re_letter_ci db c = true \/ c = c_dot))
    as (c & s & -> & Hc).
  { destruct Sh as [l0 L ND | d ds l0 Hd L].
    - exists l0, r. auto.
    - exists c_dot, ((d :: ds) ++ [l0] ++ r). split; [|auto].
      cbn. now rewrite <- app_assoc. }
  rewrite HEADER_LITERAL_eq.
  change (str_upper db (49 :: 55 :: c :: s)%N)
    with (49 :: 55 :: str_upper db (c :: s))%N.
  pose proof (upper_head_not_space c s Hc) as U.
  unfold startswith. rewrite !strip_prefix_cons, !N.eqb_refl.
  revert U. destruct (str_upper db (c :: s)) as [|x u]; intros U; cbn in U;
    [contradiction|].
  rewrite strip_prefix_cons.
  apply N.eqb_neq in U. rewrite N.eqb_sym, U. reflexivity.
Qed.

(** On key codes the sub-section test is the test of the prefix [17.1]. *)
Lemma is_pack_code_prefix code :
  key_code_shape db code ->
  is_pack_code db code = startswith (lit "17.1") code.
Proof.
  intros Sh. unfold is_pack_code. rewrite lit_17_1.
  destruct Sh as [l L ND | d ds l Hd L].
  - change (str_lower db [49; 55; l]%N)
      with (49 :: 55 :: str_lower db [l])%N.
    unfold startswith. rewrite !strip_prefix_cons, !N.eqb_refl.
    assert (N.eqb 46 l = false) as ->
      by (apply N.eqb_neq; intros E; apply ND; now rewrite <- E).
    rewrite str_lower_cons. destruct (is_ascii l) eqn:A.
    + unfold re_letter_ci in L. rewrite A in L.
      apply ascii_letter_lower_not_dot in L. apply N.eqb_neq in L.
      cbn [app]. now rewrite strip_prefix_cons, N.eqb_sym, L.
    + unfold is_ascii in A. bprop.
      pose proof (uni_lower_head db l A) as U.
      revert U. destruct (uni_lower db l) as [|x u]; intros U; cbn in U;
        [contradiction|].
      destruct U as [U _]. apply N.eqb_neq in U.
      cbn [app]. now rewrite strip_prefix_cons, N.eqb_sym, U.
  - change (str_lower db ((49 :: 55 :: c_dot :: d :: ds) ++ [l])%N)
      with (49 :: 55 :: 46 :: str_lower db (d :: ds ++ [l]))%N.
    change ((49 :: 55 :: c_dot :: d :: ds) ++ [l])%N
      with (49 :: 55 :: 46 :: d :: ds ++ [l])%N.
    unfold startswith. rewrite !strip_prefix_cons, !N.eqb_refl.
    rewrite str_lower_cons. inversion Hd as [|? ? D _]; subst.
    unfold re_digit in D. destruct (is_ascii d) eqn:A.
    + rewrite (ascii_digit_lower d D). cbn [app].
      rewrite strip_prefix_cons. destruct (N.eqb 49 d); reflexivity.
    + unfold is_ascii in A. bprop.
      pose proof (uni_lower_head db d A) as U.
      revert U. destruct (uni_lower db d) as [|x u]; intros U; cbn in U;
        [contradiction|].
      destruct U as [_ U]. apply N.eqb_neq in U.
      cbn [app]. rewrite strip_prefix_cons, N.eqb_sym, U.
      assert (N.eqb 49 d = false) as -> by (apply N.eqb_neq; lia).
      reflexivity.
Qed.

End Classes.

(** ** The loops of [parse_segment] *)

Section Loop.

Variable db : UnicodeDB.

Abbreviation key_line l := (is_key_line db l = true).
Abbreviation value_line l := (is_value_line db l = true).

Lemma value_line_inv l :
  value_line l ->
  is_key_line db l = false /\ SEGMENT_HEADER_RE_match db l = false
  /\ PACK_HEADER_RE_match db l = false.
Proof. unfold is_value_line. intros H. bprop. tauto. Qed.

Lemma key_line_not_value l : key_line l -> is_value_line db l = false.
Proof. unfold is_value_line. intros ->. reflexivity. Qed.

Lemma pack_header_not_value l :
  PACK_HEADER_RE_match db l = true -> is_value_line db l = false.
Proof. unfold is_value_line. intros ->. now rewrite andb_false_r. Qed.

Lemma pack_header_not_key l :
  PACK_HEADER_RE_match db l = true -> is_key_line db l = false.
Proof.
  intros P. destruct (is_key_line db l) eqn:K; [|reflexivity].
  apply key_line_not_pack_header in K. congruence.
Qed.

Lemma key_of_line_key l : key_line l <-> exists k, key_of_line db l = Some k.
Proof.
  unfold is_key_line, key_of_line.
  destruct (KEY_RE_match db l) as [[code g2]|]; split; eauto;
    try discriminate. intros [k H]; discriminate.
Qed.

Lemma key_of_line_not_key l :
  is_key_line db l = false <-> key_of_line db l = None.
Proof.
  unfold is_key_line, key_of_line.
  destruct (KEY_RE_match db l) as [[code g2]|]; split; auto; discriminate.
Qed.

Lemma all_keys_cons l lines :
  all_keys db (l :: lines) =
  match key_of_line db l with
  | Some k => k :: all_keys db lines
  | None => all_keys db lines
  end.
Proof. unfold all_keys. cbn. destruct (key_of_line db l); reflexivity. Qed.

Lemma all_keys_app a b :
  all_keys db (a ++ b) = all_keys db a ++ all_keys db b.
Proof. apply flat_map_app. Qed.

Lemma all_keys_none lines :
  Forall (fun l => is_key_line db l = false) lines -> all_keys db lines = [].
Proof.
  induction 1 as [|l lines H _ IH]; [reflexivity|].
  rewrite all_keys_cons. apply key_of_line_not_key in H. now rewrite H.
Qed.

Lemma all_keys_values lines :
  Forall (fun l => value_line l) lines -> all_keys db lines = [].
Proof.
  intros H. apply all_keys_none. eapply Forall_impl; [|exact H].
  intros l V. now apply value_line_inv in V.
Qed.

Lemma all_keys_length lines :
  Forall (fun l => key_line l) lines ->
  length (all_keys db lines) = length lines.
Proof.
  induction 1 as [|l lines H _ IH]; [reflexivity|].
  rewrite all_keys_cons. apply key_of_line_key in H as [k ->].
  cbn. now rewrite IH.
Qed.

Lemma value_lines_app a b :
  value_lines db (a ++ b) = value_lines db a ++ value_lines db b.
Proof. apply filter_app. Qed.

Lemma value_lines_values lines :
  Forall (fun l => value_line l) lines -> value_lines db lines = lines.
Proof.
  induction 1 as [|l lines H _ IH]; [reflexivity|].
  unfold value_lines in *. cbn. now rewrite H, IH.
Qed.

Lemma value_lines_keys lines :
  Forall (fun l => key_line l) lines -> value_lines db lines = [].
Proof.
  induction 1 as [|l lines H _ IH]; [reflexivity|].
  unfold value_lines in *. cbn. now rewrite (key_line_not_value l H).
Qed.

(** The loop that collects keys reads the longest run of key lines. *)
Lemma collect_keys_spec lines key_group rest :
  collect_keys db lines = (key_group, rest) ->
  exists keylines,
    lines = keylines ++ rest
    /\ Forall (fun l => key_line l) keylines
    /\ key_group = all_keys db keylines
    /\ match rest with l :: _ => is_key_line db l = false | [] => True end.
Proof.
  revert key_group rest. induction lines as [|l lines IH]; cbn.
  - intros ? ? H; injection H as <- <-. exists []. auto.
  - intros key_group rest.
    destruct (KEY_RE_match db l) as [[code g2]|] eqn:K.
    + destruct (collect_keys db lines) as [kg r] eqn:C.
      intros H; injection H as <- <-.
      destruct (IH _ _ eq_refl) as (kl & -> & Hk & -> & Hr).
      exists (l :: kl). repeat split; auto.
      * constructor; [|assumption]. unfold is_key_line. now rewrite K.
      * rewrite all_keys_cons. unfold key_of_line. now rewrite K.
    + intros H; injection H as <- <-. exists []. repeat split; auto.
      unfold is_key_line. now rewrite K.
Qed.

Lemma collect_values_spec lines vals rest :
  collect_values db lines = (vals, rest) ->
  lines = vals ++ rest
  /\ Forall (fun l => value_line l) vals
  /\ match rest with l :: _ => is_value_line db l = false | [] => True end.
Proof. apply span_eq. Qed.

Lemma loop_body_turn st :
  st_lines st <> [] -> turn db st (loop_body db st).
Proof.
  unfold loop_body. destruct (st_lines st) as [|l rest] eqn:L;
    [congruence|]. intros _.
  destruct (PACK_HEADER_RE_match db l) eqn:P.
  - eapply turn_header; cbn; eauto.
  - destruct (collect_keys db (l :: rest)) as [kg rest1] eqn:CK.
    apply collect_keys_spec in CK as (kl & E & Hk & -> & Hr).
    destruct (collect_values db rest1) as [vals rest2] eqn:CV.
    apply collect_values_spec in CV as (-> & Hv & Hr2).
    destruct kl as [|k kl].
    + cbn [all_keys flat_map is_empty]. cbn in E.
      eapply turn_values with (vals := vals); cbn; eauto.
      * now rewrite L.
      * rewrite L. split; [|assumption].
        rewrite <- E in Hr. exact Hr.
    + assert (is_empty (all_keys db (k :: kl)) = false) as ->.
      { rewrite all_keys_cons. inversion Hk as [|? ? Hk1 _]; subst.
        apply key_of_line_key in Hk1 as [k' ->]. reflexivity. }
      destruct (assign_keys db (all_keys db (k :: kl)) 0
                  (st_pending st ++ vals) (st_mapping st, st_pack st))
        as [m p] eqn:A.
      eapply turn_keys with (keylines := k :: kl) (vals := vals); cbn; eauto.
      * now rewrite L.
      * discriminate.
      * intros ->. exact Hr.
Qed.

(** Induction over the turns of a run of the loop that ends. *)
Lemma while_loop_ind (P : pstate -> pstate -> Prop) :
  (forall st, st_lines st = [] -> P st st) ->
  (forall st st' fin, turn db st st' -> P st' fin -> P st fin) ->
  forall fuel st fin, while_loop db fuel st = Some fin -> P st fin.
Proof.
  intros Hend Hturn. induction fuel as [|fuel IH]; intros st fin; cbn.
  - destruct (st_lines st) eqn:L; [|discriminate].
    intros H; injection H as <-. now apply Hend.
  - destruct (st_lines st) eqn:L.
    + intros H; injection H as <-. now apply Hend.
    + intros H. eapply Hturn; [|eapply IH; exact H].
      apply loop_body_turn. congruence.
Qed.

End Loop.

(** ** Runs of the outer loop: fuel, termination, divergence *)

Section Runs.

Variable db : UnicodeDB.

Lemma while_loop_more fuel fuel' st fin :
  while_loop db fuel st = Some fin -> fuel <= fuel' ->
  while_loop db fuel' st = Some fin.
Proof.
  revert fuel' st. induction fuel as [|fuel IH]; intros fuel' st; cbn.
  - destruct (st_lines st) eqn:L; [|discriminate].
    intros H _. destruct fuel'; cbn; now rewrite L.
  - destruct (st_lines st) eqn:L.
    + intros H _. destruct fuel'; cbn; now rewrite L.
    + intros H Hle. destruct fuel' as [|fuel']; [lia|].
      cbn. rewrite L. apply IH; [assumption | lia].
Qed.

(** The result of a run does not depend on the fuel it was given. *)
Lemma while_loop_fuel_irrelevant f1 f2 st s1 s2 :
  while_loop db f1 st = Some s1 -> while_loop db f2 st = Some s2 -> s1 = s2.
Proof.
  intros H1 H2.
  apply while_loop_more with (fuel' := Nat.max f1 f2) in H1; [|lia].
  apply while_loop_more with (fuel' := Nat.max f1 f2) in H2; [|lia].
  congruence.
Qed.

Lemma stall_line_inv l :
  is_stall_line db l = false ->
  is_key_line db l = true \/ PACK_HEADER_RE_match db l = true
  \/ SEGMENT_HEADER_RE_match db l = false.
Proof.
  unfold is_stall_line. intros H. bprop. tauto.
Qed.

Lemma value_line_not_stall l :
  is_value_line db l = true -> is_stall_line db l = false.
Proof.
  intros V. apply value_line_inv in V as (_ & S & _).
  unfold is_stall_line. rewrite S. now rewrite andb_false_r.
Qed.

Lemma key_line_not_stall l :
  is_key_line db l = true -> is_stall_line db l = false.
Proof. unfold is_stall_line. intros ->. reflexivity. Qed.

Lemma pack_header_not_stall l :
  PACK_HEADER_RE_match db l = true -> is_stall_line db l = false.
Proof. unfold is_stall_line. intros ->. now rewrite andb_false_r. Qed.

Lemma turn_lines st st' :
  turn db st st' ->
  exists consumed,
    st_lines st = consumed ++ st_lines st'
    /\ Forall (fun l => is_stall_line db l = false) consumed.
Proof.
  intros [l L P _ _ _ | vals L V _ _ _ _ _ | kl vals L _ K V _ _ _ _].
  - exists [l]. split; [assumption|].
    constructor; [now apply pack_header_not_stall | constructor].
  - exists vals. split; [assumption|].
    eapply Forall_impl; [|exact V]. apply value_line_not_stall.
  - exists (kl ++ vals). split; [now rewrite <- app_assoc|].
    apply Forall_app; split.
    + eapply Forall_impl; [|exact K]. apply key_line_not_stall.
    + eapply Forall_impl; [|exact V]. apply value_line_not_stall.
Qed.

(** A run that ends has met no stall line. *)
Lemma while_loop_no_stall fuel st fin :
  while_loop db fuel st = Some fin ->
  Forall (fun l => is_stall_line db l = false) (st_lines st).
Proof.
  apply while_loop_ind with
    (P := fun st _ => Forall (fun l => is_stall_line db l = false) (st_lines st)).
  - intros st0 ->. constructor.
  - intros st0 st' _ T IH. apply turn_lines in T as (c & -> & Hc).
    apply Forall_app; auto.
Qed.

(** A turn at a line that is not a stall line reads at least one line. *)
Lemma turn_progress st st' :
  turn db st st' ->
  match st_lines st with
  | l :: _ => is_stall_line db l = false
  | [] => False
  end ->
  length (st_lines st') < length (st_lines st).
Proof.
  intros [l L P _ _ _ | vals L V R H _ _ _ | kl vals L N K V _ _ _ _] Hs.
  - rewrite L. cbn. lia.
  - destruct vals as [|v vals].
    + cbn in L. rewrite <- L in R. destruct (st_lines st) as [|l rest];
        [contradiction|]. destruct H as [HK HP].
      exfalso. unfold is_stall_line, is_value_line in *.
      rewrite HK, HP in *. cbn in *. rewrite Hs in R. discriminate.
    + rewrite L. cbn. rewrite length_app. lia.
  - rewrite L. destruct kl; [congruence|]. cbn. rewrite !length_app. lia.
Qed.

(** Without stall lines the loop ends within one turn per line. *)
Lemma while_loop_terminates fuel st :
  Forall (fun l => is_stall_line db l = false) (st_lines st) ->
  length (st_lines st) <= fuel ->
  exists fin, while_loop db fuel st = Some fin.
Proof.
  revert st. induction fuel as [|fuel IH]; intros st Hs Hl; cbn.
  - destruct (st_lines st); [eauto | cbn in Hl; lia].
  - destruct (st_lines st) as [|l rest] eqn:L; [eauto|].
    assert (T : turn db st (loop_body db st))
      by (apply loop_body_turn; congruence).
    pose proof (turn_progress _ _ T) as Pr. rewrite L in Pr.
    inversion Hs as [|? ? Hl1 Hrest]; subst.
    specialize (Pr Hl1).
    apply turn_lines in T as (c & E & _).
    apply IH.
    + rewrite L in E. rewrite E in Hs. apply Forall_app in Hs. tauto.
    + cbn in Hl. cbn in Pr. lia.
Qed.

End Runs.

(** ** The segmenter *)

Section Segmenter.

Variable db : UnicodeDB.

Lemma slice_to_end (s : str) a : slice s a (length s) = skipn a s.
Proof.
  unfold slice. apply firstn_all2. rewrite length_skipn. lia.
Qed.

Lemma segments_loop_length raw starts idx todo :
  length (segments_loop raw starts idx todo) = length todo.
Proof.
  revert idx. induction todo as [|a todo IH]; intros idx; cbn; auto.
Qed.

Lemma segments_loop_between raw starts idx :
  segments_loop raw starts idx (skipn idx starts)
  = segments_between raw (skipn idx starts).
Proof.
  remember (length starts - idx) as n eqn:Hn.
  revert idx Hn. induction n as [|n IH]; intros idx Hn.
  - rewrite skipn_all2 by lia. reflexivity.
  - assert (Hlt : idx < length starts) by lia.
    destruct (skipn idx starts) as [|a todo] eqn:E.
    + apply (f_equal (@length nat)) in E. rewrite length_skipn in E.
      cbn in E. lia.
    + assert (Et : todo = skipn (S idx) starts).
      { change (S idx) with (1 + idx). rewrite <- skipn_skipn, E.
        reflexivity. }
      cbn [segments_loop segments_between].
      rewrite Et at 1. rewrite IH by lia. rewrite <- Et.
      destruct todo as [|b todo'].
      * apply (f_equal (@length nat)) in Et. rewrite length_skipn in Et.
        cbn in Et.
        destruct (Nat.ltb_spec (S idx) (length starts)); [lia|].
        now rewrite slice_to_end.
      * assert (Hb : nth (S idx) starts 0 = b).
        { rewrite <- (Nat.add_0_r (S idx)), <- nth_skipn, <- Et.
          reflexivity. }
        apply (f_equal (@length nat)) in Et. rewrite length_skipn in Et.
        cbn in Et.
        destruct (Nat.ltb_spec (S idx) (length starts)); [|lia].
        now rewrite Hb.
Qed.

Lemma split_into_segments_between raw :
  split_into_segments db raw = segments_between raw (header_starts db raw).
Proof.
  unfold split_into_segments.
  destruct (header_starts db raw) as [|a starts] eqn:E; [reflexivity|].
  cbn [is_empty]. apply (segments_loop_between raw (a :: starts) 0).
Qed.

Lemma segments_between_length raw starts :
  length (segments_between raw starts) = length starts.
Proof.
  induction starts as [|a [|b starts] IH]; cbn in *; auto.
Qed.

Lemma segments_between_nth raw starts i :
  i < length starts ->
  nth i (segments_between raw starts) [] =
  slice raw (nth i starts 0)
        (if S i <? length starts then nth (S i) starts 0 else length raw).
Proof.
  revert i. induction starts as [|a starts IH]; intros i Hi; [cbn in Hi; lia|].
  destruct starts as [|b starts].
  - cbn in Hi. assert (i = 0) as -> by lia. cbn -[slice].
    symmetry. apply slice_to_end.
  - destruct i as [|i].
    + reflexivity.
    + cbn [segments_between nth]. rewrite IH by (cbn in *; lia).
      reflexivity.
Qed.

End Segmenter.

(** ** The occurrences of the section header *)

Section Occurrences.

Variable db : UnicodeDB.

Lemma line_start_cons bol c s j :
  line_start bol (c :: s) (S j) = line_start (N.eqb c c_LF) s j.
Proof. destruct j; reflexivity. Qed.

Lemma matches_at_cons bol c s j :
  matches_at db bol (c :: s) (S j) = matches_at db (N.eqb c c_LF) s j.
Proof. unfold matches_at. now rewrite line_start_cons. Qed.

(** Every position the scan reports lies in the text scanned, and the
    pattern matches there. *)
Lemma finditer_from_sound s : forall skip bol pos p,
  In p (finditer_from db skip bol pos s) ->
  pos <= p < pos + length s /\ matches_at db bol s (p - pos) = true.
Proof.
  induction s as [|c s IH]; intros skip bol pos p; cbn [finditer_from].
  - intros [].
  - assert (Hrec : forall k, In p (finditer_from db k (N.eqb c c_LF) (S pos) s) ->
                   pos <= p < pos + length (c :: s)
                   /\ matches_at db bol (c :: s) (p - pos) = true).
    { intros k H. apply IH in H as [Hb Hm]. cbn [length]. split; [lia|].
      replace (p - pos) with (S (p - S pos)) by lia.
      now rewrite matches_at_cons. }
    destruct skip as [|k]; [|apply Hrec].
    destruct bol.
    + destruct (header_at db (c :: s)) as [r|] eqn:E; [|apply Hrec].
      intros [<- | H]; [|eapply Hrec; exact H].
      cbn [length]. split; [lia|]. rewrite Nat.sub_diag.
      unfold matches_at. cbn [skipn line_start]. now rewrite E.
    + apply Hrec.
Qed.

(** The positions are reported in increasing order. *)
Lemma finditer_from_sorted s : forall skip bol pos,
  StronglySorted lt (finditer_from db skip bol pos s).
Proof.
  induction s as [|c s IH]; intros skip bol pos; cbn [finditer_from].
  - constructor.
  - destruct skip as [|k]; [|apply IH].
    destruct (if bol then header_at db (c :: s) else None); [|apply IH].
    constructor; [apply IH|].
    apply Forall_forall. intros p H. apply finditer_from_sound in H. lia.
Qed.

(** The scan reports nothing exactly when the pattern matches nowhere. *)
Lemma finditer_from_nil s : forall bol pos,
  finditer_from db 0 bol pos s = [] <->
  (forall i, i < length s -> matches_at db bol s i = false).
Proof.
  induction s as [|c s IH]; intros bol pos; cbn [finditer_from].
  - split; [intros _ i Hi; cbn in Hi; lia | reflexivity].
  - assert (H0 : matches_at db bol (c :: s) 0
                 = match (if bol then header_at db (c :: s) else None) with
                   | Some _ => true | None => false end).
    { unfold matches_at. cbn [line_start skipn]. now destruct bol. }
    destruct (if bol then header_at db (c :: s) else None) as [r|].
    + split; [discriminate|]. intros H.
      specialize (H 0 ltac:(cbn; lia)). congruence.
    + rewrite IH. split.
      * intros H [|i] Hi; [assumption|].
        rewrite matches_at_cons. apply H. cbn in Hi. lia.
      * intros H i Hi. rewrite <- (matches_at_cons bol). apply H. cbn. lia.
Qed.

Lemma header_starts_sound raw p :
  In p (header_starts db raw) ->
  p < length raw /\ header_occurs db raw p = true.
Proof.
  intros H. apply finditer_from_sound in H as [Hb Hm].
  rewrite Nat.sub_0_r in Hm. split; [lia | exact Hm].
Qed.

Lemma header_starts_sorted raw : StronglySorted lt (header_starts db raw).
Proof. apply finditer_from_sorted. Qed.

Lemma header_starts_nil raw :
  header_starts db raw = [] <->
  (forall i, i < length raw -> header_occurs db raw i = false).
Proof. apply finditer_from_nil. Qed.

Lemma split_into_segments_nil raw :
  split_into_segments db raw = [] <-> header_starts db raw = [].
Proof.
  rewrite split_into_segments_between.
  destruct (header_starts db raw) as [|a [|b l]]; cbn; split;
    congruence.
Qed.

End Occurrences.

(** ** [parse_segment] and [parse_articles]: when they return *)

Section Returns.

Variable db : UnicodeDB.

Lemma parse_segment_some fuel seg r :
  parse_segment db fuel seg = Some r <->
  exists fin, while_loop db fuel (initial_state (segment_lines db seg)) = Some fin
              /\ r = article_obj fin.
Proof.
  unfold parse_segment.
  destruct (while_loop db fuel (initial_state (segment_lines db seg))) as [fin|].
  - split.
    + intros H; injection H as <-. eauto.
    + intros (fin' & H & ->). injection H as ->. reflexivity.
  - split; [discriminate | intros (fin' & H & _); discriminate].
Qed.

(** [parse_segment] returns exactly on the segments without stall line, and
    then within one turn of the loop per line. *)
Lemma parse_segment_returns_iff seg :
  (exists fuel r, parse_segment db fuel seg = Some r) <->
  Forall (fun l => is_stall_line db l = false) (segment_lines db seg).
Proof.
  split.
  - intros (fuel & r & H). apply parse_segment_some in H as (fin & H & _).
    apply while_loop_no_stall in H. exact H.
  - intros H. exists (length (segment_lines db seg)).
    destruct (while_loop_terminates db (length (segment_lines db seg))
                (initial_state (segment_lines db seg)) H (le_n _)) as [fin E].
    exists (article_obj fin). apply parse_segment_some. eauto.
Qed.

Lemma parse_segment_stall fuel seg l :
  In l (segment_lines db seg) -> is_stall_line db l = true ->
  parse_segment db fuel seg = None.
Proof.
  intros Hin Hs. destruct (parse_segment db fuel seg) as [r|] eqn:E;
    [|reflexivity].
  assert (F : Forall (fun l => is_stall_line db l = false)
                     (segment_lines db seg))
    by (apply parse_segment_returns_iff; eauto).
  rewrite Forall_forall in F. apply F in Hin. congruence.
Qed.

Lemma parse_segment_fuel_irrelevant f1 f2 seg r1 r2 :
  parse_segment db f1 seg = Some r1 -> parse_segment db f2 seg = Some r2 ->
  r1 = r2.
Proof.
  intros H1 H2. apply parse_segment_some in H1 as (s1 & H1 & ->).
  apply parse_segment_some in H2 as (s2 & H2 & ->).
  f_equal. eapply while_loop_fuel_irrelevant; eauto.
Qed.

Lemma parse_all_fuel_irrelevant f1 f2 segs : forall rs1 rs2,
  parse_all db f1 segs = Some rs1 -> parse_all db f2 segs = Some rs2 ->
  rs1 = rs2.
Proof.
  induction segs as [|seg segs IH]; cbn; intros rs1 rs2.
  - congruence.
  - destruct (parse_segment db f1 seg) as [r1|] eqn:E1; [|discriminate].
    destruct (parse_segment db f2 seg) as [r2|] eqn:E2; [|discriminate].
    destruct (parse_all db f1 segs) as [t1|]; [|discriminate].
    destruct (parse_all db f2 segs) as [t2|]; [|discriminate].
    intros H1 H2; injection H1 as <-; injection H2 as <-.
    f_equal; [eapply parse_segment_fuel_irrelevant; eauto | now apply IH].
Qed.

Lemma parse_articles_raised fuel raw e :
  parse_articles db fuel raw = Raised e <->
  e = ValueError /\ header_starts db raw = [].
Proof.
  unfold parse_articles. rewrite <- split_into_segments_nil.
  destruct (split_into_segments db raw) as [|seg segs]; cbn [is_empty].
  - split; [intros H; injection H as <-; auto | intros [-> _]; reflexivity].
  - destruct (parse_all db fuel (seg :: segs)); split; try discriminate;
      intros [_ H]; discriminate.
Qed.

End Returns.

(** ** The reconciliation step *)

Section Reconcile.

Variable db : UnicodeDB.

Lemma assign_keys_fold key_group : forall idx values maps,
  assign_keys db key_group idx values maps
  = fold_left (store db)
              (combine key_group (received (length key_group) idx values))
              maps.
Proof.
  induction key_group as [|[code label] kg IH]; intros idx values [m p];
    [reflexivity|].
  cbn [assign_keys length received seq map combine fold_left].
  assert (E : (if idx <? length values then nth idx values [] else [])
              = nth idx values []).
  { destruct (Nat.ltb_spec idx (length values)); [reflexivity|].
    symmetry. now apply nth_overflow. }
  rewrite E, IH. unfold store at 3. cbn [fst snd].
  destruct (is_pack_code db code); reflexivity.
Qed.

Lemma received_length n idx values : length (received n idx values) = n.
Proof. unfold received. now rewrite length_map, length_seq. Qed.

Lemma received_nth n values i :
  i < n -> nth i (received n 0 values) [] = nth i values [].
Proof.
  intros Hi. unfold received.
  rewrite (nth_indep _ [] (nth 0 values [])), (map_nth (fun i => nth i values [])).
  - now rewrite seq_nth.
  - now rewrite length_map, length_seq.
Qed.

Lemma received_paired n values :
  received n 0 values = paired_values n values.
Proof.
  apply (nth_ext _ _ [] []).
  - rewrite received_length. unfold paired_values.
    rewrite length_firstn, length_app, repeat_length. lia.
  - rewrite received_length. intros i Hi. rewrite received_nth by assumption.
    unfold paired_values. rewrite nth_firstn.
    destruct (Nat.ltb_spec i n); [|lia].
    destruct (Nat.lt_ge_cases i (length values)).
    + now rewrite app_nth1.
    + rewrite app_nth2 by assumption. rewrite nth_repeat.
      now apply nth_overflow.
Qed.

Lemma received_In n idx values v :
  In v (received n idx values) -> v = [] \/ In v values.
Proof.
  unfold received. rewrite in_map_iff. intros (i & <- & _).
  destruct (Nat.lt_ge_cases i (length values)).
  - right. now apply nth_In.
  - left. now apply nth_overflow.
Qed.

(** The code's loop is the reconciliation step of the specification. *)
Lemma assign_keys_reconcile key_group values maps :
  assign_keys db key_group 0 values maps = reconcile db key_group values maps.
Proof.
  rewrite assign_keys_fold. unfold reconcile. now rewrite received_paired.
Qed.

Lemma paired_values_fewer n values :
  length values <= n ->
  paired_values n values = values ++ repeat [] (n - length values).
Proof.
  intros H. unfold paired_values. apply firstn_all2.
  rewrite length_app, repeat_length. lia.
Qed.

Lemma paired_values_more n values :
  n <= length values -> paired_values n values = firstn n values.
Proof.
  intros H. unfold paired_values.
  replace (n - length values) with 0 by lia. cbn. now rewrite app_nil_r.
Qed.

Lemma store_other maps code label v k :
  k <> label ->
  forall c, dict_get (bucket db (store db maps ((code, label), v)) c) k
            = dict_get (bucket db maps c) k.
Proof.
  intros N c. unfold bucket, store.
  destruct (is_pack_code db code), (is_pack_code db c); cbn [fst snd];
    try reflexivity; apply dict_get_set_other; congruence.
Qed.

Lemma store_same maps code label v :
  dict_get (bucket db (store db maps ((code, label), v)) code) label = Some v.
Proof.
  unfold bucket, store.
  destruct (is_pack_code db code) eqn:E; cbn [fst snd]; rewrite ?E;
    apply dict_get_set_same.
Qed.

Lemma fold_store_other ws : forall maps k c,
  ~ In k (map (fun w => snd (fst w)) ws) ->
  dict_get (bucket db (fold_left (store db) ws maps) c) k
  = dict_get (bucket db maps c) k.
Proof.
  induction ws as [|[[code label] v] ws IH]; intros maps k c H;
    [reflexivity|].
  cbn [fold_left]. rewrite IH.
  - apply store_other. intros ->. apply H. now left.
  - intros Hin. apply H. now right.
Qed.

(** With pairwise distinct labels every key keeps the value it received. *)
Lemma fold_store_get ws : forall maps code label v,
  NoDup (map (fun w => snd (fst w)) ws) ->
  In ((code, label), v) ws ->
  dict_get (bucket db (fold_left (store db) ws maps) code) label = Some v.
Proof.
  induction ws as [|[[c0 l0] v0] ws IH]; intros maps code label v ND Hin;
    [destruct Hin|].
  cbn [map fst snd] in ND. inversion ND as [|? ? Hn ND']; subst.
  cbn [fold_left]. destruct Hin as [E | Hin].
  - injection E as -> -> ->. rewrite fold_store_other by assumption.
    apply store_same.
  - now apply IH.
Qed.

Lemma store_keys maps c0 l0 v0 k :
  (In k (dict_keys (fst (store db maps ((c0, l0), v0)))) <->
   In k (dict_keys (fst maps)) \/ (k = l0 /\ is_pack_code db c0 = false))
  /\ (In k (dict_keys (snd (store db maps ((c0, l0), v0)))) <->
      In k (dict_keys (snd maps)) \/ (k = l0 /\ is_pack_code db c0 = true)).
Proof.
  unfold store. destruct (is_pack_code db c0); cbn [fst snd];
    rewrite dict_keys_set; intuition congruence.
Qed.

(** The labels of a bucket after a sequence of assignments. *)
Lemma fold_store_keys ws : forall maps k,
  (In k (dict_keys (fst (fold_left (store db) ws maps))) <->
   In k (dict_keys (fst maps))
   \/ exists code v, In ((code, k), v) ws /\ is_pack_code db code = false)
  /\ (In k (dict_keys (snd (fold_left (store db) ws maps))) <->
      In k (dict_keys (snd maps))
      \/ exists code v, In ((code, k), v) ws /\ is_pack_code db code = true).
Proof.
  induction ws as [|[[c0 l0] v0] ws IH]; intros maps k; cbn [fold_left].
  - split; (split; [auto | intros [H | (c & v & [] & _)]; exact H]).
  - destruct (IH (store db maps ((c0, l0), v0)) k) as [IH1 IH2].
    destruct (store_keys maps c0 l0 v0 k) as [S1 S2].
    rewrite IH1, IH2, S1, S2. clear IH IH1 IH2 S1 S2.
    split; split.
    + intros [[H | [-> Hp]] | (c & v & H & Hp)];
        [ auto
        | right; exists c0, v0; split; [now left | assumption]
        | right; exists c, v; split; [now right | assumption] ].
    + intros [H | (c & v & [E | H] & Hp)];
        [ auto
        | injection E as <- <- <-; auto
        | right; exists c, v; auto ].
    + intros [[H | [-> Hp]] | (c & v & H & Hp)];
        [ auto
        | right; exists c0, v0; split; [now left | assumption]
        | right; exists c, v; split; [now right | assumption] ].
    + intros [H | (c & v & [E | H] & Hp)];
        [ auto
        | injection E as <- <- <-; auto
        | right; exists c, v; auto ].
Qed.

(** The values of a bucket after a sequence of assignments. *)
Lemma fold_store_values ws : forall maps k v,
  (dict_get (fst (fold_left (store db) ws maps)) k = Some v ->
   dict_get (fst maps) k = Some v \/ exists code, In ((code, k), v) ws)
  /\ (dict_get (snd (fold_left (store db) ws maps)) k = Some v ->
      dict_get (snd maps) k = Some v \/ exists code, In ((code, k), v) ws).
Proof.
  induction ws as [|[[c0 l0] v0] ws IH]; intros maps k v; cbn [fold_left].
  - auto.
  - destruct (IH (store db maps ((c0, l0), v0)) k v) as [IH1 IH2].
    assert (Hex : forall code, In ((code, k), v) ws ->
                  exists code, In ((code, k), v) (((c0, l0), v0) :: ws))
      by (intros code H; exists code; now right).
    split; intros H; [apply IH1 in H | apply IH2 in H];
      (destruct H as [H | [code H]]; [|right; eauto]);
      unfold store in H; destruct (is_pack_code db c0); cbn [fst snd] in H;
      auto; rewrite dict_get_set in H;
      (destruct (str_eqb l0 k) eqn:E; [|auto]);
      apply str_eqb_eq in E; subst; injection H as <-;
      right; exists c0; now left.
Qed.

End Reconcile.

(** ** What a run of the loop leaves in the mappings *)

Section Invariants.

Variable db : UnicodeDB.

Lemma combine_In_l {A B} (l : list A) : forall (l' : list B) x,
  length l <= length l' -> In x l -> exists y, In (x, y) (combine l l').
Proof.
  induction l as [|a l IH]; intros [|b l'] x Hl Hin; cbn in *;
    try contradiction; try lia.
  destruct Hin as [-> | Hin]; [eauto|].
  destruct (IH l' x ltac:(lia) Hin) as [y Hy]. eauto.
Qed.

Lemma written_In (key_group : list (str * str)) values code k v :
  In ((code, k), v)
     (combine key_group (received (length key_group) 0 values)) ->
  In (code, k) key_group /\ (v = [] \/ In v values).
Proof.
  intros H. split; [eapply in_combine_l; eauto|].
  apply in_combine_r in H. eapply received_In; eauto.
Qed.

Lemma written_exists (key_group : list (str * str)) values code k :
  In (code, k) key_group ->
  exists v, In ((code, k), v)
               (combine key_group (received (length key_group) 0 values)).
Proof.
  apply combine_In_l. now rewrite received_length.
Qed.

(** The effect of a turn that reconciles, on the two mappings. *)
Lemma turn_maps st st' keylines vals :
  (st_mapping st', st_pack st') =
    assign_keys db (all_keys db keylines) 0 (st_pending st ++ vals)
                (st_mapping st, st_pack st) ->
  st_mapping st'
  = fst (fold_left (store db)
           (combine (all_keys db keylines)
              (received (length (all_keys db keylines)) 0
                        (st_pending st ++ vals)))
           (st_mapping st, st_pack st))
  /\ st_pack st'
     = snd (fold_left (store db)
              (combine (all_keys db keylines)
                 (received (length (all_keys db keylines)) 0
                           (st_pending st ++ vals)))
              (st_mapping st, st_pack st)).
Proof.
  rewrite assign_keys_fold. intros H.
  split; [apply (f_equal fst) in H | apply (f_equal snd) in H]; exact H.
Qed.

Lemma keys_of_app pack a b k :
  keys_of db pack (a ++ b) k <-> keys_of db pack a k \/ keys_of db pack b k.
Proof.
  unfold keys_of. rewrite all_keys_app. split.
  - intros (c & H & P). apply in_app_or in H as [H | H]; eauto.
  - intros [(c & H & P) | (c & H & P)]; exists c; split; auto;
      apply in_or_app; auto.
Qed.

Lemma keys_of_none pack lines k :
  all_keys db lines = [] -> ~ keys_of db pack lines k.
Proof. unfold keys_of. intros -> (c & [] & _). Qed.

(** The labels of the two mappings when the loop ends: those they had,
    and the labels of the key lines read, each in the mapping its code
    selects. *)
Lemma while_loop_keys fuel st fin :
  while_loop db fuel st = Some fin ->
  forall k,
    (In k (dict_keys (st_mapping fin)) <->
     In k (dict_keys (st_mapping st)) \/ keys_of db false (st_lines st) k)
    /\ (In k (dict_keys (st_pack fin)) <->
        In k (dict_keys (st_pack st)) \/ keys_of db true (st_lines st) k).
Proof.
  refine (while_loop_ind db (fun st fin => forall k,
       (In k (dict_keys (st_mapping fin)) <->
        In k (dict_keys (st_mapping st)) \/ keys_of db false (st_lines st) k)
       /\ (In k (dict_keys (st_pack fin)) <->
           In k (dict_keys (st_pack st)) \/ keys_of db true (st_lines st) k))
            _ _ fuel st fin).
  - intros st0 L k. rewrite L.
    split; (split; [auto | intros [H | H]; [exact H|]]);
      now apply keys_of_none in H.
  - intros st0 st' fin0 T IH k. destruct (IH k) as [IH1 IH2].
    rewrite IH1, IH2. clear IH IH1 IH2.
    destruct T as [l L P Em Ep _
                  | vals L V _ _ Em Ep _
                  | kl vals L _ K V _ _ A _].
    + rewrite L, Em, Ep.
      change (l :: st_lines st') with ([l] ++ st_lines st').
      rewrite !keys_of_app.
      assert (N : forall b, ~ keys_of db b [l] k).
      { intros b. apply keys_of_none. apply all_keys_none.
        constructor; [now apply pack_header_not_key | constructor]. }
      split; split; intros H; try tauto.
      * destruct H as [H | [H | H]]; auto. now apply N in H.
      * destruct H as [H | [H | H]]; auto. now apply N in H.
    + rewrite L, Em, Ep. rewrite !keys_of_app.
      assert (N : forall b, ~ keys_of db b vals k)
        by (intros b; apply keys_of_none; now apply all_keys_values).
      split; split; intros H; try tauto.
      * destruct H as [H | [H | H]]; auto. now apply N in H.
      * destruct H as [H | [H | H]]; auto. now apply N in H.
    + apply turn_maps in A as [Em Ep]. rewrite L, Em, Ep.
      rewrite !keys_of_app.
      assert (N : forall b, ~ keys_of db b vals k)
        by (intros b; apply keys_of_none; now apply all_keys_values).
      destruct (fold_store_keys db
                  (combine (all_keys db kl)
                     (received (length (all_keys db kl)) 0
                               (st_pending st0 ++ vals)))
                  (st_mapping st0, st_pack st0) k) as [F1 F2].
      rewrite F1, F2. cbn [fst snd]. clear F1 F2 Em Ep.
      assert (W : forall b,
                 (exists code v,
                     In ((code, k), v)
                        (combine (all_keys db kl)
                           (received (length (all_keys db kl)) 0
                                     (st_pending st0 ++ vals)))
                     /\ is_pack_code db code = b) <-> keys_of db b kl k).
      { intros b. unfold keys_of. split.
        - intros (c & v & H & Hp). apply written_In in H as [H _]. eauto.
        - intros (c & H & Hp).
          destruct (written_exists _ (st_pending st0 ++ vals) _ _ H) as [v Hv].
          eauto. }
      rewrite !W. split; split; intros H; try tauto.
      * destruct H as [H | [H | [H | H]]]; auto. now apply N in H.
      * destruct H as [H | [H | [H | H]]]; auto. now apply N in H.
Qed.

End Invariants.

Section Values.

Variable db : UnicodeDB.

Lemma value_lines_In_app_r a b v :
  In v (value_lines db b) -> In v (value_lines db (a ++ b)).
Proof. rewrite value_lines_app. intros H. apply in_or_app. now right. Qed.

Lemma skipn_In {A} n (l : list A) x : In x (skipn n l) -> In x l.
Proof.
  intros H. rewrite <- (firstn_skipn n l). apply in_or_app. now right.
Qed.

(** The values of the two mappings and the pending values when the loop
    ends: those they held, and values taken from the lines read. *)
Lemma while_loop_values fuel st fin :
  while_loop db fuel st = Some fin ->
  (forall v, In v (st_pending fin) ->
             In v (st_pending st) \/ In v (value_lines db (st_lines st)))
  /\ (forall k v, dict_get (st_mapping fin) k = Some v ->
        dict_get (st_mapping st) k = Some v
        \/ value_source db (st_pending st) (st_lines st) v)
  /\ (forall k v, dict_get (st_pack fin) k = Some v ->
        dict_get (st_pack st) k = Some v
        \/ value_source db (st_pending st) (st_lines st) v).
Proof.
  refine (while_loop_ind db (fun st fin =>
    (forall v, In v (st_pending fin) ->
               In v (st_pending st) \/ In v (value_lines db (st_lines st)))
    /\ (forall k v, dict_get (st_mapping fin) k = Some v ->
          dict_get (st_mapping st) k = Some v
          \/ value_source db (st_pending st) (st_lines st) v)
    /\ (forall k v, dict_get (st_pack fin) k = Some v ->
          dict_get (st_pack st) k = Some v
          \/ value_source db (st_pending st) (st_lines st) v))
    _ _ fuel st fin).
  - intros st0 _. auto.
  - intros st0 st' fin0 T (IHp & IHm & IHk).
    (* what is pending or a value line after the turn was pending or a
       value line before it *)
    assert (Hp : forall v, In v (st_pending st') ->
                 In v (st_pending st0)
                 \/ In v (value_lines db (st_lines st0))).
    { intros v H.
      destruct T as [l L _ _ _ Ep
                    | vals L V _ _ _ _ Ep
                    | kl vals L _ K V _ _ _ Ep]; rewrite Ep in H.
      - auto.
      - apply in_app_or in H as [H | H]; [auto|]. right. rewrite L.
        rewrite value_lines_app. apply in_or_app. left.
        now rewrite value_lines_values.
      - apply skipn_In in H. apply in_app_or in H as [H | H]; [auto|].
        right. rewrite L. apply value_lines_In_app_r.
        rewrite value_lines_app. apply in_or_app. left.
        now rewrite value_lines_values. }
    assert (Hl : forall v, In v (value_lines db (st_lines st')) ->
                 In v (value_lines db (st_lines st0))).
    { intros v H.
      destruct T as [l L _ _ _ _
                    | vals L _ _ _ _ _ _
                    | kl vals L _ _ _ _ _ _ _]; rewrite L.
      - now apply (value_lines_In_app_r [l]).
      - now apply value_lines_In_app_r.
      - now apply value_lines_In_app_r, value_lines_In_app_r. }
    assert (Hs : forall v, value_source db (st_pending st') (st_lines st') v ->
                 value_source db (st_pending st0) (st_lines st0) v).
    { intros v [H | [H | H]]; [now left | | right; right; auto].
      apply Hp in H as [H | H]; [right; left | right; right]; auto. }
    assert (Hd : forall k v,
               (dict_get (st_mapping st') k = Some v ->
                dict_get (st_mapping st0) k = Some v
                \/ value_source db (st_pending st0) (st_lines st0) v)
               /\ (dict_get (st_pack st') k = Some v ->
                   dict_get (st_pack st0) k = Some v
                   \/ value_source db (st_pending st0) (st_lines st0) v)).
    { intros k v.
      destruct T as [l L _ Em Ep _
                    | vals L _ _ _ Em Ep _
                    | kl vals L _ K V _ _ A _].
      - rewrite Em, Ep. auto.
      - rewrite Em, Ep. auto.
      - apply turn_maps in A as [Em Ep]. rewrite Em, Ep.
        destruct (fold_store_values db
                    (combine (all_keys db kl)
                       (received (length (all_keys db kl)) 0
                                 (st_pending st0 ++ vals)))
                    (st_mapping st0, st_pack st0) k v) as [F1 F2].
        assert (W : forall code,
                   In ((code, k), v)
                      (combine (all_keys db kl)
                         (received (length (all_keys db kl)) 0
                                   (st_pending st0 ++ vals))) ->
                   value_source db (st_pending st0) (st_lines st0) v).
        { intros code H. apply written_In in H as [_ [H | H]]; [now left|].
          apply in_app_or in H as [H | H]; [right; now left|].
          right; right. rewrite L. apply value_lines_In_app_r.
          rewrite value_lines_app. apply in_or_app. left.
          now rewrite value_lines_values. }
        split; intros H; [apply F1 in H | apply F2 in H];
          (destruct H as [H | [code H]]; [now left | right; eauto]). }
    split; [|split].
    + intros v H. apply IHp in H as [H | H]; auto.
    + intros k v H. apply IHm in H as [H | H]; [apply Hd in H; exact H | auto].
    + intros k v H. apply IHk in H as [H | H]; [apply Hd in H; exact H | auto].
Qed.

(** Once no key line is left, the loop only adds the value lines left to
    the pending values. *)
Lemma while_loop_no_keys fuel st fin :
  while_loop db fuel st = Some fin ->
  all_keys db (st_lines st) = [] ->
  st_mapping fin = st_mapping st /\ st_pack fin = st_pack st
  /\ st_pending fin = st_pending st ++ value_lines db (st_lines st).
Proof.
  refine (while_loop_ind db (fun st fin =>
    all_keys db (st_lines st) = [] ->
    st_mapping fin = st_mapping st /\ st_pack fin = st_pack st
    /\ st_pending fin = st_pending st ++ value_lines db (st_lines st))
    _ _ fuel st fin).
  - intros st0 L _. rewrite L. cbn. now rewrite app_nil_r.
  - intros st0 st' fin0 T IH N.
    destruct T as [l L P Em Ep Epn
                  | vals L V _ _ Em Ep Epn
                  | kl vals L Hne K V _ _ _ _].
    + rewrite L in N. change (l :: st_lines st') with ([l] ++ st_lines st') in N.
      rewrite all_keys_app in N. apply app_eq_nil in N as [_ N].
      destruct (IH N) as (-> & -> & ->). rewrite Em, Ep, Epn, L.
      repeat split. f_equal. unfold value_lines. cbn [filter].
      now rewrite (pack_header_not_value db l P).
    + rewrite L, all_keys_app in N. apply app_eq_nil in N as [_ N].
      destruct (IH N) as (-> & -> & ->). rewrite Em, Ep, Epn, L.
      repeat split. rewrite value_lines_app, (value_lines_values db vals V).
      now rewrite app_assoc.
    + exfalso. rewrite L, all_keys_app in N. apply app_eq_nil in N as [N _].
      apply (f_equal (@length _)) in N.
      rewrite all_keys_length in N by assumption.
      destruct kl; [congruence | discriminate].
Qed.

End Values.

(** ** The record built at the end *)

Section Records.

Variable db : UnicodeDB.

Lemma section_names_distinct :
  str_eqb MAIN_SECTION PACK_SECTION = false
  /\ str_eqb MAIN_SECTION UNMAPPED_SECTION = false
  /\ str_eqb PACK_SECTION UNMAPPED_SECTION = false
  /\ str_eqb UNMAPPED_SECTION PACK_SECTION = false.
Proof. repeat split; vm_compute; reflexivity. Qed.

Lemma article_obj_main fin :
  dict_get (article_obj fin) MAIN_SECTION = Some (VDict (st_mapping fin)).
Proof. unfold article_obj. cbn [app dict_get]. now rewrite str_eqb_refl. Qed.

Lemma article_obj_pack fin :
  dict_get (article_obj fin) PACK_SECTION
  = if is_empty (st_pack fin) then None else Some (VDict (st_pack fin)).
Proof.
  destruct section_names_distinct as (E1 & _ & _ & E4).
  unfold article_obj. cbn [app dict_get]. rewrite E1.
  destruct (is_empty (st_pack fin)); cbn [app dict_get];
    rewrite ?str_eqb_refl; [|reflexivity].
  destruct (is_empty (st_pending fin)); cbn [dict_get]; rewrite ?E4;
    reflexivity.
Qed.

Lemma article_obj_unmapped fin :
  dict_get (article_obj fin) UNMAPPED_SECTION
  = if is_empty (st_pending fin) then None
    else Some (VList (st_pending fin)).
Proof.
  destruct section_names_distinct as (_ & E2 & E3 & _).
  unfold article_obj. cbn [app dict_get]. rewrite E2.
  destruct (is_empty (st_pack fin)); cbn [app dict_get]; rewrite ?E3;
    destruct (is_empty (st_pending fin)); cbn [dict_get];
    rewrite ?str_eqb_refl; reflexivity.
Qed.

(** The unmapped list of a record is there only when it is not empty. *)
Lemma article_obj_unmapped_nonempty fin u :
  dict_get (article_obj fin) UNMAPPED_SECTION = Some (VList u) -> u <> [].
Proof.
  rewrite article_obj_unmapped.
  destruct (st_pending fin) as [|v vs]; cbn [is_empty]; [discriminate|].
  intros H; injection H as <-. discriminate.
Qed.

Lemma record_get_main fin k :
  record_get (article_obj fin) MAIN_SECTION k = dict_get (st_mapping fin) k.
Proof. unfold record_get. now rewrite article_obj_main. Qed.

Lemma record_get_pack fin k :
  record_get (article_obj fin) PACK_SECTION k = dict_get (st_pack fin) k.
Proof.
  unfold record_get. rewrite article_obj_pack.
  destruct (st_pack fin); reflexivity.
Qed.

Lemma all_keys_shape lines code label :
  In (code, label) (all_keys db lines) -> key_code_shape db code.
Proof.
  unfold all_keys. rewrite in_flat_map. intros (l & _ & H).
  unfold key_of_line in H.
  destruct (KEY_RE_match db l) as [[c g2]|] eqn:K; [|destruct H].
  destruct H as [H | []]. injection H as -> _.
  apply KEY_RE_match_sound in K as (r & _ & Sh). exact Sh.
Qed.

(** Dropping the header line drops no key line. *)
Lemma all_keys_drop_header lines :
  all_keys db (drop_header db lines) = all_keys db lines.
Proof.
  unfold drop_header. destruct lines as [|l0 rest]; [reflexivity|].
  destruct (startswith HEADER_LITERAL (str_upper db l0)) eqn:E;
    [|reflexivity].
  rewrite all_keys_cons.
  destruct (is_key_line db l0) eqn:K.
  - apply key_line_not_dropped in K. congruence.
  - apply key_of_line_not_key in K. now rewrite K.
Qed.

Lemma keys_of_prefix pack lines k :
  keys_of db pack lines k <->
  exists code, In (code, k) (all_keys db lines)
               /\ startswith (lit "17.1") code = pack.
Proof.
  unfold keys_of. split; intros (c & H & P); exists c; split; auto;
    pose proof (all_keys_shape _ _ _ H) as Sh;
    apply is_pack_code_prefix in Sh; congruence.
Qed.

End Records.

(** ** A turn of the loop that reconciles *)

Section Step.

Variable db : UnicodeDB.

Lemma loop_body_reconcile st l rest key_group rest1 val_group rest2 :
  st_lines st = l :: rest ->
  collect_keys db (l :: rest) = (key_group, rest1) ->
  key_group <> [] ->
  collect_values db rest1 = (val_group, rest2) ->
  st_lines (loop_body db st) = rest2
  /\ (st_mapping (loop_body db st), st_pack (loop_body db st))
     = reconcile db key_group (st_pending st ++ val_group)
                 (st_mapping st, st_pack st)
  /\ st_pending (loop_body db st)
     = skipn (length key_group) (st_pending st ++ val_group).
Proof.
  intros L CK Hne CV.
  assert (P : PACK_HEADER_RE_match db l = false).
  { apply key_line_not_pack_header. unfold is_key_line.
    cbn [collect_keys] in CK. destruct (KEY_RE_match db l); [reflexivity|].
    injection CK as <- _. congruence. }
  unfold loop_body. rewrite L, P, CK.
  destruct key_group as [|k kg]; [congruence|]. cbn [is_empty].
  rewrite CV, assign_keys_reconcile.
  destruct (reconcile db (k :: kg) (st_pending st ++ val_group)
              (st_mapping st, st_pack st)) as [m p].
  cbn. auto.
Qed.

Lemma combine_labels (key_group : list (str * str)) (values : list str) :
  length key_group <= length values ->
  map (fun w => snd (fst w)) (combine key_group values) = map snd key_group.
Proof.
  revert values. induction key_group as [|k kg IH]; intros [|v values] H;
    cbn in *; try reflexivity; try lia.
  f_equal. apply IH. lia.
Qed.

Lemma combine_nth_error (key_group : list (str * str)) (values : list str)
  idx k :
  length key_group = length values ->
  nth_error key_group idx = Some k ->
  In (k, nth idx values []) (combine key_group values).
Proof.
  intros Hl Hk.
  assert (Hi : idx < length key_group)
    by (apply nth_error_Some; congruence).
  apply (nth_error_nth _ _ k) in Hk.
  rewrite <- Hk at 1.
  rewrite <- (combine_nth key_group values idx k []) by assumption.
  apply nth_In. rewrite length_combine. lia.
Qed.

(** With pairwise distinct labels in the group, key number [idx] is bound
    to value number [idx] after the step, and to the empty string when
    there is no such value. *)
Lemma reconcile_get key_group values maps idx code label :
  NoDup (map snd key_group) ->
  nth_error key_group idx = Some (code, label) ->
  dict_get (bucket db (reconcile db key_group values maps) code) label
  = Some (nth idx values []).
Proof.
  intros ND Hk. unfold reconcile. rewrite <- received_paired.
  assert (Hi : idx < length key_group)
    by (apply nth_error_Some; congruence).
  apply fold_store_get.
  - rewrite combine_labels; [assumption|]. now rewrite received_length.
  - rewrite <- (received_nth (length key_group) values idx) by assumption.
    apply combine_nth_error; [now rewrite received_length | assumption].
Qed.

End Step.

(** ** The flattener *)

Lemma fold_set_get (d : dict str) : forall flat k,
  NoDup (dict_keys d) ->
  dict_get (fold_left (fun f kv => dict_set f (fst kv) (snd kv)) d flat) k
  = match dict_get d k with
    | Some v => Some v
    | None => dict_get flat k
    end.
Proof.
  induction d as [|[k0 v0] d IH]; intros flat k ND; [reflexivity|].
  cbn [fold_left fst snd dict_get]. inversion ND as [|? ? Hn ND']; subst.
  rewrite IH by assumption. rewrite dict_get_set.
  destruct (str_eqb k0 k) eqn:E; [|reflexivity].
  apply str_eqb_eq in E; subst k0.
  destruct (dict_get d k) as [v|] eqn:G; [|reflexivity].
  exfalso. apply Hn. apply dict_get_In_keys. eauto.
Qed.

(** A row holds for a label the value of packages, and the value of main
    when packages has none. *)
Lemma merge_sections_get main packages k :
  NoDup (dict_keys main) -> NoDup (dict_keys packages) ->
  dict_get (merge_sections main packages) k
  = match dict_get packages k with
    | Some v => Some v
    | None => dict_get main k
    end.
Proof.
  intros Nm Np. unfold merge_sections. rewrite !fold_set_get by assumption.
  destruct (dict_get packages k); [reflexivity|].
  destruct (dict_get main k); reflexivity.
Qed.

Lemma drop_unmapped_article_obj fin :
  drop_unmapped (article_obj fin)
  = (MAIN_SECTION, VDict (st_mapping fin))
    :: (if is_empty (st_pack fin) then []
        else [(PACK_SECTION, VDict (st_pack fin))]).
Proof.
  unfold drop_unmapped, article_obj.
  destruct (is_empty (st_pack fin)), (is_empty (st_pending fin));
    reflexivity.
Qed.

Lemma flatten_cleaned_article_obj fin :
  flatten_record (drop_unmapped (article_obj fin))
  = Returned (merge_sections (st_mapping fin) (st_pack fin)).
Proof.
  rewrite drop_unmapped_article_obj. unfold flatten_record, merge_sections.
  destruct (st_pack fin); reflexivity.
Qed.

Lemma flatten_records_cleaned (finals : list pstate) :
  flatten_records (clean_articles (map article_obj finals))
  = Returned (map (fun fin => merge_sections (st_mapping fin) (st_pack fin))
                  finals).
Proof.
  induction finals as [|fin finals IH]; [reflexivity|].
  unfold clean_articles in *. cbn [map flatten_records].
  now rewrite flatten_cleaned_article_obj, IH.
Qed.

Lemma add_column_In columns k x :
  In x (add_column columns k) <-> In x columns \/ x = k.
Proof.
  unfold add_column. destruct (existsb (str_eqb k) columns) eqn:E.
  - split; [auto | intros [H | ->]; [exact H|]].
    apply existsb_exists in E as (y & Hy & Ey).
    apply str_eqb_eq in Ey. now subst.
  - rewrite in_app_iff. cbn. intuition.
Qed.

Lemma add_columns_In keys : forall columns x,
  In x (fold_left add_column keys columns) <-> In x columns \/ In x keys.
Proof.
  induction keys as [|k keys IH]; intros columns x; cbn [fold_left].
  - cbn. tauto.
  - rewrite IH, add_column_In. cbn. intuition.
Qed.

(** The columns of a data frame are the labels of its rows. *)
Lemma make_dataframe_columns rows x :
  In x (df_columns (make_dataframe rows)) <->
  exists row, In row rows /\ In x (dict_keys row).
Proof.
  unfold make_dataframe. cbn [df_columns].
  assert (G : forall columns,
             In x (fold_left (fun cols row =>
                                fold_left add_column (dict_keys row) cols)
                             rows columns) <->
             In x columns \/ exists row, In row rows /\ In x (dict_keys row)).
  { induction rows as [|row rows IH]; intros columns; cbn [fold_left].
    - split; [auto | intros [H | (r & [] & _)]; exact H].
    - rewrite IH, add_columns_In. split.
      + intros [[H | H] | (r & Hr & Hx)]; auto.
        * right. exists row. split; [now left | assumption].
        * right. exists r. split; [now right | assumption].
      + intros [H | (r & [-> | Hr] & Hx)]; auto.
        right. exists r. auto. }
  rewrite G. split; [intros [[] | H]; exact H | auto].
Qed.

Section Flatten.

Variable db : UnicodeDB.

Lemma fold_store_NoDup ws : forall maps,
  NoDup (dict_keys (fst maps)) /\ NoDup (dict_keys (snd maps)) ->
  NoDup (dict_keys (fst (fold_left (store db) ws maps)))
  /\ NoDup (dict_keys (snd (fold_left (store db) ws maps))).
Proof.
  induction ws as [|[[c l] v] ws IH]; intros maps [H1 H2]; [auto|].
  cbn [fold_left]. apply IH. unfold store.
  destruct (is_pack_code db c); cbn [fst snd]; split;
    auto using dict_keys_set_NoDup.
Qed.

(** The labels of each mapping stay pairwise distinct. *)
Lemma while_loop_NoDup fuel st fin :
  while_loop db fuel st = Some fin ->
  NoDup (dict_keys (st_mapping st)) /\ NoDup (dict_keys (st_pack st)) ->
  NoDup (dict_keys (st_mapping fin)) /\ NoDup (dict_keys (st_pack fin)).
Proof.
  refine (while_loop_ind db (fun st fin =>
    NoDup (dict_keys (st_mapping st)) /\ NoDup (dict_keys (st_pack st)) ->
    NoDup (dict_keys (st_mapping fin)) /\ NoDup (dict_keys (st_pack fin)))
    _ _ fuel st fin).
  - auto.
  - intros st0 st' fin0 T IH H. apply IH.
    destruct T as [l _ _ Em Ep _
                  | vals _ _ _ _ Em Ep _
                  | kl vals _ _ _ _ _ _ A _].
    + now rewrite Em, Ep.
    + now rewrite Em, Ep.
    + apply turn_maps in A as [Em Ep]. rewrite Em, Ep.
      now apply fold_store_NoDup.
Qed.

(** Every record [parse_segment] returns is built from a final state of
    the loop whose mappings have pairwise distinct labels. *)
Lemma parse_segment_final fuel segment r :
  parse_segment db fuel segment = Some r ->
  exists fin, r = article_obj fin
              /\ NoDup (dict_keys (st_mapping fin))
              /\ NoDup (dict_keys (st_pack fin)).
Proof.
  intros H. apply parse_segment_some in H as (fin & H & ->).
  exists fin. split; [reflexivity|].
  apply (while_loop_NoDup _ _ _ H). cbn. split; constructor.
Qed.

Lemma parsed_records_finals records :
  Forall (fun r => exists fuel segment,
                     parse_segment db fuel segment = Some r) records ->
  exists finals,
    records = map article_obj finals
    /\ Forall (fun fin => NoDup (dict_keys (st_mapping fin))
                          /\ NoDup (dict_keys (st_pack fin))) finals.
Proof.
  induction 1 as [|r records (fuel & seg & H) _ (finals & -> & F)].
  - exists []. split; [reflexivity | constructor].
  - apply parse_segment_final in H as (fin & -> & N).
    exists (fin :: finals). split; [reflexivity | now constructor].
Qed.

End Flatten.

(** ** Sub-section headers are never data *)

Section Headers.

Variable db : UnicodeDB.

Lemma value_lines_In lines v :
  In v (value_lines db lines) -> is_value_line db v = true.
Proof. unfold value_lines. rewrite filter_In. tauto. Qed.

(** A line that matches [PACK_HEADER_RE] is no key line, and in a record
    [parse_segment] returns it is no value of the main or of the packages
    mapping and no unmapped value. *)
Lemma pack_header_never_data fuel segment r l :
  parse_segment db fuel segment = Some r ->
  PACK_HEADER_RE_match db l = true ->
  key_of_line db l = None
  /\ (forall label, record_get r MAIN_SECTION label <> Some l)
  /\ (forall label, record_get r PACK_SECTION label <> Some l)
  /\ (forall u, dict_get r UNMAPPED_SECTION = Some (VList u) -> ~ In l u).
Proof.
  intros H P. apply parse_segment_some in H as (fin & H & ->).
  pose proof (while_loop_values db fuel _ _ H) as (Vp & Vm & Vk).
  cbn [initial_state st_lines st_mapping st_pack st_pending dict_get] in *.
  assert (Hne : l <> []) by (intros ->; discriminate P).
  assert (Hnv : forall lines, ~ In l (value_lines db lines)).
  { intros lines Hin. apply value_lines_In in Hin.
    rewrite (pack_header_not_value db l P) in Hin. discriminate. }
  assert (Hsrc : forall lines, ~ value_source db [] lines l).
  { intros lines [E | [[] | E]]; [congruence | now apply Hnv in E]. }
  split; [apply key_of_line_not_key; now apply pack_header_not_key|].
  split; [|split].
  - intros label E. rewrite record_get_main in E.
    apply Vm in E as [E | E]; [discriminate | now apply Hsrc in E].
  - intros label E. rewrite record_get_pack in E.
    apply Vk in E as [E | E]; [discriminate | now apply Hsrc in E].
  - intros u E Hin. rewrite article_obj_unmapped in E.
    destruct (is_empty (st_pending fin)); [discriminate|].
    injection E as <-. apply Vp in Hin as [[] | Hin]. now apply Hnv in Hin.
Qed.

End Headers.

(** ** The examples of the specification *)

Example normalization_example :
  normalize_line (c_quote :: lit "  Mengeneinheit  " ++ [c_quote])
  = lit "Mengeneinheit".
Proof. vm_compute. reflexivity. Qed.

Example end_to_end_example :
  parse_articles ascii_db 1 end_to_end_text
  = Returned
      [[(MAIN_SECTION,
         VDict [(lit "A", lit "a1"); (lit "B", lit "b1"); (lit "C", lit "c1")])];
       [(MAIN_SECTION,
         VDict [(lit "A", lit "a2"); (lit "B", lit "b2"); (lit "C", lit "c2")])]]
  /\ load_and_flatten
       [[(MAIN_SECTION,
          VDict [(lit "A", lit "a1"); (lit "B", lit "b1"); (lit "C", lit "c1")])];
        [(MAIN_SECTION,
          VDict [(lit "A", lit "a2"); (lit "B", lit "b2"); (lit "C", lit "c2")])]]
     = Returned
         {| df_columns := [lit "A"; lit "B"; lit "C"];
            df_rows :=
              [[(lit "A", lit "a1"); (lit "B", lit "b1"); (lit "C", lit "c1")];
               [(lit "A", lit "a2"); (lit "B", lit "b2"); (lit "C", lit "c2")]]
         |}.
Proof. split; vm_compute; reflexivity. Qed.

(** ** The matchers and the grammars of the patterns *)

Lemma dropwhile_app_all {A} (p : A -> bool) (a b : list A) :
  Forall (fun x => p x = true) a -> dropwhile p (a ++ b) = dropwhile p b.
Proof.
  induction 1 as [|x a Hx _ IH]; cbn; [reflexivity|]. now rewrite Hx.
Qed.

Lemma dropwhile_stop {A} (p : A -> bool) (l : list A) :
  match l with x :: _ => p x = false | [] => True end ->
  dropwhile p l = l.
Proof. destruct l as [|x l]; cbn; [reflexivity|]. now intros ->. Qed.

Lemma dropwhile_split {A} (p : A -> bool) (l : list A) :
  exists a, l = a ++ dropwhile p l /\ Forall (fun x => p x = true) a.
Proof.
  induction l as [|x l (a & E & Ha)]; cbn.
  - exists []. split; [reflexivity | constructor].
  - destruct (p x) eqn:Hx.
    + exists (x :: a). split; [cbn; congruence | now constructor].
    + exists []. split; [reflexivity | constructor].
Qed.

Lemma span_app_all {A} (p : A -> bool) (a b : list A) :
  Forall (fun x => p x = true) a ->
  span p (a ++ b) = (a ++ fst (span p b), snd (span p b)).
Proof.
  induction 1 as [|x a Hx _ IH]; cbn.
  - now destruct (span p b).
  - now rewrite Hx, IH.
Qed.

Section Matchers.

Variable db : UnicodeDB.

Lemma match_lit_ci_iff pat : forall s m r,
  match_lit_ci db pat s = Some (m, r) <-> lit_matches db pat m /\ s = m ++ r.
Proof.
  unfold lit_matches.
  induction pat as [|p pat IH]; intros s m r; cbn [match_lit_ci].
  - split.
    + intros H; injection H as <- <-. split; [constructor | reflexivity].
    + intros [H ->]. inversion H. reflexivity.
  - destruct s as [|c s].
    + split; [discriminate|]. intros [H E]. inversion H; subst. discriminate.
    + destruct (re_lit_ci db p c) eqn:L.
      * destruct (match_lit_ci db pat s) as [[m' r']|] eqn:M.
        -- apply IH in M as [Hm ->]. split.
           ++ intros H; injection H as <- <-.
              split; [now constructor | reflexivity].
           ++ intros [H E]. inversion H as [|? c' ? m'' Hc Hm']; subst.
              cbn in E. injection E as <- E.
              assert (M : match_lit_ci db pat (m' ++ r') = Some (m'', r))
                by (apply IH; auto).
              assert (M' : match_lit_ci db pat (m' ++ r') = Some (m', r'))
                by (apply IH; auto).
              congruence.
        -- split; [discriminate|]. intros [H E].
           inversion H as [|? c' ? m'' Hc Hm']; subst.
           cbn in E. injection E as <- ->.
           assert (M' : match_lit_ci db pat (m'' ++ r) = Some (m'', r))
             by (apply IH; auto).
           congruence.
      * split; [discriminate|]. intros [H E].
        inversion H as [|? c' ? m'' Hc Hm']; subst.
        cbn in E. injection E as <- _. congruence.
Qed.

Lemma lit_letter_not_space p c :
  is_ascii_letter p = true -> re_lit_ci db p c = true -> isspace c = false.
Proof.
  unfold re_lit_ci. intros Hp. rewrite Hp. destruct (is_ascii c) eqn:A.
  - intros E. apply N.eqb_eq in E. apply not_true_is_false. intros S.
    unfold isspace, ascii_lower, is_ascii_letter, is_ascii_upper,
      is_ascii_lower, in_range in *.
    destruct (N.leb 65 c && N.leb c 90) eqn:U;
      destruct (N.leb 65 p && N.leb p 90) eqn:V; bprop; lia.
  - destruct (uni_fold db c) eqn:F; [|discriminate].
    intros _. eapply uni_fold_not_space; eauto.
Qed.

(** The header literal begins with the digit one, which is neither white
    space nor the quote. *)
Lemma header_literal_head m :
  lit_matches db HEADER_LITERAL m ->
  exists m', m = 49%N :: m'.
Proof.
  rewrite HEADER_LITERAL_eq. intros H.
  inversion H as [|p c ? m' Hc _]; subst.
  unfold re_lit_ci in Hc. cbn in Hc. apply N.eqb_eq in Hc. subst. eauto.
Qed.

(** [header_at] finds exactly the matches of the header pattern. *)
Lemma header_at_iff s r :
  header_at db s = Some r <-> header_matches db s r.
Proof.
  unfold header_at, header_matches. split.
  - destruct (dropwhile_split isspace s) as (ws1 & E1 & H1).
    set (s1 := dropwhile isspace s) in *.
    set (s2 := match s1 with
               | c :: s1' => if is_quote c then s1' else s1
               | [] => s1
               end).
    assert (exists q, (q = [] \/ q = [c_quote]) /\ s1 = q ++ s2)
      as (q & Hq & E2).
    { subst s2. destruct s1 as [|c s1']; [exists []; auto|].
      destruct (is_quote c) eqn:Q.
      - apply N.eqb_eq in Q. subst c. exists [c_quote]. auto.
      - exists []. auto. }
    destruct (dropwhile_split isspace s2) as (ws2 & E3 & H2).
    destruct (match_lit_ci db HEADER_LITERAL (dropwhile isspace s2))
      as [[m r']|] eqn:M; [|discriminate].
    destruct (word_boundary db m r') eqn:B; [|discriminate].
    intros H; injection H as ->.
    apply match_lit_ci_iff in M as [Hm E4].
    exists ws1, q, ws2, m. repeat split; auto.
    rewrite E1, E2, E3, E4. reflexivity.
  - intros (ws1 & q & ws2 & m & H1 & Hq & H2 & Hm & B & ->).
    destruct (header_literal_head m Hm) as [m' ->].
    rewrite (dropwhile_app_all isspace ws1) by assumption.
    assert (E : match_lit_ci db HEADER_LITERAL ((49%N :: m') ++ r)
                = Some (49%N :: m', r))
      by (apply match_lit_ci_iff; auto).
    destruct Hq as [-> | ->]; cbn [app].
    + rewrite (dropwhile_app_all isspace ws2) by assumption.
      cbn [dropwhile app]. cbn [app] in E.
      replace (isspace 49) with false by reflexivity.
      replace (is_quote 49) with false by reflexivity.
      cbn [dropwhile]. replace (isspace 49) with false by reflexivity.
      rewrite E, B. reflexivity.
    + cbn [dropwhile]. replace (isspace c_quote) with false by reflexivity.
      replace (is_quote c_quote) with true by reflexivity.
      rewrite (dropwhile_app_all isspace ws2) by assumption.
      cbn [dropwhile app]. cbn [app] in E.
      replace (isspace 49) with false by reflexivity.
      rewrite E, B. reflexivity.
Qed.

Lemma numeric_prefix_code n c :
  numeric_prefix db n -> re_letter_ci db c = true ->
  key_code_shape db (n ++ [c]).
Proof.
  intros [|d ds Hd] L.
  - apply shape_plain; [assumption|]. intros ->. discriminate L.
  - apply (shape_sub db d ds c Hd L).
Qed.

Lemma key_code_shape_prefix code :
  key_code_shape db code ->
  exists n c, numeric_prefix db n /\ re_letter_ci db c = true
              /\ code = n ++ [c].
Proof.
  intros [l L _ | d ds l Hd L].
  - exists (lit "17"), l. repeat split; [constructor | assumption].
  - exists (lit "17" ++ c_dot :: d :: ds), l.
    repeat split; [now constructor | assumption].
Qed.

(** [key_code] finds the code, in whichever way the pattern is matched. *)
Lemma key_code_complete code r :
  key_code_shape db code -> key_code db (code ++ r) = Some (code, r).
Proof.
  intros [l L ND | d ds l Hd L]; unfold key_code; rewrite lit_17.
  - cbn [app strip_prefix]. rewrite !N.eqb_refl.
    apply N.eqb_neq in ND. rewrite ND, L. reflexivity.
  - replace (((49 :: 55 :: c_dot :: d :: ds) ++ [l]) ++ r)%N
      with (49 :: 55 :: c_dot :: ((d :: ds) ++ [l] ++ r))%N
      by (cbn; now rewrite <- app_assoc).
    cbn [strip_prefix]. rewrite !N.eqb_refl.
    rewrite (span_stop (re_digit db) (d :: ds) ([l] ++ r)); [|assumption|].
    + cbn [app]. rewrite L. reflexivity.
    + cbn. destruct (re_digit db l) eqn:D; [|reflexivity].
      apply digit_not_letter in D. congruence.
Qed.

Lemma span_strip_tail x e :
  Forall (fun c => N.eqb c c_LF = false) x -> e = [] \/ e = [c_LF] ->
  exists x' e',
    snd (span isspace (x ++ e)) = x' ++ e'
    /\ Forall (fun c => N.eqb c c_LF = false) x'
    /\ (e' = [] \/ e' = [c_LF]).
Proof.
  intros Hx He. induction Hx as [|c x Hc Hx IH]; cbn [app].
  - exists [], []. destruct He as [-> | ->]; cbn; auto.
  - cbn [span]. destruct (isspace c).
    + destruct IH as (x' & e' & E & H1 & H2).
      destruct (span isspace (x ++ e)). cbn in *. eauto.
    + exists (c :: x), e. cbn. auto.
Qed.

(** [key_tail] accepts exactly the tails of the pattern. *)
Lemma key_tail_iff r :
  (exists g, key_tail r = Some g) <-> tail_matches r.
Proof.
  unfold key_tail, tail_matches. split.
  - intros [g H]. destruct r as [|c r]; [now left | right].
    destruct (span isspace (c :: r)) as [ws r1] eqn:S.
    apply span_eq in S as (E & Hws & _).
    destruct ws as [|w ws]; [discriminate|]. cbn [is_empty] in H.
    destruct (span (fun c => negb (N.eqb c c_LF)) r1) as [x r2] eqn:S2.
    apply span_eq in S2 as (-> & Hx & Hr2).
    exists (w :: ws), x, r2. repeat split; auto; try discriminate.
    + eapply Forall_impl; [|exact Hx]. intros a. now rewrite negb_true_iff.
    + destruct r2 as [|a [|b r3]]; [auto | | discriminate].
      right. rewrite negb_false_iff in Hr2. apply N.eqb_eq in Hr2.
      now subst.
  - intros [-> | (ws & x & e & Hne & Hws & Hx & He & ->)]; [eauto|].
    destruct ws as [|w ws]; [congruence|].
    cbn [app]. rewrite app_comm_cons.
    rewrite (span_app_all isspace (w :: ws)) by assumption.
    cbn [app is_empty].
    destruct (span_strip_tail x e Hx He) as (x' & e' & -> & Hx' & He').
    rewrite (span_stop (fun c => negb (N.eqb c c_LF)) x' e').
    + destruct He' as [-> | ->]; eauto.
    + eapply Forall_impl; [|exact Hx']. intros a ->. reflexivity.
    + destruct He' as [-> | ->]; cbn; auto.
Qed.

(** A line is a key line exactly when it matches the pattern, and the code
    read is the first group of the match. *)
Lemma is_key_line_iff l :
  is_key_line db l = true <-> exists code, key_matches db l code.
Proof.
  unfold is_key_line, KEY_RE_match, key_matches. split.
  - destruct (key_code db l) as [[code r]|] eqn:K; [|discriminate].
    destruct (key_tail r) as [g|] eqn:T; [|discriminate]. intros _.
    apply key_code_sound in K as [-> Sh].
    destruct (key_code_shape_prefix code Sh) as (n & c & Hn & Hc & ->).
    exists (n ++ [c]), n, c, r. repeat split; auto.
    apply key_tail_iff. eauto.
  - intros (code & n & c & r & Hn & Hc & -> & -> & Ht).
    rewrite (key_code_complete (n ++ [c]) r (numeric_prefix_code n c Hn Hc)).
    apply key_tail_iff in Ht as [g ->]. reflexivity.
Qed.

Lemma KEY_RE_match_code l code g2 :
  KEY_RE_match db l = Some (code, g2) -> key_matches db l code.
Proof.
  unfold KEY_RE_match, key_matches.
  destruct (key_code db l) as [[code' r]|] eqn:K; [|discriminate].
  destruct (key_tail r) as [g|] eqn:T; [|discriminate].
  intros H; injection H as <- _.
  apply key_code_sound in K as [-> Sh].
  destruct (key_code_shape_prefix code' Sh) as (n & c & Hn & Hc & ->).
  exists n, c, r. repeat split; auto. apply key_tail_iff. eauto.
Qed.

(** [PACK_HEADER_RE_match] accepts exactly the lines of the pattern. *)
Lemma PACK_HEADER_RE_match_iff l :
  PACK_HEADER_RE_match db l = true <-> pack_header_matches db l.
Proof.
  unfold PACK_HEADER_RE_match, pack_header_matches. split.
  - destruct (strip_prefix (lit "17") l) as [r|] eqn:P; [|discriminate].
    apply strip_prefix_app in P. subst l.
    set (after := match r with
                  | c :: r' =>
                      if N.eqb c c_dot then
                        let (ds, r1) := span (re_digit db) r' in
                        if is_empty ds then None else Some r1
                      else Some r
                  | [] => Some r
                  end).
    assert (Ha : forall r1, after = Some r1 ->
                 exists n, numeric_prefix db n /\ lit "17" ++ r = n ++ r1).
    { subst after. intros r1. destruct r as [|c r'].
      - intros H; injection H as <-. exists (lit "17"). split; [constructor|auto].
      - destruct (N.eqb c c_dot) eqn:D.
        + apply N.eqb_eq in D. subst c.
          destruct (span (re_digit db) r') as [ds r2] eqn:S.
          apply span_eq in S as (-> & Hd & _).
          destruct ds as [|d ds]; [discriminate|].
          intros H; injection H as <-.
          exists (lit "17" ++ c_dot :: d :: ds). split; [now constructor|].
          rewrite <- app_assoc. reflexivity.
        + intros H; injection H as <-.
          exists (lit "17"). split; [constructor | auto]. }
    destruct after as [r1|]; [|discriminate].
    destruct (Ha r1 eq_refl) as (n & Hn & ->). clear Ha.
    destruct (span isspace r1) as [ws r2] eqn:S.
    apply span_eq in S as (-> & Hws & _).
    destruct ws as [|w ws]; [discriminate|]. cbn [is_empty].
    destruct (match_lit_ci db (lit "PACKST") r2) as [[m1 [|u r3]]|] eqn:M1;
      try discriminate.
    destruct (re_U_class_ci db u) eqn:U; [|discriminate].
    destruct (match_lit_ci db (lit "CKE") r3) as [[m2 r4]|] eqn:M2;
      [|discriminate].
    intros B. apply match_lit_ci_iff in M1 as [H1 ->].
    apply match_lit_ci_iff in M2 as [H2 ->].
    exists n, (w :: ws), m1, u, m2, r4.
    repeat split; auto; discriminate.
  - intros (n & ws & m1 & u & m2 & r & Hn & Hne & Hws & H1 & U & H2 & B & ->).
    assert (Hp : exists p m1', m1 = p :: m1' /\ isspace p = false).
    { inversion H1 as [|p c ? m1' Hc _]; subst.
      exists c, m1'. split; [reflexivity|].
      eapply lit_letter_not_space; [|exact Hc]. reflexivity. }
    destruct Hp as (p & m1' & -> & Hp).
    destruct ws as [|w ws]; [congruence|].
    assert (Hw : isspace w = true) by now inversion Hws.
    assert (M1 : match_lit_ci db (lit "PACKST")
                   ((p :: m1') ++ u :: m2 ++ r)
                 = Some (p :: m1', u :: m2 ++ r))
      by (apply match_lit_ci_iff; auto).
    assert (M2 : match_lit_ci db (lit "CKE") (m2 ++ r) = Some (m2, r))
      by (apply match_lit_ci_iff; auto).
    assert (Sp : span isspace ((w :: ws) ++ (p :: m1') ++ u :: m2 ++ r)
                 = (w :: ws, (p :: m1') ++ u :: m2 ++ r)).
    { apply span_stop; [assumption | exact Hp]. }
    destruct Hn as [|d ds Hd].
    + rewrite (proj2 (strip_prefix_app (lit "17") _ _) eq_refl).
      cbn [app]. assert (N.eqb w c_dot = false) as ->.
      { apply N.eqb_neq. intros ->. discriminate Hw. }
      change (w :: ws ++ p :: m1' ++ u :: m2 ++ r)
        with ((w :: ws) ++ (p :: m1') ++ u :: m2 ++ r).
      rewrite Sp. cbn [is_empty]. rewrite M1, U, M2. exact B.
    + rewrite <- app_assoc.
      rewrite (proj2 (strip_prefix_app (lit "17") _ _) eq_refl).
      cbn [app]. rewrite N.eqb_refl.
      change (d :: ds ++ w :: ws ++ p :: m1' ++ u :: m2 ++ r)
        with ((d :: ds) ++ (w :: ws) ++ (p :: m1') ++ u :: m2 ++ r).
      rewrite (span_stop (re_digit db) (d :: ds)); [|assumption|].
      * cbn [is_empty]. rewrite Sp. cbn [is_empty].
        rewrite M1, U, M2. exact B.
      * cbn. destruct (re_digit db w) eqn:D; [|reflexivity].
        apply digit_not_space in D. congruence.
Qed.

End Matchers.

(** ** Programs over the heap *)

Lemma bind_ok {A B} (c : prog A) (k : A -> prog B) s x s' :
  c s = Ok x s' -> bind c k s = k x s'.
Proof. unfold bind. now intros ->. Qed.

Lemma bind_unfinished {A B} (c : prog A) (k : A -> prog B) s :
  c s = Unfinished -> bind c k s = Unfinished.
Proof. unfold bind. now intros ->. Qed.

Lemma bind_new {B} o (k : addr -> prog B) s :
  bind (new o) k s = k (next_free s) (with_new s o).
Proof. reflexivity. Qed.

Lemma bind_ret {A B} (x : A) (k : A -> prog B) s : bind (ret x) k s = k x s.
Proof. reflexivity. Qed.

Lemma load_strs_ok s a l :
  cell s a = Some (OStrs l) -> load_strs a s = Ok l s.
Proof. unfold load_strs, bind, load. now intros ->. Qed.

Lemma load_keys_ok s a l :
  cell s a = Some (OKeys l) -> load_keys a s = Ok l s.
Proof. unfold load_keys, bind, load. now intros ->. Qed.

Lemma load_ints_ok s a l :
  cell s a = Some (OInts l) -> load_ints a s = Ok l s.
Proof. unfold load_ints, bind, load. now intros ->. Qed.

Lemma load_refs_ok s a l :
  cell s a = Some (ORefs l) -> load_refs a s = Ok l s.
Proof. unfold load_refs, bind, load. now intros ->. Qed.

Lemma load_map_ok s a d :
  cell s a = Some (OMap d) -> load_map a s = Ok d s.
Proof. unfold load_map, bind, load. now intros ->. Qed.

Lemma load_rec_ok s a d :
  cell s a = Some (ORec d) -> load_rec a s = Ok d s.
Proof. unfold load_rec, bind, load. now intros ->. Qed.

Lemma assign_ok s a o o' :
  cell s a = Some o -> assign a o' s = Ok tt (with_cell s a o').
Proof. unfold assign. now intros ->. Qed.

Lemma append_str_ok s a l x :
  cell s a = Some (OStrs l) ->
  append_str a x s = Ok tt (with_cell s a (OStrs (l ++ [x]))).
Proof.
  intros H. unfold append_str. rewrite (bind_ok _ _ _ _ _ (load_strs_ok _ _ _ H)).
  now apply assign_ok with (o := OStrs l).
Qed.

Lemma append_key_ok s a l x :
  cell s a = Some (OKeys l) ->
  append_key a x s = Ok tt (with_cell s a (OKeys (l ++ [x]))).
Proof.
  intros H. unfold append_key. rewrite (bind_ok _ _ _ _ _ (load_keys_ok _ _ _ H)).
  now apply assign_ok with (o := OKeys l).
Qed.

Lemma append_ref_ok s a l x :
  cell s a = Some (ORefs l) ->
  append_ref a x s = Ok tt (with_cell s a (ORefs (l ++ [x]))).
Proof.
  intros H. unfold append_ref. rewrite (bind_ok _ _ _ _ _ (load_refs_ok _ _ _ H)).
  now apply assign_ok with (o := ORefs l).
Qed.

Lemma set_item_ok s a d k v :
  cell s a = Some (OMap d) ->
  set_item a k v s = Ok tt (with_cell s a (OMap (dict_set d k v))).
Proof.
  intros H. unfold set_item. rewrite (bind_ok _ _ _ _ _ (load_map_ok _ _ _ H)).
  now apply assign_ok with (o := OMap d).
Qed.

Lemma set_ref_ok s a d k v :
  cell s a = Some (ORec d) ->
  set_ref a k v s = Ok tt (with_cell s a (ORec (dict_set d k v))).
Proof.
  intros H. unfold set_ref. rewrite (bind_ok _ _ _ _ _ (load_rec_ok _ _ _ H)).
  now apply assign_ok with (o := ORec d).
Qed.

Lemma cell_with_cell_same s a o : cell (with_cell s a o) a = Some o.
Proof. cbn. now rewrite Nat.eqb_refl. Qed.

Lemma cell_with_cell_other s a o a' :
  a' <> a -> cell (with_cell s a o) a' = cell s a'.
Proof. intros H. cbn. apply Nat.eqb_neq in H. now rewrite H. Qed.

Lemma cell_with_new_same s o : cell (with_new s o) (next_free s) = Some o.
Proof. cbn. now rewrite Nat.eqb_refl. Qed.

Lemma cell_with_new_other s o a :
  a <> next_free s -> cell (with_new s o) a = cell s a.
Proof. intros H. cbn. apply Nat.eqb_neq in H. now rewrite H. Qed.

(** Reading the cells of a heap built from another: equal addresses
    are decided, the others are told apart by what is known of them. *)
Ltac cells :=
  cbn [cell next_free with_new with_cell fst snd];
  rewrite ?Nat.eqb_refl;
  repeat match goal with
         | |- context [Nat.eqb ?a ?b] =>
             destruct (Nat.eqb_spec a b); [exfalso; lia|]
         end.

(** The cursor: [i] stands before the lines [skipn i ls]. *)
Lemma cursor_some {A} (ls : list A) i l rem :
  skipn i ls = l :: rem ->
  nth_error ls i = Some l /\ skipn (S i) ls = rem /\ i < length ls.
Proof.
  revert i. induction ls as [|x ls IH]; intros [|i]; cbn; try discriminate.
  - intros H. injection H as -> ->. repeat split. lia.
  - intros H. destruct (IH i H) as (E1 & E2 & E3). repeat split; auto. lia.
Qed.

Lemma cursor_none {A} (ls : list A) i :
  skipn i ls = [] -> nth_error ls i = None /\ length ls <= i.
Proof.
  intros H. apply (f_equal (@length _)) in H. rewrite length_skipn in H.
  cbn in H. split; [apply nth_error_None|]; lia.
Qed.

Lemma cursor_length {A} (ls : list A) i : length (skipn i ls) <= length ls.
Proof. rewrite length_skipn. lia. Qed.

Lemma cursor_move {A} (ls : list A) i n :
  skipn (i + n) ls = skipn n (skipn i ls).
Proof. rewrite skipn_skipn. f_equal. lia. Qed.

Section HeapLoops.

Variable db : UnicodeDB.

Lemma line_at_ok s lines ls i :
  cell s lines = Some (OStrs ls) ->
  line_at lines i s = Ok (nth_error ls i) s.
Proof.
  intros H. unfold line_at.
  now rewrite (bind_ok _ _ _ _ _ (load_strs_ok _ _ _ H)).
Qed.

Lemma collect_keys_read rem : forall kg rest,
  collect_keys db rem = (kg, rest) ->
  skipn (length kg) rem = rest /\ length kg <= length rem.
Proof.
  induction rem as [|l rem IH]; intros kg rest; cbn [collect_keys].
  - intros H. injection H as <- <-. split; [reflexivity | cbn; lia].
  - destruct (KEY_RE_match db l) as [[code g2]|].
    + destruct (collect_keys db rem) as [kg' rest'].
      intros H. injection H as <- <-.
      destruct (IH _ _ eq_refl) as [E Hl]. split; [exact E | cbn; lia].
    + intros H. injection H as <- <-. split; [reflexivity | cbn; lia].
Qed.

Lemma collect_values_read rem vals rest :
  collect_values db rem = (vals, rest) ->
  skipn (length vals) rem = rest /\ length vals <= length rem.
Proof.
  intros H. apply span_eq in H as (-> & _ & _).
  rewrite skipn_app, skipn_all, Nat.sub_diag, length_app. cbn.
  split; [reflexivity | lia].
Qed.

(** The loop that collects the keys appends the key group of the pure
    loop to the list [key_group] is bound to, and changes no other
    object. *)
Lemma key_loop ls lines key_group : forall rem i kg0 s fuel kg rest,
  cell s lines = Some (OStrs ls) ->
  cell s key_group = Some (OKeys kg0) ->
  lines <> key_group ->
  skipn i ls = rem ->
  collect_keys db rem = (kg, rest) ->
  length rem <= fuel ->
  exists s',
    while_do fuel (key_cond db lines) (key_body db lines key_group) i s
    = Ok (i + length kg) s'
    /\ next_free s' = next_free s
    /\ cell s' key_group = Some (OKeys (kg0 ++ kg))
    /\ forall a, a <> key_group -> cell s' a = cell s a.
Proof.
  induction rem as [|l rem IH]; intros i kg0 s fuel kg rest Hl Hk Hd Hc CK Hf.
  - cbn in CK. injection CK as <- <-.
    apply cursor_none in Hc as [Hn _].
    exists s. rewrite app_nil_r, Nat.add_0_r. repeat split; auto.
    destruct fuel; cbn [while_do]; unfold key_cond;
      rewrite (bind_ok _ _ _ _ _ (line_at_ok _ _ _ i Hl)), Hn; reflexivity.
  - apply cursor_some in Hc as (Hn & Hc & _).
    cbn [collect_keys] in CK.
    assert (Cond : key_cond db lines i s = Ok (is_key_line db l) s).
    { unfold key_cond.
      now rewrite (bind_ok _ _ _ _ _ (line_at_ok _ _ _ i Hl)), Hn. }
    unfold is_key_line in Cond.
    destruct (KEY_RE_match db l) as [[code g2]|] eqn:K.
    + destruct (collect_keys db rem) as [kg' rest'] eqn:CK'.
      injection CK as <- <-.
      destruct fuel as [|fuel]; [cbn in Hf; lia|].
      assert (Body : key_body db lines key_group i s
                     = Ok (S i) (with_cell s key_group
                                   (OKeys (kg0 ++ [(code, key_label code g2)])))).
      { unfold key_body.
        rewrite (bind_ok _ _ _ _ _ (line_at_ok _ _ _ i Hl)), Hn, K.
        now rewrite (bind_ok _ _ _ _ _ (append_key_ok _ _ _ _ Hk)). }
      destruct (IH (S i) (kg0 ++ [(code, key_label code g2)])
                  (with_cell s key_group
                     (OKeys (kg0 ++ [(code, key_label code g2)])))
                  fuel kg' rest')
        as (s' & W & Nx & Ck & Co).
      * now rewrite cell_with_cell_other.
      * apply cell_with_cell_same.
      * assumption.
      * assumption.
      * reflexivity.
      * cbn in Hf. lia.
      * exists s'. cbn [while_do]. rewrite Cond, Body, W.
        cbn [length]. rewrite Nat.add_succ_r. repeat split; auto.
        -- now rewrite Ck, <- app_assoc.
        -- intros a Ha. rewrite (Co a Ha). now apply cell_with_cell_other.
    + injection CK as <- <-. exists s.
      rewrite app_nil_r, Nat.add_0_r. repeat split; auto.
      destruct fuel; cbn [while_do]; rewrite Cond; reflexivity.
Qed.

(** The loops that collect values append the value lines to the list
    [target] is bound to, and change no other object. *)
Lemma value_loop ls lines target : forall rem i v0 s fuel vals rest,
  cell s lines = Some (OStrs ls) ->
  cell s target = Some (OStrs v0) ->
  lines <> target ->
  skipn i ls = rem ->
  collect_values db rem = (vals, rest) ->
  length rem <= fuel ->
  exists s',
    while_do fuel (value_cond db lines) (value_body lines target) i s
    = Ok (i + length vals) s'
    /\ next_free s' = next_free s
    /\ cell s' target = Some (OStrs (v0 ++ vals))
    /\ forall a, a <> target -> cell s' a = cell s a.
Proof.
  unfold collect_values.
  induction rem as [|l rem IH]; intros i v0 s fuel vals rest Hl Hk Hd Hc CV Hf.
  - cbn in CV. injection CV as <- <-.
    apply cursor_none in Hc as [Hn _].
    exists s. rewrite app_nil_r, Nat.add_0_r. repeat split; auto.
    destruct fuel; cbn [while_do]; unfold value_cond;
      rewrite (bind_ok _ _ _ _ _ (line_at_ok _ _ _ i Hl)), Hn; reflexivity.
  - apply cursor_some in Hc as (Hn & Hc & _).
    cbn [span] in CV.
    assert (Cond : value_cond db lines i s = Ok (is_value_line db l) s).
    { unfold value_cond.
      now rewrite (bind_ok _ _ _ _ _ (line_at_ok _ _ _ i Hl)), Hn. }
    destruct (is_value_line db l) eqn:V.
    + destruct (span (is_value_line db) rem) as [vals' rest'] eqn:CV'.
      injection CV as <- <-.
      destruct fuel as [|fuel]; [cbn in Hf; lia|].
      assert (Body : value_body lines target i s
                     = Ok (S i) (with_cell s target (OStrs (v0 ++ [l])))).
      { unfold value_body.
        rewrite (bind_ok _ _ _ _ _ (line_at_ok _ _ _ i Hl)), Hn.
        now rewrite (bind_ok _ _ _ _ _ (append_str_ok _ _ _ _ Hk)). }
      destruct (IH (S i) (v0 ++ [l])
                  (with_cell s target (OStrs (v0 ++ [l])))
                  fuel vals' rest')
        as (s' & W & Nx & Ck & Co).
      * now rewrite cell_with_cell_other.
      * apply cell_with_cell_same.
      * assumption.
      * assumption.
      * reflexivity.
      * cbn in Hf. lia.
      * exists s'. cbn [while_do]. rewrite Cond, Body, W.
        cbn [length]. rewrite Nat.add_succ_r. repeat split; auto.
        -- now rewrite Ck, <- app_assoc.
        -- intros a Ha. rewrite (Co a Ha). now apply cell_with_cell_other.
    + injection CV as <- <-. exists s.
      rewrite app_nil_r, Nat.add_0_r. repeat split; auto.
      destruct fuel; cbn [while_do]; rewrite Cond; reflexivity.
Qed.

(** The assignment loop leaves in the two dictionaries what
    [assign_keys] computes, and changes no other object. *)
Lemma assign_loop key_group values_available mapping pack_mapping kg va :
  forall todo idx m p s fuel,
  cell s key_group = Some (OKeys kg) ->
  cell s values_available = Some (OStrs va) ->
  cell s mapping = Some (OMap m) ->
  cell s pack_mapping = Some (OMap p) ->
  mapping <> pack_mapping ->
  key_group <> mapping -> key_group <> pack_mapping ->
  values_available <> mapping -> values_available <> pack_mapping ->
  skipn idx kg = todo ->
  length todo <= fuel ->
  exists s',
    while_do fuel (assign_cond key_group)
             (assign_body db key_group values_available mapping pack_mapping)
             idx s
    = Ok (idx + length todo) s'
    /\ next_free s' = next_free s
    /\ cell s' mapping
       = Some (OMap (fst (assign_keys db todo idx va (m, p))))
    /\ cell s' pack_mapping
       = Some (OMap (snd (assign_keys db todo idx va (m, p))))
    /\ forall a, a <> mapping -> a <> pack_mapping -> cell s' a = cell s a.
Proof.
  induction todo as [|[code label] todo IH];
    intros idx m p s fuel Hk Hv Hm Hp D1 D2 D3 D4 D5 Hc Hf.
  - apply cursor_none in Hc as [_ Hn].
    exists s. rewrite Nat.add_0_r. cbn [assign_keys fst snd].
    repeat split; auto.
    assert (Cond : assign_cond key_group idx s = Ok false s).
    { unfold assign_cond.
      rewrite (bind_ok _ _ _ _ _ (load_keys_ok _ _ _ Hk)). unfold ret.
      f_equal. apply Nat.ltb_ge. exact Hn. }
    destruct fuel; cbn [while_do]; rewrite Cond; reflexivity.
  - apply cursor_some in Hc as (Hn & Hc & Hi).
    assert (Cond : assign_cond key_group idx s = Ok true s).
    { unfold assign_cond.
      rewrite (bind_ok _ _ _ _ _ (load_keys_ok _ _ _ Hk)). unfold ret.
      f_equal. apply Nat.ltb_lt. exact Hi. }
    destruct fuel as [|fuel]; [cbn in Hf; lia|].
    set (val := if idx <? length va then nth idx va [] else []).
    set (target := if is_pack_code db code then pack_mapping else mapping).
    set (d := if is_pack_code db code then p else m).
    assert (Ht : cell s target = Some (OMap d))
      by (unfold target, d; now destruct (is_pack_code db code)).
    assert (Body : assign_body db key_group values_available mapping
                     pack_mapping idx s
                   = Ok (S idx)
                        (with_cell s target (OMap (dict_set d label val)))).
    { unfold assign_body.
      rewrite (bind_ok _ _ _ _ _ (load_keys_ok _ _ _ Hk)), Hn.
      rewrite (bind_ok _ _ _ _ _ (load_strs_ok _ _ _ Hv)).
      fold val target.
      now rewrite (bind_ok _ _ _ _ _ (set_item_ok _ _ _ label val Ht)). }
    cbn [assign_keys]. fold val.
    destruct (IH (S idx)
                (if is_pack_code db code then m else dict_set m label val)
                (if is_pack_code db code then dict_set p label val else p)
                (with_cell s target (OMap (dict_set d label val))) fuel)
      as (s' & W & Nx & Cm & Cp & Co).
    + rewrite cell_with_cell_other; [assumption|].
      unfold target. destruct (is_pack_code db code); assumption.
    + rewrite cell_with_cell_other; [assumption|].
      unfold target. destruct (is_pack_code db code); assumption.
    + unfold target, d. destruct (is_pack_code db code).
      * rewrite cell_with_cell_other; [assumption | assumption].
      * apply cell_with_cell_same.
    + unfold target, d. destruct (is_pack_code db code).
      * apply cell_with_cell_same.
      * rewrite cell_with_cell_other; [assumption | congruence].
    + assumption.
    + assumption.
    + assumption.
    + assumption.
    + assumption.
    + assumption.
    + cbn in Hf. lia.
    + exists s'. cbn [while_do]. rewrite Cond, Body, W.
      cbn [length]. rewrite Nat.add_succ_r.
      split; [reflexivity|]. split; [exact Nx|].
      destruct (is_pack_code db code); (split; [exact Cm|]);
        (split; [exact Cp|]); intros a H1 H2; rewrite (Co a H1 H2);
        apply cell_with_cell_other; unfold target; assumption.
Qed.

End HeapLoops.

Section HeapSegment.

Variable db : UnicodeDB.

Lemma outer_cond_ok bound ls lines mapping pack_mapping s x st :
  linked bound ls lines mapping pack_mapping s x st ->
  outer_cond lines x s = Ok (negb (is_empty (st_lines st))) s.
Proof.
  intros K. unfold outer_cond.
  rewrite (bind_ok _ _ _ _ _ (load_strs_ok _ _ _ (lk_lines _ _ _ _ _ _ _ _ K))).
  unfold ret. f_equal. pose proof (lk_cursor _ _ _ _ _ _ _ _ K) as Hc.
  destruct (st_lines st) as [|l rest]; cbn [is_empty negb].
  - apply cursor_none in Hc as [_ Hn]. now apply Nat.ltb_ge.
  - apply cursor_some in Hc as (_ & _ & Hi). now apply Nat.ltb_lt.
Qed.

(** One turn of the outer loop over the heap does to the four objects
    what [loop_body] does to the state; the objects it makes besides are
    new, and it changes nothing that is older than [bound]. *)
Lemma outer_body_step fuel bound ls lines mapping pack_mapping s x st :
  linked bound ls lines mapping pack_mapping s x st ->
  st_lines st <> [] ->
  length ls <= fuel ->
  exists x' s',
    outer_body db fuel lines mapping pack_mapping x s = Ok x' s'
    /\ linked bound ls lines mapping pack_mapping s' x' (loop_body db st)
    /\ kept_below bound s s'
    /\ next_free s <= next_free s'.
Proof.
  intros [Hl Hc Hm Hp Hpd (A1 & A2 & A3 & A4 & A5 & A6)
            (M1 & M2 & M3 & M4) (B1 & B2 & B3 & B4)] Hne Hf.
  destruct x as [i pending]. cbn [fst snd] in *.
  destruct (st_lines st) as [|l rest] eqn:L; [congruence|].
  destruct (cursor_some _ _ _ _ Hc) as (Hn & Hc' & Hi).
  assert (Hrem : length (l :: rest) <= fuel).
  { rewrite <- Hc. pose proof (cursor_length ls i). lia. }
  unfold outer_body. cbn [fst snd].
  rewrite (bind_ok _ _ _ _ _ (line_at_ok _ _ _ i Hl)), Hn.
  unfold loop_body. rewrite L.
  destruct (PACK_HEADER_RE_match db l) eqn:P.
  { exists (S i, pending), s. split; [reflexivity|].
    split; [|split; [intros a _; reflexivity | lia]].
    constructor; cbn [fst snd st_lines st_mapping st_pack st_pending];
      repeat split; auto. }
  rewrite bind_new.
  destruct (collect_keys db (l :: rest)) as [kg rest1] eqn:CK.
  destruct (key_loop db ls lines (next_free s) (l :: rest) i []
              (with_new s (OKeys [])) fuel kg rest1)
    as (s2 & W2 & N2 & C2 & O2);
    [ rewrite cell_with_new_other by lia; assumption
    | apply cell_with_new_same | lia | assumption | assumption | assumption
    | ].
  cbn [app next_free with_new] in C2, N2.
  rewrite (bind_ok _ _ _ _ _ W2).
  rewrite (bind_ok _ _ _ _ _ (load_keys_ok _ _ _ C2)).
  destruct (collect_keys_read db _ _ _ CK) as [Sk Lk].
  assert (Old : forall a, a < next_free s -> cell s2 a = cell s a).
  { intros a Ha. rewrite O2 by lia. apply cell_with_new_other. lia. }
  assert (Hc1 : skipn (i + length kg) ls = rest1)
    by (now rewrite cursor_move, Hc).
  assert (Hrem1 : length rest1 <= fuel).
  { rewrite <- Hc1. pose proof (cursor_length ls (i + length kg)). lia. }
  destruct (collect_values db rest1) as [vals rest2] eqn:CV.
  destruct (collect_values_read db _ _ _ CV) as [Sv Lv].
  assert (Hc2 : skipn (i + length kg + length vals) ls = rest2)
    by (now rewrite cursor_move, Hc1).
  destruct kg as [|k kg']; cbn [is_empty].
  - (* no key: the value lines join the pending values *)
    destruct (value_loop db ls lines pending rest1 (i + length (@nil (str * str)))
                (st_pending st) s2 fuel vals rest2)
      as (s3 & W3 & N3 & C3 & O3);
      [ rewrite Old by lia; assumption
      | rewrite Old by lia; assumption
      | congruence | assumption | assumption | assumption | ].
    rewrite (bind_ok _ _ _ _ _ W3).
    exists (i + length (@nil (str * str)) + length vals, pending), s3.
    split; [reflexivity|].
    split; [|split; [|lia]].
    + constructor; cbn [fst snd st_lines st_mapping st_pack st_pending].
      * rewrite O3 by congruence. rewrite Old by lia. assumption.
      * assumption.
      * rewrite O3 by congruence. rewrite Old by lia. assumption.
      * rewrite O3 by congruence. rewrite Old by lia. assumption.
      * assumption.
      * repeat split; auto.
      * lia.
      * repeat split; auto.
    + intros a Ha. rewrite O3 by lia. apply Old. lia.
  - (* a key group: its values, the assignment, the values left *)
    set (kg := k :: kg') in *.
    rewrite bind_new.
    destruct (value_loop db ls lines (next_free s2) rest1 (i + length kg)
                [] (with_new s2 (OStrs [])) fuel vals rest2)
      as (s3 & W3 & N3 & C3 & O3);
      [ rewrite cell_with_new_other by lia; rewrite Old by lia; assumption
      | apply cell_with_new_same | lia | assumption | assumption
      | assumption | ].
    cbn [app next_free with_new] in C3, N3.
    rewrite (bind_ok _ _ _ _ _ W3).
    assert (Old3 : forall a, a < next_free s2 -> cell s3 a = cell s2 a).
    { intros a Ha. rewrite O3 by lia. apply cell_with_new_other. lia. }
    assert (Hpd3 : cell s3 pending = Some (OStrs (st_pending st)))
      by (rewrite Old3 by lia; rewrite Old by lia; assumption).
    rewrite (bind_ok _ _ _ _ _ (load_strs_ok _ _ _ Hpd3)).
    rewrite (bind_ok _ _ _ _ _ (load_strs_ok _ _ _ C3)).
    rewrite bind_new.
    destruct (assign_loop db (next_free s) (next_free s3) mapping pack_mapping
                kg (st_pending st ++ vals) kg 0 (st_mapping st) (st_pack st)
                (with_new s3 (OStrs (st_pending st ++ vals))) fuel)
      as (s4 & W4 & N4 & Cm4 & Cp4 & O4);
      [ rewrite cell_with_new_other by lia; rewrite Old3 by lia; assumption
      | apply cell_with_new_same
      | rewrite cell_with_new_other by lia; rewrite Old3 by lia;
        rewrite Old by lia; assumption
      | rewrite cell_with_new_other by lia; rewrite Old3 by lia;
        rewrite Old by lia; assumption
      | lia | lia | lia | lia | lia | reflexivity | lia | ].
    cbn [next_free with_new] in N4.
    rewrite (bind_ok _ _ _ _ _ W4).
    assert (Cv4 : cell s4 (next_free s3)
                  = Some (OStrs (st_pending st ++ vals))).
    { rewrite O4 by lia. apply cell_with_new_same. }
    assert (Ck4 : cell s4 (next_free s) = Some (OKeys kg)).
    { rewrite O4 by lia. rewrite cell_with_new_other by lia.
      rewrite Old3 by lia. assumption. }
    rewrite (bind_ok _ _ _ _ _ (load_strs_ok _ _ _ Cv4)).
    rewrite (bind_ok _ _ _ _ _ (load_keys_ok _ _ _ Ck4)).
    rewrite bind_new. unfold ret.
    destruct (assign_keys db kg 0 (st_pending st ++ vals)
                (st_mapping st, st_pack st)) as [m' p'] eqn:AK.
    cbn [fst snd] in Cm4, Cp4.
    eexists. eexists. split; [reflexivity|].
    split; [|split; [|cbn [next_free with_new]; lia]].
    + constructor; cbn [fst snd st_lines st_mapping st_pack st_pending].
      * rewrite cell_with_new_other by lia. rewrite O4 by lia.
        rewrite cell_with_new_other by lia. rewrite Old3 by lia.
        rewrite Old by lia. assumption.
      * assumption.
      * rewrite cell_with_new_other by lia. assumption.
      * rewrite cell_with_new_other by lia. assumption.
      * apply cell_with_new_same.
      * repeat split; auto; lia.
      * cbn [next_free with_new]. lia.
      * repeat split; auto; lia.
    + intros a Ha. rewrite cell_with_new_other by lia. rewrite O4 by lia.
      rewrite cell_with_new_other by lia. rewrite Old3 by lia.
      apply Old. lia.
Qed.

(** The outer loop over the heap and the outer loop over states run
    turn by turn together. *)
Lemma outer_loop fuel bound ls lines mapping pack_mapping :
  length ls <= fuel ->
  forall f s x st,
    linked bound ls lines mapping pack_mapping s x st ->
    match while_loop db f st with
    | Some fin =>
        exists x' s',
          while_do f (outer_cond lines)
                   (outer_body db fuel lines mapping pack_mapping) x s
          = Ok x' s'
          /\ linked bound ls lines mapping pack_mapping s' x' fin
          /\ kept_below bound s s'
          /\ next_free s <= next_free s'
    | None =>
        while_do f (outer_cond lines)
                 (outer_body db fuel lines mapping pack_mapping) x s
        = Unfinished
    end.
Proof.
  intros Hf. induction f as [|f IH]; intros s x st K;
    pose proof (outer_cond_ok _ _ _ _ _ _ _ _ K) as Cond;
    cbn [while_loop while_do]; rewrite Cond;
    destruct (st_lines st) as [|l rest] eqn:L; cbn [is_empty negb].
  - exists x, s. split; [reflexivity|]. split; [exact K|].
    split; [intros a _; reflexivity | lia].
  - reflexivity.
  - exists x, s. split; [reflexivity|]. split; [exact K|].
    split; [intros a _; reflexivity | lia].
  - destruct (outer_body_step fuel _ _ _ _ _ _ _ _ K) as
        (x1 & s1 & B & K1 & F1 & N1); [congruence | assumption |].
    rewrite B. specialize (IH s1 x1 (loop_body db st) K1).
    destruct (while_loop db f (loop_body db st)) as [fin|].
    + destruct IH as (x' & s' & W & K' & F' & N').
      exists x', s'. split; [exact W|]. split; [exact K'|]. split; [|lia].
      intros a Ha. rewrite (F' a Ha). now apply F1.
    + exact IH.
Qed.

Lemma read_article_obj s a m p q mapping pack_mapping pending :
  cell s mapping = Some (OMap m) ->
  cell s pack_mapping = Some (OMap p) ->
  cell s pending = Some (OStrs q) ->
  cell s a = Some (ORec ([(MAIN_SECTION, mapping)]
                         ++ (if is_empty p then []
                             else [(PACK_SECTION, pack_mapping)])
                         ++ (if is_empty q then []
                             else [(UNMAPPED_SECTION, pending)]))) ->
  read_record s a
  = Some (article_obj {| st_lines := []; st_mapping := m; st_pack := p;
                         st_pending := q |}).
Proof.
  intros Hm Hp Hq Ha. unfold read_record, article_obj. rewrite Ha.
  cbn [st_mapping st_pack st_pending app read_entries].
  unfold read_value at 1. rewrite Hm.
  destruct (is_empty p), (is_empty q); cbn [app read_entries];
    unfold read_value; rewrite ?Hp, ?Hq; reflexivity.
Qed.

(** [parse_segment] over the heap, from any heap: with fuel for the
    lines of the segment it ends as [parse_segment] over strings does; the
    record it returns reads as the record of [parse_segment]; the
    dictionary and its sections are objects the call has made; and every
    object that was there before the call is as it was. *)
Lemma parse_segment_in_spec fuel segment s :
  length (segment_lines db segment) <= fuel ->
  match parse_segment db fuel segment with
  | Some r =>
      exists a s',
        parse_segment_in db fuel segment s = Ok a s'
        /\ read_record s' a = Some r
        /\ Forall (fun b => next_free s <= b < next_free s')
                  (record_objects s' a)
        /\ kept_below (next_free s) s s'
        /\ next_free s <= next_free s'
  | None => parse_segment_in db fuel segment s = Unfinished
  end.
Proof.
  intros Hf. unfold parse_segment, parse_segment_in.
  rewrite bind_new.
  rewrite (bind_ok _ _ _ _ _
             (load_strs_ok _ _ _ (cell_with_new_same s _))).
  (* the heap in which [lines] has its last binding *)
  assert (Lines : exists lines s1,
             match normalized_lines segment with
             | l0 :: rest =>
                 if startswith HEADER_LITERAL (str_upper db l0)
                 then new (OStrs rest) else ret (next_free s)
             | [] => ret (next_free s)
             end (with_new s (OStrs (normalized_lines segment)))
             = Ok lines s1
             /\ cell s1 lines = Some (OStrs (segment_lines db segment))
             /\ next_free s <= lines < next_free s1
             /\ kept_below (next_free s) s s1).
  { unfold segment_lines, drop_header.
    destruct (normalized_lines segment) as [|l0 rest].
    - eexists. eexists. split; [reflexivity|].
      split; [apply cell_with_new_same|]. split; [cbn; lia|].
      intros a Ha. apply cell_with_new_other. lia.
    - destruct (startswith HEADER_LITERAL (str_upper db l0)).
      + eexists. eexists. split; [reflexivity|].
        split; [apply cell_with_new_same|]. split; [cbn; lia|].
        intros a Ha. rewrite !cell_with_new_other; [reflexivity | lia |].
        cbn [next_free with_new]. lia.
      + eexists. eexists. split; [reflexivity|].
        split; [apply cell_with_new_same|]. split; [cbn; lia|].
        intros a Ha. apply cell_with_new_other. lia. }
  destruct Lines as (lines & s1 & E1 & Hl & Hb & F1).
  rewrite (bind_ok _ _ _ _ _ E1). rewrite !bind_new.
  remember (segment_lines db segment) as ls eqn:Els.
  set (s2 := with_new (with_new (with_new s1 (OMap [])) (OMap []))
                      (OStrs [])).
  assert (K : linked (next_free s) ls lines (next_free s1)
                (S (next_free s1)) s2 (0, S (S (next_free s1)))
                (initial_state ls)).
  { unfold s2.
    constructor; cbn [fst snd initial_state st_lines st_mapping st_pack
                      st_pending next_free with_new]; try lia.
    - rewrite !cell_with_new_other by (cbn [next_free with_new]; lia).
      assumption.
    - reflexivity.
    - cells. reflexivity.
    - cells. reflexivity.
    - cells. reflexivity. }
  pose proof (outer_loop fuel _ _ _ _ _ Hf fuel s2 _ _ K) as Run.
  cbn [next_free with_new] in Run |- *. fold s2.
  destruct (while_loop db fuel (initial_state ls)) as [fin|];
    [|now apply bind_unfinished].
  destruct Run as ([i pending] & s3 & W & K3 & F3 & N3).
  destruct K3 as [Hl3 Hc3 Hm3 Hp3 Hpd3 (A1 & A2 & A3 & A4 & A5 & A6)
                    (M1 & M2 & M3 & M4) (B1 & B2 & B3 & B4)].
  cbn [fst snd] in *.
  rewrite (bind_ok _ _ _ _ _ W). rewrite bind_new.
  assert (N2 : next_free s2 = S (S (S (next_free s1)))) by reflexivity.
  assert (F2 : kept_below (next_free s) s s2).
  { intros a Ha. unfold s2.
    rewrite !cell_with_new_other by (cbn [next_free with_new]; lia).
    now apply F1. }
  set (s4 := with_new s3 (ORec [(MAIN_SECTION, next_free s1)])).
  assert (Hp4 : cell s4 (S (next_free s1)) = Some (OMap (st_pack fin)))
    by (unfold s4; rewrite cell_with_new_other by lia; assumption).
  rewrite (bind_ok _ _ _ _ _ (load_map_ok _ _ _ Hp4)).
  destruct section_names_distinct as (D1 & D2 & D3 & D4).
  (* the heap after the two optional entries *)
  assert (Fin : exists s6,
             (_ <- (if is_empty (st_pack fin) then ret tt
                    else set_ref (next_free s3) PACK_SECTION
                                 (S (next_free s1))) ;;
              pv <- load_strs pending ;;
              _ <- (if is_empty pv then ret tt
                    else set_ref (next_free s3) UNMAPPED_SECTION pending) ;;
              ret (next_free s3))%prog s4
             = Ok (next_free s3) s6
             /\ next_free s6 = S (next_free s3)
             /\ (forall a, a <> next_free s3 -> cell s6 a = cell s3 a)
             /\ cell s6 (next_free s3)
                = Some (ORec ([(MAIN_SECTION, next_free s1)]
                              ++ (if is_empty (st_pack fin) then []
                                  else [(PACK_SECTION, S (next_free s1))])
                              ++ (if is_empty (st_pending fin) then []
                                  else [(UNMAPPED_SECTION, pending)])))).
  { assert (Hr4 : cell s4 (next_free s3)
                  = Some (ORec [(MAIN_SECTION, next_free s1)]))
      by apply cell_with_new_same.
    assert (O4 : forall a, a <> next_free s3 -> cell s4 a = cell s3 a)
      by (intros a Ha; now apply cell_with_new_other).
    destruct (is_empty (st_pack fin)) eqn:Ep.
    - rewrite bind_ret.
      assert (Hq : cell s4 pending = Some (OStrs (st_pending fin)))
        by (rewrite O4 by lia; assumption).
      rewrite (bind_ok _ _ _ _ _ (load_strs_ok _ _ _ Hq)).
      destruct (is_empty (st_pending fin)) eqn:Eq.
      + rewrite bind_ret. exists s4. repeat split; auto.
      + rewrite (bind_ok _ _ _ _ _ (set_ref_ok _ _ _ _ _ Hr4)).
        eexists. split; [reflexivity|]. repeat split.
        * intros a Ha. rewrite cell_with_cell_other by assumption.
          now apply O4.
        * rewrite cell_with_cell_same. cbn [dict_set app].
          now rewrite D2.
    - rewrite (bind_ok _ _ _ _ _ (set_ref_ok _ _ _ _ _ Hr4)).
      cbn [dict_set]. rewrite D1.
      set (s5 := with_cell s4 _ _).
      assert (Hq : cell s5 pending = Some (OStrs (st_pending fin))).
      { unfold s5. rewrite cell_with_cell_other by lia.
        rewrite O4 by lia. assumption. }
      rewrite (bind_ok _ _ _ _ _ (load_strs_ok _ _ _ Hq)).
      assert (Hr5 : cell s5 (next_free s3)
                    = Some (ORec [(MAIN_SECTION, next_free s1);
                                  (PACK_SECTION, S (next_free s1))]))
        by apply cell_with_cell_same.
      assert (O5 : forall a, a <> next_free s3 -> cell s5 a = cell s3 a).
      { intros a Ha. unfold s5. rewrite cell_with_cell_other by assumption.
        now apply O4. }
      destruct (is_empty (st_pending fin)) eqn:Eq.
      + rewrite bind_ret. exists s5. repeat split; auto.
      + rewrite (bind_ok _ _ _ _ _ (set_ref_ok _ _ _ _ _ Hr5)).
        eexists. split; [reflexivity|]. repeat split.
        * intros a Ha. rewrite cell_with_cell_other by assumption.
          now apply O5.
        * rewrite cell_with_cell_same. cbn [dict_set app].
          now rewrite D2, D3. }
  destruct Fin as (s6 & E6 & N6 & O6 & R6).
  exists (next_free s3), s6. split; [exact E6|].
  assert (Efin : article_obj fin
                 = article_obj {| st_lines := []; st_mapping := st_mapping fin;
                                  st_pack := st_pack fin;
                                  st_pending := st_pending fin |})
    by reflexivity.
  split; [|split; [|split]].
  - rewrite Efin.
    apply (read_article_obj s6 _ _ _ _ (next_free s1) (S (next_free s1))
             pending); try assumption;
      rewrite O6 by lia; assumption.
  - unfold record_objects. rewrite R6.
    destruct (is_empty (st_pack fin)), (is_empty (st_pending fin));
      cbn [app map snd]; repeat constructor; lia.
  - intros a Ha. rewrite O6 by lia. rewrite (F3 a Ha). now apply F2.
  - lia.
Qed.

End HeapSegment.

(** ** [split_into_segments] and [parse_articles] over the heap *)

Section HeapArticles.

Variable db : UnicodeDB.

(** The loop over the starts appends the segments of the pure loop to the
    list [segments] is bound to, and changes no other object. *)
Lemma segments_loop_in raw starts segments ss : forall todo idx acc s fuel,
  cell s starts = Some (OInts ss) ->
  cell s segments = Some (OStrs acc) ->
  starts <> segments ->
  skipn idx ss = todo ->
  length todo <= fuel ->
  exists s',
    while_do fuel (segments_cond starts) (segments_body raw starts segments)
             idx s
    = Ok (idx + length todo) s'
    /\ next_free s' = next_free s
    /\ cell s' segments = Some (OStrs (acc ++ segments_loop raw ss idx todo))
    /\ forall a, a <> segments -> cell s' a = cell s a.
Proof.
  induction todo as [|start todo IH]; intros idx acc s fuel Hs Hg Hd Hc Hf.
  - apply cursor_none in Hc as [_ Hn].
    exists s. rewrite Nat.add_0_r. cbn [segments_loop]. rewrite app_nil_r.
    repeat split; auto.
    assert (Cond : segments_cond starts idx s = Ok false s).
    { unfold segments_cond.
      rewrite (bind_ok _ _ _ _ _ (load_ints_ok _ _ _ Hs)). unfold ret.
      f_equal. now apply Nat.ltb_ge. }
    destruct fuel; cbn [while_do]; rewrite Cond; reflexivity.
  - apply cursor_some in Hc as (Hn & Hc & Hi).
    assert (Cond : segments_cond starts idx s = Ok true s).
    { unfold segments_cond.
      rewrite (bind_ok _ _ _ _ _ (load_ints_ok _ _ _ Hs)). unfold ret.
      f_equal. now apply Nat.ltb_lt. }
    destruct fuel as [|fuel]; [cbn in Hf; lia|].
    set (stop := if S idx <? length ss then nth (S idx) ss 0
                 else length raw).
    assert (Body : segments_body raw starts segments idx s
                   = Ok (S idx)
                        (with_cell s segments
                           (OStrs (acc ++ [slice raw start stop])))).
    { unfold segments_body.
      rewrite (bind_ok _ _ _ _ _ (load_ints_ok _ _ _ Hs)), Hn.
      fold stop.
      now rewrite (bind_ok _ _ _ _ _ (append_str_ok _ _ _ _ Hg)). }
    destruct (IH (S idx) (acc ++ [slice raw start stop])
                (with_cell s segments (OStrs (acc ++ [slice raw start stop])))
                fuel)
      as (s' & W & Nx & Cg & Co).
    + now rewrite cell_with_cell_other.
    + apply cell_with_cell_same.
    + assumption.
    + assumption.
    + cbn in Hf. lia.
    + exists s'. cbn [while_do]. rewrite Cond, Body, W.
      cbn [length segments_loop]. fold stop. rewrite Nat.add_succ_r.
      repeat split; auto.
      * now rewrite Cg, <- app_assoc.
      * intros a Ha. rewrite (Co a Ha). now apply cell_with_cell_other.
Qed.

(** [split_into_segments] over the heap, from any heap: it returns a
    new list that holds the segments of [split_into_segments] over
    strings, and leaves every object that was there as it was. *)
Lemma split_into_segments_in_spec fuel raw s :
  length (header_starts db raw) <= fuel ->
  exists a s',
    split_into_segments_in db fuel raw s = Ok a s'
    /\ cell s' a = Some (OStrs (split_into_segments db raw))
    /\ next_free s <= a < next_free s'
    /\ kept_below (next_free s) s s'.
Proof.
  intros Hf. unfold split_into_segments_in, split_into_segments.
  rewrite bind_new.
  rewrite (bind_ok _ _ _ _ _ (load_ints_ok _ _ _ (cell_with_new_same s _))).
  destruct (header_starts db raw) as [|p starts] eqn:E; cbn [is_empty].
  - eexists. eexists. split; [reflexivity|].
    split; [apply cell_with_new_same|]. split; [cbn; lia|].
    intros a Ha. rewrite !cell_with_new_other; [reflexivity | lia |].
    cbn [next_free with_new]. lia.
  - rewrite bind_new.
    destruct (segments_loop_in raw (next_free s) (S (next_free s))
                (p :: starts) (p :: starts) 0 []
                (with_new (with_new s (OInts (p :: starts))) (OStrs []))
                fuel)
      as (s' & W & Nx & Cg & Co).
    + rewrite cell_with_new_other by (cbn [next_free with_new]; lia).
      apply cell_with_new_same.
    + apply (cell_with_new_same (with_new s (OInts (p :: starts)))).
    + lia.
    + reflexivity.
    + exact Hf.
    + cbn [next_free with_new] in W, Nx |- *.
      rewrite (bind_ok _ _ _ _ _ W). unfold ret.
      eexists. eexists. split; [reflexivity|].
      split; [exact Cg|]. split; [lia|].
      intros a Ha. rewrite Co by lia.
      rewrite !cell_with_new_other; [reflexivity | lia |].
      cbn [next_free with_new]. lia.
Qed.

Lemma read_entries_same s s' entries :
  (forall b, In b (map snd entries) -> cell s' b = cell s b) ->
  read_entries s' entries = read_entries s entries.
Proof.
  induction entries as [|[name b] entries IH]; intros H; [reflexivity|].
  cbn [read_entries]. unfold read_value.
  rewrite (H b) by (now left).
  rewrite IH by (intros b' Hb; apply H; now right). reflexivity.
Qed.

(** A record stays what it is as long as its objects do. *)
Lemma holds_record_kept lo hi lo' hi' s s' a r :
  holds_record lo hi s a r ->
  (forall b, lo <= b < hi -> cell s' b = cell s b) ->
  lo' <= lo -> hi <= hi' ->
  holds_record lo' hi' s' a r.
Proof.
  intros [Hr Ho] Hk Hlo Hhi. unfold holds_record, read_record, record_objects in *.
  assert (Ha : cell s' a = cell s a).
  { apply Hk. destruct (cell s a) as [[]|]; inversion Ho; assumption. }
  rewrite Ha.
  destruct (cell s a) as [[| | | | |entries]|]; try discriminate.
  inversion Ho as [|? ? _ Ho']; subst.
  split.
  - rewrite <- Hr. apply read_entries_same. intros b Hb. apply Hk.
    rewrite Forall_forall in Ho'. now apply Ho'.
  - eapply Forall_impl; [|exact Ho]. cbn. intros b Hb. lia.
Qed.

Lemma read_all_holds lo hi s refs rs :
  Forall2 (holds_record lo hi s) refs rs -> read_all s refs = Some rs.
Proof.
  induction 1 as [|a r refs rs [Hr _] _ IH]; [reflexivity|].
  cbn [read_all]. now rewrite Hr, IH.
Qed.

(** The loop of the comprehension: every segment is parsed by a call of
    [parse_segment] over the heap, in the heap the calls before it have
    left, and the records are as [parse_all] gives them. *)
Lemma articles_loop fuel segs segments out :
  Forall (fun seg => length (segment_lines db seg) <= fuel) segs ->
  segments < out ->
  forall todo idx refs done s f,
    cell s segments = Some (OStrs segs) ->
    cell s out = Some (ORefs refs) ->
    out < next_free s ->
    skipn idx segs = todo ->
    length todo <= f ->
    Forall2 (holds_record (S out) (next_free s) s) refs done ->
    match parse_all db fuel todo with
    | Some rs =>
        exists s' refs',
          while_do f (articles_cond segments)
                   (articles_body db fuel segments out) idx s
          = Ok (idx + length todo) s'
          /\ cell s' out = Some (ORefs refs')
          /\ Forall2 (holds_record (S out) (next_free s') s') refs'
                     (done ++ rs)
          /\ (forall a, a < next_free s -> a <> out -> cell s' a = cell s a)
          /\ next_free s <= next_free s'
    | None =>
        while_do f (articles_cond segments)
                 (articles_body db fuel segments out) idx s
        = Unfinished
    end.
Proof.
  intros Hfuel Hlt.
  induction todo as [|seg todo IH]; intros idx refs done s f Hs Ho Hm Hc Hf H.
  - cbn [parse_all]. apply cursor_none in Hc as [_ Hn].
    exists s, refs. rewrite Nat.add_0_r, app_nil_r.
    split; [|repeat split; auto].
    assert (Cond : articles_cond segments idx s = Ok false s).
    { unfold articles_cond.
      rewrite (bind_ok _ _ _ _ _ (load_strs_ok _ _ _ Hs)). unfold ret.
      f_equal. now apply Nat.ltb_ge. }
    destruct f; cbn [while_do]; rewrite Cond; reflexivity.
  - apply cursor_some in Hc as (Hn & Hc & Hi).
    assert (Cond : articles_cond segments idx s = Ok true s).
    { unfold articles_cond.
      rewrite (bind_ok _ _ _ _ _ (load_strs_ok _ _ _ Hs)). unfold ret.
      f_equal. now apply Nat.ltb_lt. }
    destruct f as [|f]; [cbn in Hf; lia|].
    assert (Hseg : length (segment_lines db seg) <= fuel).
    { rewrite Forall_forall in Hfuel. apply Hfuel.
      eapply nth_error_In; eassumption. }
    pose proof (parse_segment_in_spec db fuel seg s Hseg) as P.
    cbn [parse_all while_do]. rewrite Cond.
    destruct (parse_segment db fuel seg) as [r|].
    + destruct P as (a & s1 & E & Hr & Hobj & F1 & N1).
      assert (Ho1 : cell s1 out = Some (ORefs refs))
        by (rewrite F1 by lia; assumption).
      assert (Body : articles_body db fuel segments out idx s
                     = Ok (S idx) (with_cell s1 out (ORefs (refs ++ [a])))).
      { unfold articles_body.
        rewrite (bind_ok _ _ _ _ _ (load_strs_ok _ _ _ Hs)), Hn.
        rewrite (bind_ok _ _ _ _ _ E).
        now rewrite (bind_ok _ _ _ _ _ (append_ref_ok _ _ _ a Ho1)). }
      rewrite Body.
      specialize (IH (S idx) (refs ++ [a]) (done ++ [r])
                    (with_cell s1 out (ORefs (refs ++ [a]))) f).
      cbn [next_free with_cell] in IH.
      assert (Keep : forall b, S out <= b < next_free s1 ->
                     cell (with_cell s1 out (ORefs (refs ++ [a]))) b
                     = cell s1 b)
        by (intros b Hb; apply cell_with_cell_other; lia).
      assert (H1 : Forall2 (holds_record (S out) (next_free s1)
                              (with_cell s1 out (ORefs (refs ++ [a]))))
                           (refs ++ [a]) (done ++ [r])).
      { apply Forall2_app.
        - eapply Forall2_impl; [|exact H]. intros a0 r0 H0.
          apply (holds_record_kept (S out) (next_free s) _ _ s _ a0 r0 H0);
            [|lia | lia].
          intros b Hb. rewrite cell_with_cell_other by lia.
          apply F1. lia.
        - constructor; [|constructor].
          apply (holds_record_kept (next_free s) (next_free s1) _ _ s1);
            [split; assumption | | lia | lia].
          intros b Hb. apply cell_with_cell_other. lia. }
      specialize (IH ltac:(rewrite cell_with_cell_other by lia;
                           rewrite F1 by lia; assumption)
                     (cell_with_cell_same _ _ _) ltac:(lia) Hc
                     ltac:(cbn in Hf; lia) H1).
      destruct (parse_all db fuel todo) as [rs|].
      * destruct IH as (s' & refs' & W & Ho' & H' & F' & N').
        exists s', refs'. rewrite W. cbn [length].
        rewrite Nat.add_succ_r. split; [reflexivity|].
        split; [exact Ho'|]. split; [|split; [|lia]].
        -- now rewrite <- app_assoc in H'.
        -- intros b Hb Hbo. rewrite F' by lia.
           rewrite cell_with_cell_other by assumption. now apply F1.
      * exact IH.
    + unfold articles_body.
      rewrite (bind_ok _ _ _ _ _ (load_strs_ok _ _ _ Hs)), Hn.
      now rewrite (bind_unfinished _ _ _ P).
Qed.

(** [parse_articles] over the heap, from any heap: with fuel for its
    loops it ends as [parse_articles] over strings does; the list it
    returns is new and leads to the records of [parse_articles]; whether
    it returns or raises, every object that was there before the call is
    as it was. *)
Lemma parse_articles_in_spec fuel raw s :
  length (header_starts db raw) <= fuel ->
  Forall (fun seg => length (segment_lines db seg) <= fuel)
         (split_into_segments db raw) ->
  match parse_articles db fuel raw with
  | Returned rs =>
      exists a s',
        parse_articles_in db fuel raw s = Ok a s'
        /\ read_records s' a = Some rs
        /\ next_free s <= a < next_free s'
        /\ kept_below (next_free s) s s'
  | Raised e =>
      exists s',
        parse_articles_in db fuel raw s = Exn e s'
        /\ kept_below (next_free s) s s'
  | OutOfFuel => parse_articles_in db fuel raw s = Unfinished
  end.
Proof.
  intros Hf Hsegs. unfold parse_articles, parse_articles_in.
  destruct (split_into_segments_in_spec fuel raw s Hf)
    as (segments & s1 & E & Hg & Hb & F1).
  rewrite (bind_ok _ _ _ _ _ E).
  rewrite (bind_ok _ _ _ _ _ (load_strs_ok _ _ _ Hg)).
  assert (Hlen : length (split_into_segments db raw) <= fuel).
  { rewrite split_into_segments_between, segments_between_length.
    exact Hf. }
  destruct (is_empty (split_into_segments db raw)) eqn:Em.
  - exists s1. split; [reflexivity | exact F1].
  - rewrite bind_new.
    pose proof (articles_loop fuel (split_into_segments db raw) segments
                  (next_free s1) Hsegs ltac:(lia)
                  (split_into_segments db raw) 0 [] []
                  (with_new s1 (ORefs [])) fuel) as L.
    cbn [next_free with_new] in L.
    specialize (L ltac:(rewrite cell_with_new_other by lia; assumption)
                  (cell_with_new_same _ _) ltac:(lia) eq_refl Hlen
                  (Forall2_nil _)).
    destruct (parse_all db fuel (split_into_segments db raw)) as [rs|].
    + destruct L as (s' & refs' & W & Ho & H & F' & N').
      rewrite (bind_ok _ _ _ _ _ W). unfold ret.
      exists (next_free s1), s'. split; [reflexivity|].
      split; [|split; [cbn [next_free with_new] in N'; lia|]].
      * unfold read_records. rewrite Ho. cbn [app] in H.
        eapply read_all_holds; eassumption.
      * intros a Ha. rewrite F' by (cbn [next_free with_new]; lia).
        rewrite cell_with_new_other by lia. now apply F1.
    + now apply bind_unfinished.
Qed.

End HeapArticles.

(** ** From a reconciliation step to the next key group *)

Section NextGroup.

Variable db : UnicodeDB.

Lemma all_keys_nil lines :
  all_keys db lines = [] ->
  Forall (fun l => is_key_line db l = false) lines.
Proof.
  induction lines as [|l lines IH]; [constructor|].
  rewrite all_keys_cons. destruct (key_of_line db l) as [k|] eqn:K;
    [discriminate|].
  intros H. constructor; [now apply key_of_line_not_key | now apply IH].
Qed.

Lemma collect_keys_not_key l rest :
  is_key_line db l = false -> collect_keys db (l :: rest) = ([], l :: rest).
Proof.
  unfold is_key_line. cbn [collect_keys].
  destruct (KEY_RE_match db l) as [[c g]|]; [discriminate | reflexivity].
Qed.

Lemma collect_keys_key l rest key_group rest1 :
  is_key_line db l = true ->
  collect_keys db (l :: rest) = (key_group, rest1) -> key_group <> [].
Proof.
  unfold is_key_line. cbn [collect_keys].
  destruct (KEY_RE_match db l) as [[c g]|]; [|discriminate].
  destruct (collect_keys db rest). intros _ H. injection H as <- _.
  discriminate.
Qed.

Lemma no_header_no_stall lines :
  Forall (fun l => SEGMENT_HEADER_RE_match db l = false) lines ->
  Forall (fun l => is_stall_line db l = false) lines.
Proof.
  apply Forall_impl. intros l H. unfold is_stall_line. rewrite H.
  apply andb_false_r.
Qed.

(** The turns that lead from a state to the next key line, when the lines
    before it hold no section header: sub-section headers are skipped and
    value lines join the pending values, the mappings stay as they are.
    These turns are taken whatever comes after the key line. *)
Lemma run_to_next_key len : forall between k after m p pending,
  length between <= len ->
  Forall (fun l => is_key_line db l = false) between ->
  Forall (fun l => SEGMENT_HEADER_RE_match db l = false) between ->
  is_key_line db k = true ->
  exists n,
    n <= length between
    /\ forall fuel,
         while_loop db (n + fuel)
           {| st_lines := between ++ k :: after; st_mapping := m;
              st_pack := p; st_pending := pending |}
         = while_loop db fuel
             {| st_lines := k :: after; st_mapping := m; st_pack := p;
                st_pending := pending ++ value_lines db between |}.
Proof.
  induction len as [|len IH]; intros between k after m p pending Hlen Hk Hs Kk.
  - destruct between; [|cbn in Hlen; lia]. exists 0. split; [lia|].
    intros fuel. cbn [Nat.add app value_lines filter]. now rewrite app_nil_r.
  - destruct between as [|l b].
    { exists 0. split; [lia|]. intros fuel.
      cbn [Nat.add app value_lines filter]. now rewrite app_nil_r. }
    inversion Hk as [|? ? Hk1 Hkb]; subst.
    inversion Hs as [|? ? Hs1 Hsb]; subst.
    destruct (PACK_HEADER_RE_match db l) eqn:P.
    + destruct (IH b k after m p pending) as (n & Hn & R);
        [cbn in Hlen; lia | assumption | assumption | assumption |].
      exists (S n). split; [cbn; lia|]. intros fuel.
      cbn [Nat.add while_loop st_lines app].
      unfold loop_body at 1. cbn [st_lines st_mapping st_pack st_pending].
      rewrite P, R. unfold value_lines. cbn [filter].
      now rewrite (pack_header_not_value db l P).
    + assert (V : is_value_line db l = true)
        by (unfold is_value_line; now rewrite Hk1, Hs1, P).
      destruct (span (is_value_line db) (l :: b)) as [vals b'] eqn:Sp.
      apply span_eq in Sp as (E & Hv & Hb').
      destruct vals as [|v vs].
      { cbn in E. subst b'. congruence. }
      cbn in E. injection E as <- ->.
      apply Forall_app in Hkb as [_ Hkb'].
      apply Forall_app in Hsb as [_ Hsb'].
      destruct (IH b' k after m p (pending ++ l :: vs)) as (n & Hn & R);
        [cbn in Hlen; rewrite length_app in Hlen; lia
        | assumption | assumption | assumption |].
      exists (S n). split; [cbn; rewrite length_app; lia|]. intros fuel.
      cbn [Nat.add while_loop st_lines app].
      assert (LB : loop_body db
                     {| st_lines := l :: (vs ++ b') ++ k :: after;
                        st_mapping := m; st_pack := p;
                        st_pending := pending |}
                   = {| st_lines := b' ++ k :: after; st_mapping := m;
                        st_pack := p; st_pending := pending ++ l :: vs |}).
      { unfold loop_body. cbn [st_lines st_mapping st_pack st_pending].
        rewrite P, collect_keys_not_key by assumption. cbn [is_empty].
        unfold collect_values.
        replace (l :: (vs ++ b') ++ k :: after)
          with ((l :: vs) ++ (b' ++ k :: after))
          by (cbn; now rewrite <- app_assoc).
        rewrite span_stop; [reflexivity | assumption |].
        destruct b'; cbn; [now apply key_line_not_value | assumption]. }
      rewrite LB, R.
      change (l :: vs ++ b') with ((l :: vs) ++ b').
      rewrite value_lines_app, (value_lines_values db (l :: vs) Hv).
      now rewrite app_assoc.
Qed.

End NextGroup.

(** * The claims *)

(** C1, at an input on which the code does not do what the claim says.
    The text [quoted_header_text] is one segment for [split_into_segments];
    its second line is the header again once [normalize_line] has removed
    the quotes, and the loop of [parse_segment] never gets past it: no
    amount of fuel lets [parse_segment] or [parse_articles] return. *)
Theorem C1_parse_segment_does_not_return (db : UnicodeDB) (fuel : nat) :
  split_into_segments db quoted_header_text = [quoted_header_text]
  /\ parse_segment db fuel quoted_header_text = None
  /\ parse_articles db fuel quoted_header_text = OutOfFuel.
Proof.
  assert (Hs : split_into_segments db quoted_header_text
               = [quoted_header_text])
    by (vm_compute; reflexivity).
  assert (P : parse_segment db fuel quoted_header_text = None).
  { apply parse_segment_stall with (l := lit "17 POSITIONSDATEN").
    - vm_compute. auto.
    - vm_compute. reflexivity. }
  split; [exact Hs|]. split; [exact P|].
  unfold parse_articles. rewrite Hs. cbn [is_empty parse_all]. now rewrite P.
Qed.

(** C2 as it is stated fails.  The text [stray_value_text] is parsed into
    one record that holds an unmapped list; [load_and_flatten] applied to
    that record returns no row: it raises, the list having no [items]. *)
Lemma C2_load_and_flatten_raises_on_unmapped :
  parse_articles ascii_db 1 stray_value_text = Returned [stray_value_record]
  /\ load_and_flatten [stray_value_record] = Raised AttributeError.
Proof. split; vm_compute; reflexivity. Qed.

(** C2, amended: applied to records returned by [parse_segment] from which
    the upload handler has removed the unmapped lists, [load_and_flatten]
    returns one row per record, in the order of the records; a row holds
    for a label the value of the packages mapping of its record, and the
    value of the main mapping when packages has none; the columns are the
    labels of the rows; no unmapped list is left after the handler's
    filter, and when no record holds one [load_and_flatten] gives the same
    result without the filter. *)
Theorem C2_flatten_cleaned_records (db : UnicodeDB) (records : list record) :
  Forall (fun r => exists fuel segment,
                     parse_segment db fuel segment = Some r) records ->
  exists df,
    load_and_flatten (clean_articles records) = Returned df
    /\ length (df_rows df) = length records
    /\ (forall i label,
           i < length records ->
           dict_get (nth i (df_rows df) []) label
           = match record_get (nth i records []) PACK_SECTION label with
             | Some v => Some v
             | None => record_get (nth i records []) MAIN_SECTION label
             end)
    /\ (forall label,
           In label (df_columns df) <->
           exists row, In row (df_rows df) /\ In label (dict_keys row))
    /\ (forall r, In r (clean_articles records) ->
                  dict_get r UNMAPPED_SECTION = None)
    /\ (Forall (fun r => dict_get r UNMAPPED_SECTION = None) records ->
        load_and_flatten records = Returned df).
Proof.
  intros H. apply parsed_records_finals in H as (finals & -> & N).
  exists (make_dataframe
            (map (fun fin => merge_sections (st_mapping fin) (st_pack fin))
                 finals)).
  assert (E : load_and_flatten (clean_articles (map article_obj finals))
              = Returned
                  (make_dataframe
                     (map (fun fin => merge_sections (st_mapping fin)
                                                     (st_pack fin))
                          finals)))
    by (unfold load_and_flatten; now rewrite flatten_records_cleaned).
  split; [exact E|]. split; [cbn; now rewrite !length_map|].
  split; [|split; [|split]].
  - intros i label Hi. rewrite length_map in Hi. cbn [df_rows make_dataframe].
    rewrite (nth_indep _ [] (article_obj (initial_state [])))
      by now rewrite length_map.
    rewrite (nth_indep _ []
               ((fun fin => merge_sections (st_mapping fin) (st_pack fin))
                  (initial_state [])))
      by now rewrite length_map.
    rewrite (map_nth article_obj),
      (map_nth (fun fin => merge_sections (st_mapping fin) (st_pack fin))).
    rewrite record_get_pack, record_get_main.
    rewrite Forall_forall in N.
    destruct (N (nth i finals (initial_state [])) (nth_In _ _ Hi)) as [N1 N2].
    now apply merge_sections_get.
  - intros label. apply make_dataframe_columns.
  - intros r Hr. unfold clean_articles in Hr. rewrite map_map in Hr.
    apply in_map_iff in Hr as (fin & <- & _).
    rewrite drop_unmapped_article_obj.
    destruct section_names_distinct as (_ & E2 & E3 & _).
    cbn [dict_get]. rewrite E2.
    destruct (is_empty (st_pack fin)); cbn [dict_get]; rewrite ?E3;
      reflexivity.
  - intros U. rewrite <- E. f_equal. unfold clean_articles.
    rewrite <- (map_id (map article_obj finals)) at 1.
    apply map_ext_in. intros r Hr.
    rewrite Forall_forall in U. specialize (U r Hr).
    apply in_map_iff in Hr as (fin & <- & _).
    rewrite article_obj_unmapped in U.
    rewrite drop_unmapped_article_obj. unfold article_obj.
    destruct (is_empty (st_pending fin)); [|discriminate].
    destruct (is_empty (st_pack fin)); reflexivity.
Qed.

(** C2 at a concrete input. *)
Lemma C2_flatten_cleaned_records_witness :
  exists df,
    load_and_flatten (clean_articles [stray_value_record; routing_record])
    = Returned df
    /\ length (df_rows df) = 2
    /\ df_rows df = [[]; [(lit "A", lit "v1"); (lit "P", lit "v2")]]
    /\ df_columns df = [lit "A"; lit "P"].
Proof.
  destruct (C2_flatten_cleaned_records ascii_db
              [stray_value_record; routing_record]) as (df & E & _).
  - constructor; [exists 1, stray_value_text; vm_compute; reflexivity|].
    constructor; [exists 2, routing_segment; vm_compute; reflexivity|].
    constructor.
  - exists df. split; [exact E|].
    assert (D : df = make_dataframe
                       [[]; [(lit "A", lit "v1"); (lit "P", lit "v2")]]).
    { vm_compute in E. injection E as <-. vm_compute. reflexivity. }
    rewrite D. repeat split; vm_compute; reflexivity.
Defined.

(** C3: [parse_articles] raises exactly when the text holds no occurrence
    of the section header, that is, when the segmenter returns no segment;
    the exception is then the [ValueError] of the check, no result is
    returned, and with at least one occurrence nothing is raised. *)
Theorem C3_parse_articles_raises_iff (db : UnicodeDB) (fuel : nat)
  (raw_text : str) :
  (forall e, parse_articles db fuel raw_text = Raised e <->
             e = ValueError /\ header_starts db raw_text = [])
  /\ (header_starts db raw_text = [] <->
      split_into_segments db raw_text = [])
  /\ (header_starts db raw_text = [] <->
      forall i, i < length raw_text -> header_occurs db raw_text i = false).
Proof.
  split; [intros e; apply parse_articles_raised|].
  split; [symmetry; apply split_into_segments_nil | apply header_starts_nil].
Qed.

(** C4: [split_into_segments] returns one segment per occurrence of the
    section header; segment [i] is the text from the start of occurrence
    [i] up to the start of occurrence [i+1], the last one up to the end of
    the text; without occurrence the result is empty.  The occurrences come
    in increasing order, each inside the text at a place where the pattern
    matches. *)
Theorem C4_split_into_segments (db : UnicodeDB) (raw_text : str) :
  length (split_into_segments db raw_text)
  = length (header_starts db raw_text)
  /\ split_into_segments db raw_text
     = segments_between raw_text (header_starts db raw_text)
  /\ (forall i, i < length (header_starts db raw_text) ->
        nth i (split_into_segments db raw_text) []
        = slice raw_text (nth i (header_starts db raw_text) 0)
            (if S i <? length (header_starts db raw_text)
             then nth (S i) (header_starts db raw_text) 0
             else length raw_text))
  /\ StronglySorted lt (header_starts db raw_text)
  /\ (forall p, In p (header_starts db raw_text) ->
        p < length raw_text /\ header_occurs db raw_text p = true)
  /\ (header_starts db raw_text = [] -> split_into_segments db raw_text = []).
Proof.
  rewrite split_into_segments_between.
  split; [apply segments_between_length|].
  split; [reflexivity|].
  split; [intros i Hi; now apply segments_between_nth|].
  split; [apply header_starts_sorted|].
  split; [intros p; apply header_starts_sound|].
  intros ->. reflexivity.
Qed.

(** C4 at a concrete input. *)
Lemma C4_split_into_segments_witness :
  header_starts ascii_db two_segments_text = [0; 27]
  /\ split_into_segments ascii_db two_segments_text
     = [lit "17 POSITIONSDATEN" ++ c_LF :: lit "17a A" ++ c_LF :: lit "v1"
        ++ [c_LF];
        lit "17 POSITIONSDATEN" ++ c_LF :: lit "17b B"]
  /\ length (split_into_segments ascii_db two_segments_text)
     = length (header_starts ascii_db two_segments_text).
Proof.
  split; [vm_compute; reflexivity|].
  split; [vm_compute; reflexivity|].
  exact (proj1 (C4_split_into_segments ascii_db two_segments_text)).
Defined.

(** C5: in a turn of the loop that reconciles a group of [K] keys with
    [V < K] available values, the keys are paired in order with the values
    followed by [K - V] empty strings, each pair is stored in the mapping
    the code selects, and nothing is left pending; so, the labels of the
    group being distinct, key number [idx] is bound to value number [idx]
    for [idx < V] and to the empty string from [V] on.  The step is a total
    function: nothing is raised. *)
Theorem C5_fewer_values_than_keys (db : UnicodeDB) (st : pstate)
  (l : str) (rest rest1 rest2 val_group : list str)
  (key_group : list (str * str)) :
  st_lines st = l :: rest ->
  collect_keys db (l :: rest) = (key_group, rest1) ->
  key_group <> [] ->
  collect_values db rest1 = (val_group, rest2) ->
  length (st_pending st ++ val_group) < length key_group ->
  (st_mapping (loop_body db st), st_pack (loop_body db st))
  = fold_left (store db)
      (combine key_group
         ((st_pending st ++ val_group)
          ++ repeat [] (length key_group
                        - length (st_pending st ++ val_group))))
      (st_mapping st, st_pack st)
  /\ st_pending (loop_body db st) = []
  /\ st_lines (loop_body db st) = rest2
  /\ (NoDup (map snd key_group) ->
      forall idx code label,
        nth_error key_group idx = Some (code, label) ->
        dict_get (bucket db (st_mapping (loop_body db st),
                             st_pack (loop_body db st)) code) label
        = Some (if idx <? length (st_pending st ++ val_group)
                then nth idx (st_pending st ++ val_group) []
                else [])).
Proof.
  intros L CK Hne CV Hlt.
  destruct (loop_body_reconcile db st l rest key_group rest1 val_group rest2
              L CK Hne CV) as (El & Em & Ep).
  rewrite Em, Ep, El. repeat split.
  - unfold reconcile. now rewrite paired_values_fewer by lia.
  - apply skipn_all2. lia.
  - intros ND idx code label Hk.
    rewrite (reconcile_get db key_group _ _ idx code label ND Hk).
    destruct (Nat.ltb_spec idx (length (st_pending st ++ val_group)));
      [reflexivity|]. now rewrite nth_overflow.
Qed.

(** C5 at a concrete input. *)
Lemma C5_fewer_values_than_keys_witness :
  loop_body ascii_db (initial_state padding_lines)
  = {| st_lines := [];
       st_mapping := [(lit "A", lit "v1"); (lit "B", [])];
       st_pack := [];
       st_pending := [] |}
  /\ dict_get (bucket ascii_db
                 (st_mapping (loop_body ascii_db (initial_state padding_lines)),
                  st_pack (loop_body ascii_db (initial_state padding_lines)))
                 (lit "17b")) (lit "B")
     = Some [].
Proof.
  split; [vm_compute; reflexivity|].
  refine (proj2 (proj2 (proj2
    (C5_fewer_values_than_keys ascii_db (initial_state padding_lines)
       (lit "17a A") [lit "17b B"; lit "v1"] [lit "v1"] [] [lit "v1"]
       [(lit "17a", lit "A"); (lit "17b", lit "B")]
       eq_refl eq_refl _ eq_refl _))) _ 1 (lit "17b") (lit "B") eq_refl).
  - discriminate.
  - vm_compute. lia.
  - vm_compute. repeat constructor; cbn; intuition discriminate.
Defined.

(** C6 as it is stated fails.  On the lines [17a A], [v1], [v2],
    [17.1 PACKSTUCKE], [v3] the first turn reconciles one key with two
    values and leaves [v2] pending; no key follows; yet the unmapped list
    of the record is [v2; v3], not [v2] alone: the value read after the
    sub-section header has joined the pending values. *)
Lemma C6_leftover_is_not_all_that_is_unmapped :
  ~ (forall (db : UnicodeDB) (st fin : pstate) (l : str)
            (rest rest1 rest2 val_group : list str)
            (key_group : list (str * str)) (fuel : nat),
        st_lines st = l :: rest ->
        collect_keys db (l :: rest) = (key_group, rest1) ->
        key_group <> [] ->
        collect_values db rest1 = (val_group, rest2) ->
        length key_group < length (st_pending st ++ val_group) ->
        all_keys db rest2 = [] ->
        while_loop db fuel (loop_body db st) = Some fin ->
        dict_get (article_obj fin) UNMAPPED_SECTION
        = Some (VList (skipn (length key_group)
                             (st_pending st ++ val_group)))).
Proof.
  intros H.
  specialize (H ascii_db (initial_state carry_over_lines)
                {| st_lines := [];
                   st_mapping := [(lit "A", lit "v1")];
                   st_pack := [];
                   st_pending := [lit "v2"; lit "v3"] |}
                (lit "17a A")
                [lit "v1"; lit "v2"; lit "17.1 PACKSTUCKE"; lit "v3"]
                [lit "v1"; lit "v2"; lit "17.1 PACKSTUCKE"; lit "v3"]
                [lit "17.1 PACKSTUCKE"; lit "v3"]
                [lit "v1"; lit "v2"]
                [(lit "17a", lit "A")]
                2
                eq_refl eq_refl).
  vm_compute in H.
  specialize (H ltac:(discriminate) eq_refl ltac:(lia) eq_refl eq_refl).
  discriminate H.
Qed.

(** C6, amended.  Take any turn of the loop that reconciles a group of [K]
    keys with [V > K] available values, whatever follows it in the segment.

    - The step: the keys are paired in order with the first [K] values
      (key number [idx] is bound to value number [idx] when the labels of
      the group differ), and the other [V - K] values, in their order, are
      the pending values after the turn.
    - For the next key group: when a key line follows, after lines without
      key and without section header, the loop reaches it with the mappings
      as the step left them and, as pending values, the leftover values
      followed by the value lines read since; the group that begins there
      is reconciled with these values before its own, so its key number
      [idx] receives leftover value number [idx].
    - Never consumed: when no key line follows, a run that ends changes no
      mapping, and the unmapped list is there and holds the leftover values
      in their order, followed by the value lines that come after them in
      the segment; the run does end, within one turn per line, when no
      section header follows.
    - The unmapped list of a record is there only when it is not empty. *)
Theorem C6_more_values_than_keys (db : UnicodeDB) (st : pstate)
  (l : str) (rest rest1 rest2 val_group : list str)
  (key_group : list (str * str)) :
  st_lines st = l :: rest ->
  collect_keys db (l :: rest) = (key_group, rest1) ->
  key_group <> [] ->
  collect_values db rest1 = (val_group, rest2) ->
  length key_group < length (st_pending st ++ val_group) ->
  (st_mapping (loop_body db st), st_pack (loop_body db st))
  = fold_left (store db)
      (combine key_group
               (firstn (length key_group) (st_pending st ++ val_group)))
      (st_mapping st, st_pack st)
  /\ (NoDup (map snd key_group) ->
      forall idx code label,
        nth_error key_group idx = Some (code, label) ->
        dict_get (bucket db (st_mapping (loop_body db st),
                             st_pack (loop_body db st)) code) label
        = Some (nth idx (st_pending st ++ val_group) []))
  /\ st_pending (loop_body db st)
     = skipn (length key_group) (st_pending st ++ val_group)
  /\ length (st_pending (loop_body db st))
     = length (st_pending st ++ val_group) - length key_group
  /\ st_lines (loop_body db st) = rest2
  /\ (forall between k after,
         rest2 = between ++ k :: after ->
         all_keys db between = [] ->
         Forall (fun l => SEGMENT_HEADER_RE_match db l = false) between ->
         is_key_line db k = true ->
         exists n next,
           n <= length between
           /\ (forall fuel,
                  while_loop db (n + fuel) (loop_body db st)
                  = while_loop db fuel next)
           /\ st_lines next = k :: after
           /\ st_mapping next = st_mapping (loop_body db st)
           /\ st_pack next = st_pack (loop_body db st)
           /\ st_pending next
              = st_pending (loop_body db st) ++ value_lines db between
           /\ forall key_group' rest1' val_group' rest2',
                collect_keys db (k :: after) = (key_group', rest1') ->
                collect_values db rest1' = (val_group', rest2') ->
                (st_mapping (loop_body db next), st_pack (loop_body db next))
                = reconcile db key_group'
                    ((st_pending (loop_body db st) ++ value_lines db between)
                     ++ val_group')
                    (st_mapping (loop_body db st),
                     st_pack (loop_body db st))
                /\ st_pending (loop_body db next)
                   = skipn (length key_group')
                       ((st_pending (loop_body db st)
                         ++ value_lines db between) ++ val_group')
                /\ (NoDup (map snd key_group') ->
                    forall idx code label,
                      idx < length (st_pending (loop_body db st)) ->
                      nth_error key_group' idx = Some (code, label) ->
                      dict_get (bucket db (st_mapping (loop_body db next),
                                           st_pack (loop_body db next))
                                       code) label
                      = Some (nth idx (st_pending (loop_body db st)) [])))
  /\ (all_keys db rest2 = [] ->
      (Forall (fun l => SEGMENT_HEADER_RE_match db l = false) rest2 ->
       exists fin, while_loop db (length rest2) (loop_body db st) = Some fin)
      /\ forall fuel fin,
           while_loop db fuel (loop_body db st) = Some fin ->
           st_mapping fin = st_mapping (loop_body db st)
           /\ st_pack fin = st_pack (loop_body db st)
           /\ dict_get (article_obj fin) UNMAPPED_SECTION
              = Some (VList (st_pending (loop_body db st)
                             ++ value_lines db rest2)))
  /\ (forall fin,
         (st_pending fin = [] ->
          dict_get (article_obj fin) UNMAPPED_SECTION = None)
         /\ forall u,
              dict_get (article_obj fin) UNMAPPED_SECTION = Some u ->
              u = VList (st_pending fin) /\ st_pending fin <> []).
Proof.
  intros L CK Hne CV Hlt.
  destruct (loop_body_reconcile db st l rest key_group rest1 val_group rest2
              L CK Hne CV) as (El & Em & Ep).
  assert (Hleft : st_pending (loop_body db st) <> []).
  { rewrite Ep. intros E. apply (f_equal (@length _)) in E.
    rewrite length_skipn in E. cbn in E. lia. }
  split; [|split; [|split; [|split; [|split; [|split; [|split]]]]]].
  - rewrite Em. unfold reconcile. now rewrite paired_values_more by lia.
  - intros ND idx code label Hk. rewrite Em.
    now apply reconcile_get.
  - exact Ep.
  - rewrite Ep. apply length_skipn.
  - exact El.
  - intros between k after E Hk Hs Kk.
    apply all_keys_nil in Hk.
    destruct (run_to_next_key db (length between) between k after
                (st_mapping (loop_body db st)) (st_pack (loop_body db st))
                (st_pending (loop_body db st)) (le_n _) Hk Hs Kk)
      as (n & Hn & R).
    exists n. eexists. split; [exact Hn|]. split.
    { intros fuel. rewrite <- R. f_equal.
      destruct (loop_body db st) as [a b c d].
      cbn [st_lines st_mapping st_pack st_pending] in *. congruence. }
    cbn [st_lines st_mapping st_pack st_pending].
    do 4 (split; [reflexivity|]).
    intros key_group' rest1' val_group' rest2' CK' CV'.
    pose proof (collect_keys_key db k after key_group' rest1' Kk CK') as Hne'.
    destruct (loop_body_reconcile db
                {| st_lines := k :: after;
                   st_mapping := st_mapping (loop_body db st);
                   st_pack := st_pack (loop_body db st);
                   st_pending := st_pending (loop_body db st)
                                 ++ value_lines db between |}
                k after key_group' rest1' val_group' rest2'
                eq_refl CK' Hne' CV') as (El' & Em' & Ep').
    cbn [st_lines st_mapping st_pack st_pending] in Em', Ep'.
    split; [exact Em' | split; [exact Ep'|]].
    intros ND idx code label Hi Hk'. rewrite Em'.
    rewrite (reconcile_get db key_group' _ _ idx code label ND Hk').
    now rewrite !app_nth1 by (rewrite ?length_app; lia).
  - intros Hk. split.
    + intros Hs. apply while_loop_terminates; [|rewrite El; lia].
      rewrite El. now apply no_header_no_stall.
    + intros fuel fin Hrun.
      rewrite <- El in Hk.
      destruct (while_loop_no_keys db fuel _ _ Hrun Hk) as (Fm & Fp & Fn).
      rewrite El in Fn.
      split; [exact Fm | split; [exact Fp|]].
      rewrite article_obj_unmapped, Fn.
      destruct (st_pending (loop_body db st)); [congruence | reflexivity].
  - intros fin. split.
    + intros E. now rewrite article_obj_unmapped, E.
    + intros u. rewrite article_obj_unmapped.
      destruct (st_pending fin); cbn [is_empty]; [discriminate|].
      intros H. injection H as <-. split; [reflexivity | discriminate].
Qed.

(** C6 at two concrete inputs: the lines of the counterexample, where no
    key follows the leftover value, and the same lines followed by a
    packages key, which receives it. *)
Lemma C6_more_values_than_keys_witness :
  st_pending (loop_body ascii_db (initial_state carry_over_group_lines))
  = [lit "v2"]
  /\ (exists next,
         st_lines next = [lit "17.1a P"; lit "v4"]
         /\ st_pending next = [lit "v2"; lit "v3"]
         /\ dict_get (bucket ascii_db (st_mapping (loop_body ascii_db next),
                                       st_pack (loop_body ascii_db next))
                             (lit "17.1a")) (lit "P")
            = Some (lit "v2")
         /\ st_pending (loop_body ascii_db next) = [lit "v3"; lit "v4"])
  /\ while_loop ascii_db 2 (loop_body ascii_db (initial_state carry_over_lines))
     = Some {| st_lines := [];
               st_mapping := [(lit "A", lit "v1")];
               st_pack := [];
               st_pending := [lit "v2"; lit "v3"] |}
  /\ dict_get (article_obj
                 {| st_lines := [];
                    st_mapping := [(lit "A", lit "v1")];
                    st_pack := [];
                    st_pending := [lit "v2"; lit "v3"] |})
              UNMAPPED_SECTION
     = Some (VList [lit "v2"; lit "v3"]).
Proof.
  split; [vm_compute; reflexivity|]. split.
  - destruct (C6_more_values_than_keys ascii_db
                (initial_state carry_over_group_lines)
                (lit "17a A")
                [lit "v1"; lit "v2"; lit "17.1 PACKSTUCKE"; lit "v3";
                 lit "17.1a P"; lit "v4"]
                [lit "v1"; lit "v2"; lit "17.1 PACKSTUCKE"; lit "v3";
                 lit "17.1a P"; lit "v4"]
                [lit "17.1 PACKSTUCKE"; lit "v3"; lit "17.1a P"; lit "v4"]
                [lit "v1"; lit "v2"]
                [(lit "17a", lit "A")]
                eq_refl eq_refl ltac:(discriminate) eq_refl
                ltac:(vm_compute; lia))
      as (_ & _ & _ & _ & _ & Next & _).
    destruct (Next [lit "17.1 PACKSTUCKE"; lit "v3"] (lit "17.1a P")
                [lit "v4"] eq_refl eq_refl
                ltac:(repeat constructor) eq_refl)
      as (n & next & _ & _ & Hl & _ & _ & Hp & Group).
    exists next. split; [exact Hl|]. split; [exact Hp|].
    destruct (Group [(lit "17.1a", lit "P")] [lit "v4"] [lit "v4"] []
                eq_refl eq_refl) as (_ & Hrest & Hget).
    split; [|exact Hrest].
    apply (Hget ltac:(repeat constructor; cbn; tauto) 0 (lit "17.1a")
                (lit "P")); [vm_compute; lia | reflexivity].
  - split; [vm_compute; reflexivity|].
    destruct (C6_more_values_than_keys ascii_db
                (initial_state carry_over_lines)
                (lit "17a A")
                [lit "v1"; lit "v2"; lit "17.1 PACKSTUCKE"; lit "v3"]
                [lit "v1"; lit "v2"; lit "17.1 PACKSTUCKE"; lit "v3"]
                [lit "17.1 PACKSTUCKE"; lit "v3"]
                [lit "v1"; lit "v2"]
                [(lit "17a", lit "A")]
                eq_refl eq_refl ltac:(discriminate) eq_refl
                ltac:(vm_compute; lia))
      as (_ & _ & _ & _ & _ & _ & Never & _).
    destruct (Never eq_refl) as [_ Run].
    exact (proj2 (proj2 (Run 2 _ eq_refl))).
Defined.

(** C7: in a record [parse_segment] returns, the label of every key line
    whose code begins with [17.1] is a label of the packages mapping,
    every label of the main mapping is the label of a key line whose code
    does not begin with [17.1], and when no code of the segment begins with
    [17.1] the record has no packages entry; an entry that is there is a
    mapping that is not empty, and the main entry is always there. *)
Theorem C7_sub_section_routing (db : UnicodeDB) (fuel : nat)
  (segment : str) (r : record) :
  parse_segment db fuel segment = Some r ->
  (forall code label,
      In (code, label) (all_keys db (normalized_lines segment)) ->
      startswith (lit "17.1") code = true ->
      exists v, record_get r PACK_SECTION label = Some v)
  /\ (forall label v,
         record_get r MAIN_SECTION label = Some v ->
         exists code,
           In (code, label) (all_keys db (normalized_lines segment))
           /\ startswith (lit "17.1") code = false)
  /\ ((forall code label,
          In (code, label) (all_keys db (normalized_lines segment)) ->
          startswith (lit "17.1") code = false) ->
      dict_get r PACK_SECTION = None)
  /\ (dict_get r PACK_SECTION = None
      \/ exists d, dict_get r PACK_SECTION = Some (VDict d) /\ d <> [])
  /\ (exists d, dict_get r MAIN_SECTION = Some (VDict d)).
Proof.
  intros H. apply parse_segment_some in H as (fin & H & ->).
  pose proof (while_loop_keys db fuel _ _ H) as K.
  cbn [initial_state st_lines st_mapping st_pack dict_keys map] in K.
  unfold segment_lines in K.
  assert (Km : forall k, In k (dict_keys (st_mapping fin)) <->
               exists code, In (code, k) (all_keys db (normalized_lines segment))
                            /\ startswith (lit "17.1") code = false).
  { intros k. destruct (K k) as [K1 _]. rewrite K1, keys_of_prefix.
    rewrite all_keys_drop_header.
    split; [intros [[] | E]; exact E | auto]. }
  assert (Kp : forall k, In k (dict_keys (st_pack fin)) <->
               exists code, In (code, k) (all_keys db (normalized_lines segment))
                            /\ startswith (lit "17.1") code = true).
  { intros k. destruct (K k) as [_ K2]. rewrite K2, keys_of_prefix.
    rewrite all_keys_drop_header.
    split; [intros [[] | E]; exact E | auto]. }
  clear K. repeat split.
  - intros code label Hin Hp. rewrite record_get_pack.
    apply dict_get_In_keys, Kp. eauto.
  - intros label v Hg. rewrite record_get_main in Hg.
    apply Km, dict_get_In_keys. eauto.
  - intros Hno. rewrite article_obj_pack.
    destruct (st_pack fin) as [|[k v] d]; [reflexivity|].
    assert (Hk : In k (dict_keys ((k, v) :: d))) by now left.
    apply Kp in Hk as (code & Hin & Hp). apply Hno in Hin. congruence.
  - rewrite article_obj_pack. destruct (st_pack fin) as [|kv d];
      [now left | right]. eexists; split; [reflexivity | discriminate].
  - rewrite article_obj_main. eauto.
Qed.

(** C7 at a concrete input. *)
Lemma C7_sub_section_routing_witness :
  parse_segment ascii_db 2 routing_segment = Some routing_record
  /\ ((forall code label,
          In (code, label) (all_keys ascii_db (normalized_lines routing_segment)) ->
          startswith (lit "17.1") code = true ->
          exists v, record_get routing_record PACK_SECTION label = Some v)
      /\ (forall label v,
             record_get routing_record MAIN_SECTION label = Some v ->
             exists code,
               In (code, label)
                  (all_keys ascii_db (normalized_lines routing_segment))
               /\ startswith (lit "17.1") code = false)
      /\ ((forall code label,
              In (code, label)
                 (all_keys ascii_db (normalized_lines routing_segment)) ->
              startswith (lit "17.1") code = false) ->
          dict_get routing_record PACK_SECTION = None)
      /\ (dict_get routing_record PACK_SECTION = None
          \/ exists d, dict_get routing_record PACK_SECTION = Some (VDict d)
                       /\ d <> [])
      /\ (exists d, dict_get routing_record MAIN_SECTION = Some (VDict d))).
Proof.
  split; [vm_compute; reflexivity|].
  apply (C7_sub_section_routing ascii_db 2 routing_segment routing_record).
  vm_compute. reflexivity.
Defined.



(** C9.  Over strings the three functions are functions: the same
    argument gives the same result, and that says nothing about the
    code.  The claim is about the objects of the code, so it is stated
    for the programs over the heap, which may read and change every
    object there is, run from any heap: whatever earlier calls or the
    caller have left there.  [fuel] bounds the turns of every loop; it is
    enough for the lines of the segment, the headers of the text and the
    lines of its segments.

    - A call of [parse_segment] ends in the same way from every heap: it
      returns exactly when [parse_segment] over strings does, and the
      dictionary it returns then reads as that record.  The dictionary
      and its sections are objects the call has made, and every object
      that was there before is as it was.
    - So two calls on the same segment, from any two heaps, return
      records that read the same, and one returns when the other does.
    - Two calls in a row: the second leaves the record of the first as
      it is, and the two records have no object in common.
    - [split_into_segments] returns a new list holding the segments, and
      changes no object that was there.
    - [parse_articles] ends as [parse_articles] over strings does, from
      every heap; the list it returns is new and leads to the same
      records; returning or raising, it changes no object that was
      there. *)
Theorem C9_parse_is_deterministic (db : UnicodeDB) (fuel : nat)
  (segment raw_text : str) :
  length (segment_lines db segment) <= fuel ->
  length (header_starts db raw_text) <= fuel ->
  Forall (fun seg => length (segment_lines db seg) <= fuel)
         (split_into_segments db raw_text) ->
  (forall s,
      (exists r a s',
          parse_segment db fuel segment = Some r
          /\ parse_segment_in db fuel segment s = Ok a s'
          /\ read_record s' a = Some r
          /\ next_free s <= a < next_free s'
          /\ Forall (fun b => next_free s <= b < next_free s')
                    (record_objects s' a)
          /\ kept_below (next_free s) s s')
      \/ (parse_segment db fuel segment = None
          /\ parse_segment_in db fuel segment s = Unfinished))
  /\ (forall s1 s2,
         (forall a1 t1 a2 t2,
             parse_segment_in db fuel segment s1 = Ok a1 t1 ->
             parse_segment_in db fuel segment s2 = Ok a2 t2 ->
             exists r, read_record t1 a1 = Some r
                       /\ read_record t2 a2 = Some r)
         /\ ((exists a1 t1, parse_segment_in db fuel segment s1 = Ok a1 t1)
             <-> (exists a2 t2,
                     parse_segment_in db fuel segment s2 = Ok a2 t2)))
  /\ (forall s a1 t1 a2 t2,
         parse_segment_in db fuel segment s = Ok a1 t1 ->
         parse_segment_in db fuel segment t1 = Ok a2 t2 ->
         read_record t2 a1 = read_record t1 a1
         /\ read_record t2 a2 = read_record t1 a1
         /\ forall b, In b (record_objects t1 a1) ->
                      ~ In b (record_objects t2 a2))
  /\ (forall s,
         exists a s',
           split_into_segments_in db fuel raw_text s = Ok a s'
           /\ cell s' a = Some (OStrs (split_into_segments db raw_text))
           /\ next_free s <= a < next_free s'
           /\ kept_below (next_free s) s s')
  /\ (forall s,
         match parse_articles db fuel raw_text with
         | Returned rs =>
             exists a s',
               parse_articles_in db fuel raw_text s = Ok a s'
               /\ read_records s' a = Some rs
               /\ next_free s <= a < next_free s'
               /\ kept_below (next_free s) s s'
         | Raised e =>
             exists s',
               parse_articles_in db fuel raw_text s = Exn e s'
               /\ kept_below (next_free s) s s'
         | OutOfFuel => parse_articles_in db fuel raw_text s = Unfinished
         end).
Proof.
  intros Hseg Hstarts Hsegs.
  assert (One : forall s,
             (exists r a s',
                 parse_segment db fuel segment = Some r
                 /\ parse_segment_in db fuel segment s = Ok a s'
                 /\ read_record s' a = Some r
                 /\ next_free s <= a < next_free s'
                 /\ Forall (fun b => next_free s <= b < next_free s')
                           (record_objects s' a)
                 /\ kept_below (next_free s) s s')
             \/ (parse_segment db fuel segment = None
                 /\ parse_segment_in db fuel segment s = Unfinished)).
  { intros s. pose proof (parse_segment_in_spec db fuel segment s Hseg) as P.
    destruct (parse_segment db fuel segment) as [r|]; [left | right; auto].
    destruct P as (a & s' & E & Hr & Ho & F & N).
    exists r, a, s'. repeat split; try assumption.
    - unfold record_objects in Ho.
      destruct (cell s' a) as [[]|]; inversion Ho; lia.
    - unfold record_objects in Ho.
      destruct (cell s' a) as [[]|]; inversion Ho; lia. }
  split; [exact One|]. split; [|split; [|split]].
  - intros s1 s2. split.
    + intros a1 t1 a2 t2 E1 E2.
      destruct (One s1) as [(r & a & s' & Pr & E & Hr & _) | [_ E]];
        [|congruence].
      destruct (One s2) as [(r' & a' & s'' & Pr' & E' & Hr' & _) | [_ E']];
        [|congruence].
      exists r. split; [congruence|].
      assert (r' = r) by congruence. subst r'. congruence.
    + split; intros (a & t & E).
      * destruct (One s1) as [(r & _ & _ & Pr & _) | [_ E1]]; [|congruence].
        destruct (One s2) as [(_ & a2 & t2 & _ & E2 & _) | [Pn _]];
          [eauto | congruence].
      * destruct (One s2) as [(r & _ & _ & Pr & _) | [_ E2]]; [|congruence].
        destruct (One s1) as [(_ & a1 & t1 & _ & E1 & _) | [Pn _]];
          [eauto | congruence].
  - intros s a1 t1 a2 t2 E1 E2.
    destruct (One s) as [(r & a & s' & Pr & E & Hr & Ha & Ho & F) | [_ E]];
      [|congruence].
    rewrite E1 in E. injection E as <- <-.
    destruct (One t1)
      as [(r' & a' & s'' & Pr' & E' & Hr' & Ha' & Ho' & F') | [_ E']];
      [|congruence].
    rewrite E2 in E'. injection E' as <- <-.
    assert (r' = r) by congruence. subst r'.
    assert (K : holds_record (next_free s) (next_free t2) t2 a1 r).
    { apply (holds_record_kept (next_free s) (next_free t1) _ _ t1);
        [split; assumption | | lia | lia].
      intros b Hb. apply F'. lia. }
    destruct K as [K _].
    split; [congruence|]. split; [congruence|].
    intros b H1 H2. rewrite Forall_forall in Ho, Ho'.
    apply Ho in H1. apply Ho' in H2. lia.
  - intros s. now apply split_into_segments_in_spec.
  - intros s. now apply parse_articles_in_spec.
Qed.

(** C9 at a concrete input: two calls in a row on the same segment, from
    a heap that holds objects already. *)
Lemma C9_parse_is_deterministic_witness :
  exists a1 t1 a2 t2,
    parse_segment_in ascii_db 4 routing_segment used_heap = Ok a1 t1
    /\ parse_segment_in ascii_db 4 routing_segment t1 = Ok a2 t2
    /\ read_record t1 a1 = Some routing_record
    /\ read_record t2 a2 = Some routing_record
    /\ read_record t2 a1 = Some routing_record
    /\ a1 <> a2
    /\ cell t2 0 = cell used_heap 0
    /\ cell t2 1 = cell used_heap 1.
Proof.
  destruct (C9_parse_is_deterministic ascii_db 4 routing_segment
              two_segments_text)
    as (One & _ & Row & _);
    [vm_compute; lia | vm_compute; lia
     | vm_compute; repeat constructor |].
  assert (P : parse_segment ascii_db 4 routing_segment = Some routing_record)
    by (vm_compute; reflexivity).
  destruct (One used_heap)
    as [(r & a1 & t1 & Pr & E1 & R1 & A1 & _ & F1) | [Pn _]];
    [|congruence].
  destruct (One t1)
    as [(r' & a2 & t2 & Pr' & E2 & R2 & A2 & _ & F2) | [Pn _]];
    [|congruence].
  assert (r = routing_record) by congruence. subst r.
  assert (r' = routing_record) by congruence. subst r'.
  destruct (Row used_heap a1 t1 a2 t2 E1 E2) as (K1 & _ & _).
  exists a1, t1, a2, t2.
  split; [exact E1|]. split; [exact E2|]. split; [exact R1|].
  split; [exact R2|]. split; [congruence|]. split; [lia|].
  assert (N : next_free used_heap = 2) by reflexivity.
  split.
  - rewrite F2 by lia. apply F1. lia.
  - rewrite F2 by lia. apply F1. lia.
Defined.

(** C10, at an input on which the code does not do what the claim says:
    the line [17 PACKSTUECKE] does not match [PACK_HEADER_RE], and after a
    key line it is taken as the value of that key. *)
Theorem C10_packstuecke_is_read_as_a_value (db : UnicodeDB) :
  PACK_HEADER_RE_match db (lit "17 PACKSTUECKE") = false
  /\ parse_segment db 1 packstuecke_segment
     = Some [(MAIN_SECTION, VDict [(lit "Label", lit "17 PACKSTUECKE")])].
Proof.
  split; vm_compute; reflexivity.
Qed.

(** * Further properties of the code *)

(** ** Stripping *)

Lemma dropwhile_first {A} (p : A -> bool) (l : list A) x :
  hd_error (dropwhile p l) = Some x -> p x = false.
Proof.
  induction l as [|y l IH]; cbn; [discriminate|].
  destruct (p y) eqn:Hy; [exact IH|].
  cbn. intros E. injection E as <-. exact Hy.
Qed.

Lemma hd_error_app {A} (a b : list A) x :
  hd_error a = Some x -> hd_error (a ++ b) = Some x.
Proof. destruct a; [discriminate | exact (fun E => E)]. Qed.

Lemma lstrip_split (p : char -> bool) (s : str) :
  exists a, s = a ++ lstrip p s /\ Forall (fun c => p c = true) a.
Proof. apply dropwhile_split. Qed.

Lemma rstrip_split (p : char -> bool) (s : str) :
  exists b, s = rstrip p s ++ b /\ Forall (fun c => p c = true) b.
Proof.
  unfold rstrip. destruct (dropwhile_split p (rev s)) as (a & E & Ha).
  exists (rev a). split.
  - rewrite <- rev_app_distr, <- E. now rewrite rev_involutive.
  - now apply Forall_rev.
Qed.

Lemma strip_split (p : char -> bool) (s : str) :
  exists a b, s = a ++ strip p s ++ b
              /\ Forall (fun c => p c = true) a
              /\ Forall (fun c => p c = true) b.
Proof.
  unfold strip. destruct (lstrip_split p s) as (a & Ea & Ha).
  destruct (rstrip_split p (lstrip p s)) as (b & Eb & Hb).
  exists a, b. repeat split; [|assumption..].
  now rewrite <- Eb.
Qed.

Lemma strip_length (p : char -> bool) (s : str) :
  length (strip p s) <= length s.
Proof.
  destruct (strip_split p s) as (a & b & E & _).
  rewrite E at 2. rewrite !length_app. lia.
Qed.

Lemma strip_same_length (p : char -> bool) (s : str) :
  length (strip p s) = length s -> strip p s = s.
Proof.
  destruct (strip_split p s) as (a & b & E & _). intros L.
  rewrite E in L at 2. rewrite !length_app in L.
  destruct a; [|cbn in L; lia]. destruct b; [|cbn in L; lia].
  cbn in E. now rewrite app_nil_r in E.
Qed.

Lemma lstrip_first (p : char -> bool) (s : str) c :
  first_char (lstrip p s) = Some c -> p c = false.
Proof. apply dropwhile_first. Qed.

Lemma rstrip_last (p : char -> bool) (s : str) c :
  last_char (rstrip p s) = Some c -> p c = false.
Proof.
  unfold last_char, rstrip. rewrite rev_involutive. apply dropwhile_first.
Qed.

Lemma rstrip_first (p : char -> bool) (s : str) c :
  first_char (rstrip p s) = Some c -> first_char s = Some c.
Proof.
  destruct (rstrip_split p s) as (b & E & _). intros H.
  rewrite E. now apply hd_error_app.
Qed.

Lemma strip_ends_free (p : char -> bool) (s : str) :
  ends_free p (strip p s).
Proof.
  unfold strip. split; intros c H.
  - apply rstrip_first in H. now apply lstrip_first in H.
  - now apply rstrip_last in H.
Qed.

Lemma strip_fixed (p : char -> bool) (s : str) :
  ends_free p s -> strip p s = s.
Proof.
  intros [Hf Hl]. unfold strip, lstrip, rstrip.
  assert (E : dropwhile p s = s).
  { apply dropwhile_stop. destruct s as [|c s]; [exact I|]. now apply Hf. }
  rewrite E.
  assert (E' : dropwhile p (rev s) = rev s).
  { apply dropwhile_stop. unfold last_char in Hl.
    destruct (rev s) as [|c r]; [exact I|]. now apply Hl. }
  rewrite E'. apply rev_involutive.
Qed.

Lemma strip_fixed_iff (p : char -> bool) (s : str) :
  strip p s = s <-> ends_free p s.
Proof.
  split; [|apply strip_fixed].
  intros E. rewrite <- E. apply strip_ends_free.
Qed.

Lemma ends_free_padding (s : str) :
  ends_free is_padding s <-> ends_free isspace s /\ ends_free is_quote s.
Proof.
  unfold ends_free, is_padding. split.
  - intros [Hf Hl]. repeat split; intros c H;
      (apply Hf in H || apply Hl in H); apply orb_false_iff in H; tauto.
  - intros [[Hf Hl] [Hf' Hl']]. split; intros c H; apply orb_false_iff; auto.
Qed.

(** ** [normalize_line] *)

Lemma normalize_line_split (s : str) :
  exists a b, s = a ++ normalize_line s ++ b
              /\ Forall (fun c => is_padding c = true) a
              /\ Forall (fun c => is_padding c = true) b.
Proof.
  unfold normalize_line.
  destruct (strip_split isspace s) as (a1 & b1 & E1 & A1 & B1).
  destruct (strip_split is_quote (strip isspace s))
    as (a2 & b2 & E2 & A2 & B2).
  destruct (strip_split isspace (strip is_quote (strip isspace s)))
    as (a3 & b3 & E3 & A3 & B3).
  exists (a1 ++ a2 ++ a3), (b3 ++ b2 ++ b1).
  assert (Sp : forall l, Forall (fun c => isspace c = true) l ->
                         Forall (fun c => is_padding c = true) l).
  { intros l. apply Forall_impl. intros c H. unfold is_padding.
    now rewrite H. }
  assert (Qu : forall l, Forall (fun c => is_quote c = true) l ->
                         Forall (fun c => is_padding c = true) l).
  { intros l. apply Forall_impl. intros c H. unfold is_padding.
    rewrite H. apply orb_true_r. }
  split; [|split].
  - rewrite E1 at 1. rewrite E2 at 1. rewrite E3 at 1.
    now rewrite <- !app_assoc.
  - rewrite !Forall_app. auto.
  - rewrite !Forall_app. auto.
Qed.

Lemma normalize_line_length (s : str) :
  length (normalize_line s) = length s ->
  strip isspace s = s /\ strip is_quote s = s.
Proof.
  unfold normalize_line. intros L.
  pose proof (strip_length isspace s) as L1.
  pose proof (strip_length is_quote (strip isspace s)) as L2.
  pose proof (strip_length isspace (strip is_quote (strip isspace s))) as L3.
  assert (E1 : strip isspace s = s) by (apply strip_same_length; lia).
  rewrite E1 in *.
  assert (E2 : strip is_quote s = s) by (apply strip_same_length; lia).
  auto.
Qed.

(** X1: what [normalize_line] returns is the line without something at its
    two ends, and what it removes there is white space and double quotes
    only; the result neither begins nor ends with white space. *)
Theorem normalize_line_trims (s : str) :
  (exists a b, s = a ++ normalize_line s ++ b
               /\ Forall (fun c => is_padding c = true) a
               /\ Forall (fun c => is_padding c = true) b)
  /\ ends_free isspace (normalize_line s)
  /\ length (normalize_line s) <= length s.
Proof.
  split; [apply normalize_line_split|].
  split; [apply strip_ends_free|].
  destruct (normalize_line_split s) as (a & b & E & _).
  rewrite E at 2. rewrite !length_app. lia.
Qed.

(** X2: [normalize_line] leaves a line as it is exactly when the line
    neither begins nor ends with white space or a double quote.  It is not
    idempotent: a second pass changes the result of the first exactly when
    that result begins or ends with a double quote, which happens. *)
Theorem normalize_line_fixed_points :
  (forall s, normalize_line s = s <-> ends_free is_padding s)
  /\ (forall s, normalize_line (normalize_line s) = normalize_line s <->
                ends_free is_quote (normalize_line s))
  /\ (exists s, normalize_line (normalize_line s) <> normalize_line s).
Proof.
  assert (F : forall s, normalize_line s = s <-> ends_free is_padding s).
  { intros s. rewrite ends_free_padding. split.
    - intros E. apply (f_equal (@length _)) in E.
      apply normalize_line_length in E as [E1 E2].
      now rewrite <- strip_fixed_iff, <- strip_fixed_iff.
    - intros [Hs Hq]. unfold normalize_line.
      now rewrite (strip_fixed isspace s Hs), (strip_fixed is_quote s Hq),
        (strip_fixed isspace s Hs). }
  split; [exact F|]. split.
  - intros s. rewrite F, ends_free_padding.
    pose proof (strip_ends_free isspace
                  (strip is_quote (strip isspace s))) as N.
    fold (normalize_line s) in N. tauto.
  - exists (c_quote :: 32%N :: c_quote :: lit "x"). vm_compute. discriminate.
Qed.

(** ** The three patterns exclude each other *)

Section Exclusive.

Variable db : UnicodeDB.

(** A string that begins with [17] and goes on with anything but a space
    does not match the section header. *)
Lemma header_at_17 x r :
  x <> 32%N -> header_at db (49 :: 55 :: x :: r)%N = None.
Proof.
  intros Hx. unfold header_at. rewrite HEADER_LITERAL_eq.
  cbn [dropwhile].
  replace (isspace 49) with false by reflexivity.
  replace (is_quote 49) with false by reflexivity.
  cbn [dropwhile].
  replace (isspace 49) with false by reflexivity.
  cbn [match_lit_ci].
  replace (re_lit_ci db 49 49) with true by reflexivity.
  replace (re_lit_ci db 55 55) with true by reflexivity.
  replace (re_lit_ci db 32 x) with (N.eqb x 32) by reflexivity.
  apply N.eqb_neq in Hx. now rewrite Hx.
Qed.

Lemma space_not_letter : re_letter_ci db 32 = false.
Proof. reflexivity. Qed.

Lemma key_line_not_segment_header l :
  is_key_line db l = true -> SEGMENT_HEADER_RE_match db l = false.
Proof.
  unfold is_key_line, SEGMENT_HEADER_RE_match.
  destruct (KEY_RE_match db l) as [[code g2]|] eqn:K; [|discriminate].
  intros _. apply KEY_RE_match_sound in K as (r & -> & Sh).
  destruct Sh as [x L ND | d ds x Hd L].
  - cbn [app]. rewrite header_at_17; [reflexivity|].
    intros ->. rewrite space_not_letter in L. discriminate.
  - cbn [app]. rewrite header_at_17; [reflexivity | discriminate].
Qed.

(** No character matches both the letter O and the letter A of a
    pattern. *)
Lemma re_lit_ci_O_A c :
  re_lit_ci db 79 c = true -> re_lit_ci db 65 c = false.
Proof.
  unfold re_lit_ci.
  replace (is_ascii_letter 79) with true by reflexivity.
  replace (is_ascii_letter 65) with true by reflexivity.
  replace (ascii_lower 79) with 111%N by reflexivity.
  replace (ascii_lower 65) with 97%N by reflexivity.
  destruct (is_ascii c).
  - intros E. apply N.eqb_eq in E. rewrite E. reflexivity.
  - destruct (uni_fold db c) as [q|]; [|reflexivity].
    intros E. apply N.eqb_eq in E. rewrite E. reflexivity.
Qed.

Lemma pack_header_not_segment_header l :
  PACK_HEADER_RE_match db l = true -> SEGMENT_HEADER_RE_match db l = false.
Proof.
  intros P. apply PACK_HEADER_RE_match_iff in P
    as (n & ws & m1 & u & m2 & r & Hn & Hne & Hws & H1 & _ & _ & _ & ->).
  unfold SEGMENT_HEADER_RE_match.
  destruct Hn as [|d ds Hd].
  - rewrite lit_17. destruct ws as [|w ws]; [congruence|].
    cbn [app]. destruct (N.eq_dec w 32) as [-> | Hw];
      [|now rewrite header_at_17].
    unfold header_at. rewrite HEADER_LITERAL_eq.
    cbn [dropwhile].
    replace (isspace 49) with false by reflexivity.
    replace (is_quote 49) with false by reflexivity.
    cbn [dropwhile].
    replace (isspace 49) with false by reflexivity.
    cbn [match_lit_ci].
    replace (re_lit_ci db 49 49) with true by reflexivity.
    replace (re_lit_ci db 55 55) with true by reflexivity.
    replace (re_lit_ci db 32 32) with true by reflexivity.
    replace (lit "POSITIONSDATEN")
      with (80 :: 79 :: lit "SITIONSDATEN")%N by reflexivity.
    cbn [match_lit_ci].
    destruct ws as [|w' ws].
    + unfold lit_matches in H1.
      change (lit "PACKST") with (80 :: 65 :: lit "CKST")%N in H1.
      inversion H1 as [|p0 p ? m1' Hp H1']; subst.
      inversion H1' as [|a0 a ? m1'' Ha _]; subst.
      cbn [app]. destruct (re_lit_ci db 80 p); [|reflexivity].
      destruct (re_lit_ci db 79 a) eqn:O; [|reflexivity].
      apply re_lit_ci_O_A in O. congruence.
    + cbn [app]. destruct (re_lit_ci db 80 w') eqn:L; [|reflexivity].
      apply lit_letter_not_space in L; [|reflexivity].
      inversion Hws as [|? ? _ Hws']; subst.
      inversion Hws' as [|? ? Hw' _]; subst. congruence.
  - rewrite lit_17. cbn [app]. now rewrite header_at_17.
Qed.

End Exclusive.

(** X3: no line matches two of the three patterns [KEY_RE],
    [PACK_HEADER_RE] and [SEGMENT_HEADER_RE]; so the lines on which the
    loop of [parse_segment] makes no progress are those that match the
    section header, and the lines its guards take as values are those that
    match none of the three. *)
Theorem patterns_exclude_each_other (db : UnicodeDB) (l : str) :
  is_key_line db l && PACK_HEADER_RE_match db l = false
  /\ is_key_line db l && SEGMENT_HEADER_RE_match db l = false
  /\ PACK_HEADER_RE_match db l && SEGMENT_HEADER_RE_match db l = false
  /\ is_stall_line db l = SEGMENT_HEADER_RE_match db l
  /\ is_value_line db l
     = negb (is_key_line db l || PACK_HEADER_RE_match db l
             || SEGMENT_HEADER_RE_match db l).
Proof.
  pose proof (key_line_not_pack_header db l) as KP.
  pose proof (key_line_not_segment_header db l) as KS.
  pose proof (pack_header_not_segment_header db l) as PS.
  unfold is_stall_line, is_value_line.
  destruct (is_key_line db l), (PACK_HEADER_RE_match db l),
    (SEGMENT_HEADER_RE_match db l); cbn;
    repeat split; auto; try (now apply KP); try (now apply KS);
    try (now apply PS);
    try (specialize (KP eq_refl); discriminate);
    try (specialize (KS eq_refl); discriminate);
    try (specialize (PS eq_refl); discriminate).
Qed.

(** ** When [parse_segment] returns *)

Lemma stall_line_is_header (db : UnicodeDB) (l : str) :
  is_stall_line db l = SEGMENT_HEADER_RE_match db l.
Proof.
  pose proof (key_line_not_segment_header db l) as KS.
  pose proof (pack_header_not_segment_header db l) as PS.
  unfold is_stall_line.
  destruct (is_key_line db l), (PACK_HEADER_RE_match db l),
    (SEGMENT_HEADER_RE_match db l); cbn; auto;
    try (specialize (KS eq_refl); discriminate);
    try (specialize (PS eq_refl); discriminate).
Qed.

Lemma no_stall_no_header (db : UnicodeDB) (lines : list str) :
  Forall (fun l => is_stall_line db l = false) lines
  <-> Forall (fun l => SEGMENT_HEADER_RE_match db l = false) lines.
Proof.
  split; apply Forall_impl; intros l; now rewrite stall_line_is_header.
Qed.

(** X4: [parse_segment] returns exactly when none of the lines its loop
    reads matches the section header; it then takes at most one turn of
    the outer loop for each of these lines, and when one of them does match
    it never returns. *)
Theorem parse_segment_returns_iff_no_header_line (db : UnicodeDB)
  (segment : str) :
  ((exists fuel r, parse_segment db fuel segment = Some r) <->
   Forall (fun l => SEGMENT_HEADER_RE_match db l = false)
          (segment_lines db segment))
  /\ ((exists r, parse_segment db (length (segment_lines db segment)) segment
                 = Some r) <->
      Forall (fun l => SEGMENT_HEADER_RE_match db l = false)
             (segment_lines db segment))
  /\ ((forall fuel, parse_segment db fuel segment = None) <->
      Exists (fun l => SEGMENT_HEADER_RE_match db l = true)
             (segment_lines db segment)).
Proof.
  assert (A : (exists fuel r, parse_segment db fuel segment = Some r) <->
              Forall (fun l => SEGMENT_HEADER_RE_match db l = false)
                     (segment_lines db segment)).
  { rewrite parse_segment_returns_iff. apply no_stall_no_header. }
  assert (B : Forall (fun l => SEGMENT_HEADER_RE_match db l = false)
                     (segment_lines db segment) ->
              exists r, parse_segment db (length (segment_lines db segment))
                          segment = Some r).
  { intros H. apply no_stall_no_header in H.
    destruct (while_loop_terminates db (length (segment_lines db segment))
                (initial_state (segment_lines db segment)) H (le_n _))
      as [fin Hfin].
    exists (article_obj fin). unfold parse_segment. now rewrite Hfin. }
  split; [exact A|]. split.
  - split; [|exact B]. intros [r H]. apply A. eauto.
  - split.
    + intros N.
      destruct (Exists_dec (fun l => SEGMENT_HEADER_RE_match db l = true)
                  (segment_lines db segment)
                  (fun l => bool_dec (SEGMENT_HEADER_RE_match db l) true))
        as [E | E]; [exact E|].
      apply Forall_Exists_neg in E.
      assert (F : Forall (fun l => SEGMENT_HEADER_RE_match db l = false)
                         (segment_lines db segment)).
      { eapply Forall_impl; [|exact E]. cbn. intros l.
        now destruct (SEGMENT_HEADER_RE_match db l). }
      apply B in F as [r F]. rewrite N in F. discriminate.
    + intros E fuel.
      destruct (parse_segment db fuel segment) as [r|] eqn:P;
        [|reflexivity].
      assert (F : Forall (fun l => SEGMENT_HEADER_RE_match db l = false)
                         (segment_lines db segment)) by (apply A; eauto).
      apply Exists_exists in E as (l & Hin & Hl).
      rewrite Forall_forall in F. rewrite (F l Hin) in Hl. discriminate.
Qed.

(** ** The lines the loop of [parse_segment] reads *)

Lemma splitlines_from_no_break (s : str) : forall line after_cr,
  Forall (fun c => is_linebreak c = false) line ->
  Forall (Forall (fun c => is_linebreak c = false))
         (splitlines_from line after_cr s).
Proof.
  induction s as [|c s IH]; intros line cr Hl; cbn [splitlines_from].
  - destruct (is_empty line); repeat constructor; assumption.
  - destruct (cr && N.eqb c c_LF); [apply IH; constructor|].
    destruct (is_linebreak c) eqn:B.
    + constructor; [assumption|]. apply IH. constructor.
    + apply IH. apply Forall_app. split; [assumption|].
      repeat constructor. assumption.
Qed.

Lemma normalize_line_part (P : char -> Prop) (s : str) :
  Forall P s -> Forall P (normalize_line s).
Proof.
  destruct (normalize_line_split s) as (a & b & E & _). intros H.
  rewrite E in H. apply Forall_app in H as [_ H].
  now apply Forall_app in H as [H _].
Qed.

Lemma normalized_lines_In (segment l : str) :
  In l (normalized_lines segment) <->
  exists raw, In raw (splitlines (replace_cr segment))
              /\ l = normalize_line raw /\ l <> [].
Proof.
  unfold normalized_lines. rewrite in_map_iff. split.
  - intros (raw & <- & H). apply filter_In in H as [H N].
    exists raw. repeat split; [assumption|].
    intros E. rewrite E in N. discriminate.
  - intros (raw & H & -> & N). exists raw. split; [reflexivity|].
    apply filter_In. split; [assumption|].
    destruct (normalize_line raw); [congruence | reflexivity].
Qed.

Lemma drop_header_In (db : UnicodeDB) (lines : list str) (l : str) :
  In l (drop_header db lines) -> In l lines.
Proof.
  unfold drop_header. destruct lines as [|l0 rest]; [auto|].
  destruct (startswith HEADER_LITERAL (str_upper db l0)); [now right | auto].
Qed.

Lemma segment_lines_In (db : UnicodeDB) (segment l : str) :
  In l (segment_lines db segment) ->
  l <> [] /\ ends_free isspace l
  /\ Forall (fun c => is_linebreak c = false) l
  /\ exists raw, In raw (splitlines (replace_cr segment))
                 /\ l = normalize_line raw.
Proof.
  intros H. apply drop_header_In, normalized_lines_In in H
    as (raw & Hraw & -> & N).
  split; [assumption|]. split; [apply strip_ends_free|].
  split; [|eauto].
  apply normalize_line_part.
  pose proof (splitlines_from_no_break (replace_cr segment) [] false
                (Forall_nil _)) as F.
  rewrite Forall_forall in F. now apply F.
Qed.

(** X5: every line the loop of [parse_segment] reads is the normalized form
    of a line of the segment; it is not empty, neither begins nor ends
    with white space, and holds no line boundary (so no line feed, which
    the patterns treat apart).  At most the first of the normalized lines
    is left out. *)
Theorem lines_read_by_the_loop (db : UnicodeDB) (segment : str) :
  Forall (fun l => l <> [] /\ ends_free isspace l
                   /\ Forall (fun c => is_linebreak c = false) l
                   /\ Forall (fun c => N.eqb c c_LF = false) l
                   /\ exists raw, In raw (splitlines (replace_cr segment))
                                  /\ l = normalize_line raw)
         (segment_lines db segment)
  /\ (segment_lines db segment = normalized_lines segment
      \/ segment_lines db segment = tl (normalized_lines segment)).
Proof.
  split.
  - apply Forall_forall. intros l H.
    apply segment_lines_In in H as (N & E & B & R).
    repeat split; try assumption; try (now apply E).
    eapply Forall_impl; [|exact B]. cbn. intros c Hc.
    destruct (N.eqb_spec c c_LF) as [-> |]; [discriminate Hc | reflexivity].
  - unfold segment_lines, drop_header.
    destruct (normalized_lines segment) as [|l0 rest]; [now left|].
    destruct (startswith HEADER_LITERAL (str_upper db l0)); cbn; auto.
Qed.

(** ** Key lines built from a code and a label *)

Section KeyLines.

Variable db : UnicodeDB.

Lemma span_all {A} (p : A -> bool) (l : list A) :
  Forall (fun x => p x = true) l -> span p l = (l, []).
Proof.
  intros H. rewrite <- (app_nil_r l) at 1.
  now rewrite (span_stop p l []).
Qed.

Lemma key_shape_nonempty code : key_code_shape db code -> code <> [].
Proof. now intros [|]. Qed.

Lemma key_shape_ends code : key_code_shape db code -> ends_free isspace code.
Proof.
  intros [l L _ | d ds l Hd L]; split; intros c H.
  - cbn in H. now injection H as <-.
  - cbn in H. injection H as <-. now apply letter_not_space in L.
  - cbn in H. now injection H as <-.
  - unfold last_char in H. rewrite rev_unit in H. cbn in H.
    injection H as <-. now apply letter_not_space in L.
Qed.

Lemma key_label_ok code g2 :
  key_code_shape db code ->
  key_label code g2 <> [] /\ ends_free isspace (key_label code g2).
Proof.
  intros Sh. unfold key_label.
  destruct g2 as [g|];
    [|split; [now apply key_shape_nonempty | now apply key_shape_ends]].
  destruct (negb (is_empty g) && negb (is_empty (strip isspace g))) eqn:E;
    [|split; [now apply key_shape_nonempty | now apply key_shape_ends]].
  apply andb_true_iff in E as [_ E]. split; [|apply strip_ends_free].
  intros N. rewrite N in E. discriminate.
Qed.

Lemma all_keys_In lines code label :
  In (code, label) (all_keys db lines) <->
  exists l g2, In l lines /\ KEY_RE_match db l = Some (code, g2)
               /\ label = key_label code g2.
Proof.
  unfold all_keys. rewrite in_flat_map. unfold key_of_line. split.
  - intros (l & Hl & H).
    destruct (KEY_RE_match db l) as [[c g2]|] eqn:K; [|contradiction].
    destruct H as [H|[]]. injection H as -> <-. eauto.
  - intros (l & g2 & Hl & K & ->). exists l. rewrite K. split; [assumption|].
    now left.
Qed.

Lemma all_keys_label_ok lines code label :
  In (code, label) (all_keys db lines) ->
  label <> [] /\ ends_free isspace label.
Proof.
  intros H. apply all_keys_In in H as (l & g2 & _ & K & ->).
  apply KEY_RE_match_sound in K as (r & _ & Sh). now apply key_label_ok.
Qed.

Lemma key_of_line_code_only code ws :
  key_code_shape db code -> Forall (fun c => isspace c = true) ws ->
  key_of_line db (code ++ ws) = Some (code, code).
Proof.
  intros Sh Hws. unfold key_of_line, KEY_RE_match.
  rewrite (key_code_complete db code ws Sh). unfold key_tail.
  destruct ws as [|w ws]; [reflexivity|].
  rewrite (span_all isspace (w :: ws) Hws). reflexivity.
Qed.

Lemma key_of_line_labelled code ws label :
  key_code_shape db code ->
  ws <> [] -> Forall (fun c => isspace c = true) ws ->
  label <> [] -> ends_free isspace label ->
  Forall (fun c => N.eqb c c_LF = false) label ->
  key_of_line db (code ++ ws ++ label) = Some (code, label).
Proof.
  intros Sh Hne Hws Hl He Hlf. unfold key_of_line, KEY_RE_match.
  rewrite (key_code_complete db code (ws ++ label) Sh). unfold key_tail.
  destruct (ws ++ label) as [|x r] eqn:E.
  { apply app_eq_nil in E as [-> _]. congruence. }
  rewrite <- E.
  assert (Hd : match label with
               | c :: _ => isspace c = false | [] => True end).
  { destruct label as [|c label]; [exact I|]. now apply (proj1 He). }
  rewrite (span_stop isspace ws label Hws Hd).
  destruct ws as [|w ws]; [congruence|]. cbn [is_empty].
  assert (Hlf' : Forall (fun c => negb (N.eqb c c_LF) = true) label).
  { eapply Forall_impl; [|exact Hlf]. cbn. now intros c ->. }
  rewrite (span_all _ label Hlf'). unfold key_label.
  rewrite (strip_fixed isspace label He).
  destruct label; [congruence | reflexivity].
Qed.

Lemma key_of_line_glued code x r :
  key_code_shape db code -> isspace x = false ->
  key_of_line db (code ++ x :: r) = None.
Proof.
  intros Sh Hx. unfold key_of_line, KEY_RE_match.
  rewrite (key_code_complete db code (x :: r) Sh). unfold key_tail.
  cbn [span]. rewrite Hx. reflexivity.
Qed.

End KeyLines.

(** X6: a key line is read back as it was built.  For a code of the shape
    [KEY_RE] asks for: the code alone, or followed by white space only,
    is a key line whose label is the code; the code, white space and a
    label (not empty, without white space at its ends, without line feed)
    is a key line with that code and that label; and the code followed at
    once by a character that is no white space is no key line. *)
Theorem key_line_round_trip (db : UnicodeDB) (code : str) :
  key_code_shape db code ->
  (forall ws, Forall (fun c => isspace c = true) ws ->
              key_of_line db (code ++ ws) = Some (code, code))
  /\ (forall ws label,
         ws <> [] -> Forall (fun c => isspace c = true) ws ->
         label <> [] -> ends_free isspace label ->
         Forall (fun c => N.eqb c c_LF = false) label ->
         key_of_line db (code ++ ws ++ label) = Some (code, label))
  /\ (forall x r, isspace x = false ->
                  key_of_line db (code ++ x :: r) = None).
Proof.
  intros Sh. split; [|split].
  - intros ws. now apply key_of_line_code_only.
  - intros ws label. now apply key_of_line_labelled.
  - intros x r. now apply key_of_line_glued.
Qed.

(** The round trip for the code [17.1a]. *)
Lemma key_line_round_trip_witness :
  key_code_shape ascii_db (lit "17.1a")
  /\ key_of_line ascii_db (lit "17.1a" ++ lit "  ")
     = Some (lit "17.1a", lit "17.1a")
  /\ key_of_line ascii_db (lit "17.1a" ++ lit "  " ++ lit "Anzahl der Fass")
     = Some (lit "17.1a", lit "Anzahl der Fass")
  /\ key_of_line ascii_db (lit "17.1a" ++ lit "b") = None.
Proof.
  assert (Sh : key_code_shape ascii_db (lit "17.1a")).
  { apply (shape_sub ascii_db 49%N [] 97%N); [|reflexivity].
    constructor; [reflexivity | constructor]. }
  split; [exact Sh|].
  destruct (key_line_round_trip ascii_db (lit "17.1a") Sh) as (A & B & C).
  split; [|split].
  - apply A. repeat constructor.
  - apply B.
    + discriminate.
    + repeat constructor.
    + discriminate.
    + split; intros c H; vm_compute in H; injection H as <-; reflexivity.
    + repeat constructor.
  - exact (C 98%N [] eq_refl).
Defined.

(** ** What a record holds *)

Section Contents.

Variable db : UnicodeDB.

Lemma article_obj_dict fin name d :
  dict_get (article_obj fin) name = Some (VDict d) ->
  (name = MAIN_SECTION /\ d = st_mapping fin)
  \/ (name = PACK_SECTION /\ d = st_pack fin).
Proof.
  unfold article_obj. cbn [app dict_get].
  destruct (str_eqb MAIN_SECTION name) eqn:M.
  { apply str_eqb_eq in M. intros E. injection E as <-. now left. }
  destruct (is_empty (st_pack fin)); cbn [app dict_get].
  - destruct (is_empty (st_pending fin)); cbn [dict_get]; [discriminate|].
    destruct (str_eqb UNMAPPED_SECTION name); discriminate.
  - destruct (str_eqb PACK_SECTION name) eqn:P.
    { apply str_eqb_eq in P. intros E. injection E as <-. now right. }
    destruct (is_empty (st_pending fin)); cbn [dict_get]; [discriminate|].
    destruct (str_eqb UNMAPPED_SECTION name); discriminate.
Qed.

Lemma value_source_ok segment v :
  value_source db [] (segment_lines db segment) v ->
  ends_free isspace v /\ Forall (fun c => is_linebreak c = false) v.
Proof.
  intros [-> | [[] | H]].
  - split; [split; discriminate | constructor].
  - unfold value_lines in H. apply filter_In in H as [H _].
    apply segment_lines_In in H as (_ & E & B & _). auto.
Qed.

End Contents.

(** X7: in a record [parse_segment] returns, no label is the empty string
    and no label or value begins or ends with white space; no value holds
    a line boundary; and the unmapped list, when there is one, holds
    lines of the segment that are not empty and match none of the three
    patterns. *)
Theorem record_contents_are_trimmed (db : UnicodeDB) (fuel : nat)
  (segment : str) (r : record) :
  parse_segment db fuel segment = Some r ->
  (forall name label v,
      record_get r name label = Some v ->
      label <> [] /\ ends_free isspace label /\ ends_free isspace v
      /\ Forall (fun c => is_linebreak c = false) v)
  /\ (forall u v,
         dict_get r UNMAPPED_SECTION = Some (VList u) -> In v u ->
         v <> [] /\ ends_free isspace v
         /\ Forall (fun c => is_linebreak c = false) v
         /\ In v (segment_lines db segment)
         /\ is_value_line db v = true).
Proof.
  intros H. apply parse_segment_some in H as (fin & H & ->).
  pose proof (while_loop_keys db fuel _ _ H) as K.
  pose proof (while_loop_values db fuel _ _ H) as (Vp & Vm & Vk).
  cbn [initial_state st_lines st_mapping st_pack st_pending dict_keys map
       dict_get] in *.
  split.
  - intros name label v G. unfold record_get in G.
    destruct (dict_get (article_obj fin) name) as [[d|]|] eqn:D;
      try discriminate.
    assert (Hl : exists pack, keys_of db pack (segment_lines db segment) label).
    { apply article_obj_dict in D as [[_ ->] | [_ ->]].
      - exists false. assert (I : In label (dict_keys (st_mapping fin)))
          by (apply dict_get_In_keys; eauto).
        apply K in I as [[] | I]. exact I.
      - exists true. assert (I : In label (dict_keys (st_pack fin)))
          by (apply dict_get_In_keys; eauto).
        apply K in I as [[] | I]. exact I. }
    assert (Hv : value_source db [] (segment_lines db segment) v).
    { apply article_obj_dict in D as [[_ ->] | [_ ->]].
      - apply Vm in G as [G | G]; [discriminate | exact G].
      - apply Vk in G as [G | G]; [discriminate | exact G]. }
    destruct Hl as (pack & code & Hin & _).
    apply all_keys_label_ok in Hin as [L1 L2].
    apply value_source_ok in Hv as [V1 V2]. auto.
  - intros u v D Hin. rewrite article_obj_unmapped in D.
    destruct (is_empty (st_pending fin)); [discriminate|].
    injection D as <-. apply Vp in Hin as [[] | Hin].
    unfold value_lines in Hin. apply filter_In in Hin as [Hin Hv].
    pose proof (segment_lines_In db segment v Hin) as (N & E & B & _).
    auto.
Qed.

(** The routing example: labels and values of its record. *)
Lemma record_contents_are_trimmed_witness :
  parse_segment ascii_db 2 routing_segment = Some routing_record
  /\ (forall name label v,
         record_get routing_record name label = Some v ->
         label <> [] /\ ends_free isspace label /\ ends_free isspace v
         /\ Forall (fun c => is_linebreak c = false) v).
Proof.
  assert (H : parse_segment ascii_db 2 routing_segment = Some routing_record)
    by (vm_compute; reflexivity).
  split; [exact H|].
  exact (proj1 (record_contents_are_trimmed ascii_db 2 routing_segment
                  routing_record H)).
Defined.

(** ** Segments whose keys and values come in matching groups *)

Section Aligned.

Variable db : UnicodeDB.

Lemma collect_keys_app keylines rest :
  Forall (fun l => is_key_line db l = true) keylines ->
  match rest with l :: _ => is_key_line db l = false | [] => True end ->
  collect_keys db (keylines ++ rest) = (all_keys db keylines, rest).
Proof.
  intros Hk Hr. induction Hk as [|l keylines Hl _ IH]; cbn [app].
  - destruct rest as [|l rest]; [reflexivity|]. cbn [collect_keys].
    unfold is_key_line in Hr.
    destruct (KEY_RE_match db l) as [[code g2]|]; [discriminate | reflexivity].
  - cbn [collect_keys]. rewrite all_keys_cons. unfold key_of_line.
    unfold is_key_line in Hl.
    destruct (KEY_RE_match db l) as [[code g2]|]; [|discriminate].
    now rewrite IH.
Qed.

Lemma collect_values_app vals rest :
  Forall (fun l => is_value_line db l = true) vals ->
  match rest with l :: _ => is_value_line db l = false | [] => True end ->
  collect_values db (vals ++ rest) = (vals, rest).
Proof. apply span_stop. Qed.

Lemma aligned_head lines kvs :
  aligned db lines kvs ->
  match lines with l :: _ => is_value_line db l = false | [] => True end.
Proof.
  intros [|l lines' kvs' P _ | keylines vals lines' kvs' Hne Hk _ _ _].
  - exact I.
  - now apply pack_header_not_value.
  - destruct Hk as [|k keylines Hk _]; [congruence|].
    cbn [app]. now apply key_line_not_value.
Qed.

Lemma aligned_shapes lines kvs :
  aligned db lines kvs ->
  Forall (fun w => key_code_shape db (fst (fst w))) kvs.
Proof.
  induction 1 as [| |keylines vals lines kvs Hne Hk Hv Hlen _ IH];
    [constructor | assumption |].
  apply Forall_app. split; [|assumption].
  apply Forall_forall. intros [[code label] v] Hin.
  apply in_combine_l in Hin. cbn. eapply all_keys_shape; eauto.
Qed.

(** One turn of the loop on a group of key lines followed by as many
    value lines, nothing being pending. *)
Lemma loop_body_group keylines vals lines m p :
  keylines <> [] ->
  Forall (fun l => is_key_line db l = true) keylines ->
  Forall (fun l => is_value_line db l = true) vals ->
  length vals = length keylines ->
  match lines with l :: _ => is_value_line db l = false | [] => True end ->
  loop_body db {| st_lines := keylines ++ vals ++ lines; st_mapping := m;
                  st_pack := p; st_pending := [] |}
  = {| st_lines := lines;
       st_mapping := fst (fold_left (store db)
                            (combine (all_keys db keylines) vals) (m, p));
       st_pack := snd (fold_left (store db)
                         (combine (all_keys db keylines) vals) (m, p));
       st_pending := [] |}.
Proof.
  intros Hne Hk Hv Hlen Hr.
  destruct keylines as [|k kl]; [congruence|].
  set (st := {| st_lines := (k :: kl) ++ vals ++ lines; st_mapping := m;
                st_pack := p; st_pending := [] |}).
  assert (Hvals : vals <> []) by (intros ->; discriminate).
  assert (Hh : match vals ++ lines with
               | l :: _ => is_key_line db l = false | [] => True end).
  { destruct Hv as [|v vals Hv _]; [congruence|]. cbn [app].
    now apply value_line_inv in Hv. }
  assert (L : st_lines st = k :: (kl ++ vals ++ lines)) by reflexivity.
  assert (CK : collect_keys db (k :: (kl ++ vals ++ lines))
               = (all_keys db (k :: kl), vals ++ lines))
    by (apply (collect_keys_app (k :: kl) (vals ++ lines) Hk Hh)).
  assert (Hn : length (all_keys db (k :: kl)) = length vals)
    by (rewrite all_keys_length by assumption; now symmetry).
  assert (Hkg : all_keys db (k :: kl) <> []).
  { intros E. rewrite E in Hn. cbn in Hn. destruct vals; [congruence|].
    discriminate. }
  destruct (loop_body_reconcile db st k (kl ++ vals ++ lines)
              (all_keys db (k :: kl)) (vals ++ lines) vals lines
              L CK Hkg (collect_values_app vals lines Hv Hr))
    as (El & Em & Ep).
  cbn [st st_pending st_mapping st_pack app] in Em, Ep.
  unfold reconcile in Em.
  rewrite paired_values_fewer in Em by lia.
  rewrite Hn, Nat.sub_diag in Em. cbn [repeat] in Em.
  rewrite app_nil_r in Em.
  rewrite Hn, skipn_all in Ep.
  destruct (loop_body db st) as [a b c d].
  cbn [st_lines st_mapping st_pack st_pending] in El, Em, Ep. subst a d.
  rewrite <- Em. reflexivity.
Qed.

Lemma aligned_run lines kvs :
  aligned db lines kvs -> forall m p,
  exists fin,
    while_loop db (length lines)
      {| st_lines := lines; st_mapping := m; st_pack := p;
         st_pending := [] |} = Some fin
    /\ (st_mapping fin, st_pack fin) = fold_left (store db) kvs (m, p)
    /\ st_pending fin = [].
Proof.
  induction 1 as [|l lines kvs P A IH
                  |keylines vals lines kvs Hne Hk Hv Hlen A IH]; intros m p.
  - eexists. cbn. repeat split.
  - destruct (IH m p) as (fin & R & E & Pn). exists fin.
    split; [|auto]. cbn [length while_loop st_lines].
    unfold loop_body. cbn [st_lines st_mapping st_pack st_pending].
    now rewrite P.
  - set (maps := fold_left (store db) (combine (all_keys db keylines) vals)
                           (m, p)).
    destruct (IH (fst maps) (snd maps)) as (fin & R & E & Pn). exists fin.
    split; [|split; [|assumption]].
    + pose proof (loop_body_group keylines vals lines m p Hne Hk Hv Hlen
                    (aligned_head lines kvs A)) as LB.
      fold maps in LB.
      assert (W : while_loop db (length (keylines ++ vals ++ lines) - 1)
                    {| st_lines := lines; st_mapping := fst maps;
                       st_pack := snd maps; st_pending := [] |} = Some fin).
      { apply (while_loop_more db (length lines)); [exact R|].
        rewrite !length_app. destruct keylines; [congruence|]. cbn. lia. }
      destruct keylines as [|k kl]; [congruence|].
      cbn [app length while_loop st_lines].
      replace (length ((k :: kl) ++ vals ++ lines) - 1)
        with (length (kl ++ vals ++ lines)) in W by (cbn; lia).
      cbn [app] in LB. rewrite LB. exact W.
    + rewrite fold_left_app. fold maps. now destruct maps.
Qed.

Lemma dict_set_fresh {V} (d : dict V) k v :
  ~ In k (dict_keys d) -> dict_set d k v = d ++ [(k, v)].
Proof.
  induction d as [|[k' v'] d IH]; cbn; [reflexivity|]. intros N.
  destruct (str_eqb k' k) eqn:E.
  - apply str_eqb_eq in E. tauto.
  - f_equal. apply IH. tauto.
Qed.

(** With labels that are all different, every assignment adds an entry
    at the end of its mapping. *)
Lemma fold_store_fresh kvs : forall m p,
  NoDup (map (fun w => snd (fst w)) kvs) ->
  (forall k, In k (map (fun w => snd (fst w)) kvs) ->
             ~ In k (dict_keys m) /\ ~ In k (dict_keys p)) ->
  fold_left (store db) kvs (m, p)
  = (m ++ entries_of db false kvs, p ++ entries_of db true kvs).
Proof.
  induction kvs as [|[[code label] v] kvs IH]; intros m p ND Fr.
  - cbn. now rewrite !app_nil_r.
  - cbn [map fst snd] in ND, Fr. inversion ND as [|? ? Hnin ND']; subst.
    destruct (Fr label (or_introl eq_refl)) as [Fm Fp].
    cbn [fold_left store fst snd]. unfold entries_of.
    cbn [filter map fst snd].
    destruct (is_pack_code db code); cbn [Bool.eqb map fst snd].
    + rewrite (dict_set_fresh p label v Fp). rewrite IH; [|assumption|].
      * unfold entries_of. now rewrite <- app_assoc.
      * intros k Hk. destruct (Fr k (or_intror Hk)) as [Fm' Fp'].
        split; [assumption|]. unfold dict_keys. rewrite map_app, in_app_iff.
        cbn. intros [I | [<- | []]]; [now apply Fp'|]. contradiction.
    + rewrite (dict_set_fresh m label v Fm). rewrite IH; [|assumption|].
      * unfold entries_of. now rewrite <- app_assoc.
      * intros k Hk. destruct (Fr k (or_intror Hk)) as [Fm' Fp'].
        split; [|assumption]. unfold dict_keys. rewrite map_app, in_app_iff.
        cbn. intros [I | [<- | []]]; [now apply Fm'|]. contradiction.
Qed.

End Aligned.

(** X8: the segment the code is written for.  When the lines of a segment
    are groups of key lines, each followed by as many value lines, with
    sub-section headers anywhere between the groups, and no label occurs
    twice, then [parse_segment] returns, after at most one turn per line;
    the record holds every key with the value at the same place in its
    group, in the mapping its code selects and in the order of the lines;
    the packages entry is there exactly when a code selects it, and there
    is no unmapped list. *)
Theorem aligned_segment_is_parsed (db : UnicodeDB) (segment : str)
  (kvs : list ((str * str) * str)) :
  aligned db (segment_lines db segment) kvs ->
  NoDup (map (fun w => snd (fst w)) kvs) ->
  parse_segment db (length (segment_lines db segment)) segment
  = Some ([(MAIN_SECTION, VDict (entries_of db false kvs))]
          ++ (if is_empty (entries_of db true kvs) then []
              else [(PACK_SECTION, VDict (entries_of db true kvs))]))
  /\ (forall r code label v,
         parse_segment db (length (segment_lines db segment)) segment
         = Some r ->
         In ((code, label), v) kvs ->
         record_get r (section_of code) label = Some v).
Proof.
  intros A ND.
  destruct (aligned_run db _ _ A [] []) as (fin & R & E & Pn).
  assert (P : parse_segment db (length (segment_lines db segment)) segment
              = Some (article_obj fin)).
  { unfold parse_segment, initial_state. now rewrite R. }
  split.
  - rewrite P. f_equal. unfold article_obj. rewrite Pn. cbn [is_empty].
    rewrite (fold_store_fresh db kvs [] [] ND) in E by (cbn; tauto).
    cbn [app] in E. injection E as -> ->. now rewrite app_nil_r.
  - intros r code label v Hr Hin. rewrite P in Hr. injection Hr as <-.
    pose proof (aligned_shapes db _ _ A) as Sh.
    rewrite Forall_forall in Sh. specialize (Sh _ Hin). cbn in Sh.
    assert (G : dict_get (bucket db (st_mapping fin, st_pack fin) code) label
                = Some v)
      by (rewrite E; now apply fold_store_get).
    unfold bucket in G. unfold section_of.
    rewrite (is_pack_code_prefix db code Sh) in G.
    destruct (startswith (lit "17.1") code); cbn [fst snd] in G.
    + now rewrite record_get_pack.
    + now rewrite record_get_main.
Qed.

(** A segment of two groups with a sub-section header between them. *)
Lemma aligned_segment_is_parsed_witness :
  parse_segment ascii_db 5 grouped_segment
  = Some [(MAIN_SECTION, VDict [(lit "A", lit "v1"); (lit "B", lit "v2")]);
          (PACK_SECTION, VDict [(lit "P", lit "v3")])].
Proof.
  assert (L : segment_lines ascii_db grouped_segment
              = [lit "17a A"; lit "17b B"] ++ [lit "v1"; lit "v2"]
                ++ lit "17.1 PACKSTUCKE"
                   :: ([lit "17.1a P"] ++ [lit "v3"] ++ []))
    by (vm_compute; reflexivity).
  assert (A : aligned ascii_db (segment_lines ascii_db grouped_segment)
                [((lit "17a", lit "A"), lit "v1");
                 ((lit "17b", lit "B"), lit "v2");
                 ((lit "17.1a", lit "P"), lit "v3")]).
  { rewrite L.
    apply (aligned_group ascii_db [lit "17a A"; lit "17b B"]
             [lit "v1"; lit "v2"] _ [((lit "17.1a", lit "P"), lit "v3")]).
    - discriminate.
    - repeat constructor.
    - repeat constructor.
    - reflexivity.
    - apply aligned_header; [reflexivity|].
      apply (aligned_group ascii_db [lit "17.1a P"] [lit "v3"] [] []).
      + discriminate.
      + repeat constructor.
      + repeat constructor.
      + reflexivity.
      + constructor. }
  assert (ND : NoDup (map (fun w : (str * str) * str => snd (fst w))
                        [((lit "17a", lit "A"), lit "v1");
                         ((lit "17b", lit "B"), lit "v2");
                         ((lit "17.1a", lit "P"), lit "v3")])).
  { cbn. repeat constructor; cbn; intuition discriminate. }
  exact (proj1 (aligned_segment_is_parsed ascii_db grouped_segment _ A ND)).
Defined.

(** X9: from a segment without key lines [parse_segment] can only return
    an empty main mapping, no packages mapping, and as unmapped values
    all the lines that match none of the three patterns, in their order;
    when there is no such line the record has the main entry alone. *)
Theorem segment_without_key_lines (db : UnicodeDB) (fuel : nat)
  (segment : str) (r : record) :
  parse_segment db fuel segment = Some r ->
  all_keys db (segment_lines db segment) = [] ->
  r = [(MAIN_SECTION, VDict [])]
      ++ (if is_empty (value_lines db (segment_lines db segment)) then []
          else [(UNMAPPED_SECTION,
                 VList (value_lines db (segment_lines db segment)))]).
Proof.
  intros H K. apply parse_segment_some in H as (fin & H & ->).
  destruct (while_loop_no_keys db fuel _ _ H K) as (Em & Ep & En).
  cbn [initial_state st_lines st_mapping st_pack st_pending app] in *.
  unfold article_obj. now rewrite Em, Ep, En.
Qed.

(** A header line and one line without key. *)
Lemma segment_without_key_lines_witness :
  parse_segment ascii_db 1 stray_value_text = Some stray_value_record
  /\ stray_value_record
     = [(MAIN_SECTION, VDict []); (UNMAPPED_SECTION, VList [lit "x"])].
Proof.
  assert (H : parse_segment ascii_db 1 stray_value_text
              = Some stray_value_record) by (vm_compute; reflexivity).
  split; [exact H|].
  exact (segment_without_key_lines ascii_db 1 stray_value_text
           stray_value_record H eq_refl).
Defined.

(** ** Labels that repeat within a group *)

Section Repeats.

Variable db : UnicodeDB.

Lemma nth_error_combine {A B} (l : list A) : forall (l' : list B) i x y,
  nth_error l i = Some x -> nth_error l' i = Some y ->
  nth_error (combine l l') i = Some (x, y).
Proof.
  induction l as [|a l IH]; intros [|b l'] [|i] x y; cbn; try discriminate.
  - congruence.
  - apply IH.
Qed.

Lemma nth_error_combine_l {A B} (l : list A) : forall (l' : list B) i x y,
  nth_error (combine l l') i = Some (x, y) -> nth_error l i = Some x.
Proof.
  induction l as [|a l IH]; intros [|b l'] [|i] x y; cbn; try discriminate.
  - congruence.
  - apply IH.
Qed.

Lemma received_nth_error n values i :
  i < n -> nth_error (received n 0 values) i = Some (nth i values []).
Proof.
  intros Hi. rewrite <- (received_nth n values i Hi).
  apply nth_error_nth'. now rewrite received_length.
Qed.

(** An assignment to the other mapping leaves a label of this one as it
    is. *)
Lemma store_other_bucket maps code' label v code :
  is_pack_code db code' <> is_pack_code db code ->
  dict_get (bucket db (store db maps ((code', label), v)) code) label
  = dict_get (bucket db maps code) label.
Proof.
  unfold store, bucket.
  destruct (is_pack_code db code'), (is_pack_code db code); cbn;
    congruence.
Qed.

Lemma fold_store_untouched ws : forall maps code label,
  (forall code' v', In ((code', label), v') ws ->
                    is_pack_code db code' <> is_pack_code db code) ->
  dict_get (bucket db (fold_left (store db) ws maps) code) label
  = dict_get (bucket db maps code) label.
Proof.
  induction ws as [|[[c0 l0] v0] ws IH]; intros maps code label H;
    [reflexivity|].
  cbn [fold_left]. rewrite IH by (intros c v Hin; apply (H c v); now right).
  destruct (str_eqb l0 label) eqn:E.
  - apply str_eqb_eq in E. subst l0. apply store_other_bucket.
    apply (H c0 v0). now left.
  - apply str_eqb_neq in E. apply store_other. congruence.
Qed.

Lemma fold_store_last ws : forall maps i code label v,
  nth_error ws i = Some ((code, label), v) ->
  (forall j code' v', i < j -> nth_error ws j = Some ((code', label), v') ->
                      is_pack_code db code' <> is_pack_code db code) ->
  dict_get (bucket db (fold_left (store db) ws maps) code) label = Some v.
Proof.
  induction ws as [|w ws IH]; intros maps [|i] code label v Hi Hlast;
    cbn in Hi; try discriminate.
  - injection Hi as ->. cbn [fold_left]. rewrite fold_store_untouched.
    + apply store_same.
    + intros code' v' Hin. apply In_nth_error in Hin as [j Hj].
      apply (Hlast (S j) code' v'); [lia | exact Hj].
  - cbn [fold_left]. apply (IH _ i); [assumption|].
    intros j code' v' Hj. apply (Hlast (S j) code' v'). lia.
Qed.

End Repeats.

(** X10: when a label occurs more than once in a group of keys, the last
    key that carries it for a mapping decides: after the assignment loop
    the label is bound, in the mapping the code of key [idx] selects, to
    the value of key [idx], provided no later key of the group writes the
    same label to the same mapping. *)
Theorem last_write_wins (db : UnicodeDB) (key_group : list (str * str))
  (values : list str) (maps : dict str * dict str) (idx : nat)
  (code label : str) :
  nth_error key_group idx = Some (code, label) ->
  (forall j code', idx < j -> nth_error key_group j = Some (code', label) ->
                   is_pack_code db code' <> is_pack_code db code) ->
  dict_get (bucket db (assign_keys db key_group 0 values maps) code) label
  = Some (if idx <? length values then nth idx values [] else []).
Proof.
  intros Hk Hlast.
  assert (E : (if idx <? length values then nth idx values [] else [])
              = nth idx values []).
  { destruct (Nat.ltb_spec idx (length values)); [reflexivity|].
    symmetry. now apply nth_overflow. }
  rewrite E, assign_keys_fold.
  assert (Hi : idx < length key_group)
    by (apply nth_error_Some; congruence).
  apply (fold_store_last db _ maps idx).
  - apply nth_error_combine; [assumption|]. now apply received_nth_error.
  - intros j code' v' Hj Hn. apply nth_error_combine_l in Hn.
    now apply (Hlast j code').
Qed.

(** Two keys with the label [A] and two values: the second value stays. *)
Lemma last_write_wins_witness :
  dict_get (bucket ascii_db
              (assign_keys ascii_db
                 [(lit "17a", lit "A"); (lit "17b", lit "A")] 0
                 [lit "v1"; lit "v2"] ([], []))
              (lit "17b")) (lit "A")
  = Some (lit "v2").
Proof.
  apply (last_write_wins ascii_db
           [(lit "17a", lit "A"); (lit "17b", lit "A")]
           [lit "v1"; lit "v2"] ([], []) 1 (lit "17b") (lit "A") eq_refl).
  intros [|[|[|j]]] code' Hj Hn; cbn in Hn; try lia; discriminate.
Defined.

(** ** What the segments cover *)

Section Cover.

Variable db : UnicodeDB.

(** Before the first position the scan reports the pattern matches
    nowhere. *)
Lemma finditer_from_first s : forall bol pos p rest,
  finditer_from db 0 bol pos s = p :: rest ->
  forall i, i < p - pos -> matches_at db bol s i = false.
Proof.
  induction s as [|c s IH]; intros bol pos p rest; cbn [finditer_from];
    [discriminate|].
  assert (H0 : matches_at db bol (c :: s) 0
               = match (if bol then header_at db (c :: s) else None) with
                 | Some _ => true | None => false end).
  { unfold matches_at. cbn [line_start skipn]. now destruct bol. }
  destruct (if bol then header_at db (c :: s) else None) as [r|].
  - intros E. injection E as <- _. intros i Hi. lia.
  - intros E [|i] Hi; [assumption|]. rewrite matches_at_cons.
    apply (IH _ _ _ _ E). lia.
Qed.

Lemma slice_then_rest (raw : str) a b :
  a <= b -> slice raw a b ++ skipn b raw = skipn a raw.
Proof.
  intros H. unfold slice.
  replace (skipn b raw) with (skipn (b - a) (skipn a raw))
    by (rewrite skipn_skipn; f_equal; lia).
  apply firstn_skipn.
Qed.

Lemma segments_between_concat (raw : str) starts : forall a,
  StronglySorted lt (a :: starts) ->
  concat (segments_between raw (a :: starts)) = skipn a raw.
Proof.
  induction starts as [|b starts IH]; intros a Hs.
  - cbn. apply app_nil_r.
  - change (segments_between raw (a :: b :: starts))
      with (slice raw a b :: segments_between raw (b :: starts)).
    cbn [concat]. inversion Hs as [|? ? Hs' Ha]; subst.
    rewrite (IH b Hs'). apply slice_then_rest.
    inversion Ha; subst. lia.
Qed.

Lemma segments_between_nonempty (raw : str) starts :
  StronglySorted lt starts ->
  Forall (fun p => p < length raw) starts ->
  Forall (fun seg : str => seg <> []) (segments_between raw starts).
Proof.
  induction starts as [|a starts IH]; intros Hs Hb; [constructor|].
  inversion Hs as [|? ? Hs' Ha]; subst.
  inversion Hb as [|? ? Hlt Hb']; subst.
  destruct starts as [|b starts].
  - cbn. constructor; [|constructor]. intros E.
    apply (f_equal (@length _)) in E. rewrite length_skipn in E. cbn in E. lia.
  - change (segments_between raw (a :: b :: starts))
      with (slice raw a b :: segments_between raw (b :: starts)).
    constructor; [|now apply IH]. intros E.
    apply (f_equal (@length _)) in E. unfold slice in E.
    rewrite length_firstn, length_skipn in E. cbn in E.
    inversion Ha; subst. lia.
Qed.

End Cover.

(** X11: the segments are the text from its first header on, cut in
    pieces: joined in order they give back that text, character for
    character, and none of them is empty.  What comes before the first
    place where the header pattern matches is in no segment. *)
Theorem segments_cover_the_text (db : UnicodeDB) (raw_text : str)
  (first : nat) (others : list nat) :
  header_starts db raw_text = first :: others ->
  concat (split_into_segments db raw_text) = skipn first raw_text
  /\ (forall i, i < first -> header_occurs db raw_text i = false)
  /\ header_occurs db raw_text first = true
  /\ Forall (fun seg : str => seg <> []) (split_into_segments db raw_text).
Proof.
  intros E. rewrite split_into_segments_between.
  pose proof (header_starts_sorted db raw_text) as Hs.
  assert (Hb : Forall (fun p => p < length raw_text)
                 (header_starts db raw_text)).
  { apply Forall_forall. intros p Hp. now apply header_starts_sound in Hp. }
  split; [|split; [|split]].
  - rewrite E in *. now apply segments_between_concat.
  - intros i Hi. unfold header_starts in E.
    apply (finditer_from_first db raw_text true 0 first others E). lia.
  - apply (header_starts_sound db raw_text first). rewrite E. now left.
  - now apply segments_between_nonempty.
Qed.

(** A text with one line before its first header. *)
Lemma segments_cover_the_text_witness :
  header_starts ascii_db preamble_text = [4; 31]
  /\ concat (split_into_segments ascii_db preamble_text)
     = two_segments_text
  /\ (forall i, i < 4 -> header_occurs ascii_db preamble_text i = false).
Proof.
  assert (E : header_starts ascii_db preamble_text = [4; 31])
    by (vm_compute; reflexivity).
  split; [exact E|].
  destruct (segments_cover_the_text ascii_db preamble_text 4 [31] E)
    as (C & F & _).
  split; [exact C | exact F].
Defined.

(** ** [parse_articles]: every segment is parsed *)

Section Articles.

Variable db : UnicodeDB.

Lemma parse_all_some fuel segs : forall rs,
  parse_all db fuel segs = Some rs <->
  Forall2 (fun seg r => parse_segment db fuel seg = Some r) segs rs.
Proof.
  induction segs as [|seg segs IH]; intros rs; cbn [parse_all].
  - split.
    + intros H. injection H as <-. constructor.
    + intros H. inversion H. reflexivity.
  - destruct (parse_segment db fuel seg) as [r|] eqn:P.
    + destruct (parse_all db fuel segs) as [rs'|] eqn:A.
      * split.
        -- intros H. injection H as <-. constructor; [assumption|].
           now apply IH.
        -- intros H. inversion H as [|? r' ? rs'' Hr Hrs]; subst.
           apply IH in Hrs. congruence.
      * split; [discriminate|].
        intros H. inversion H as [|? r' ? rs'' Hr Hrs]; subst.
        apply IH in Hrs. congruence.
    + split; [discriminate|].
      intros H. inversion H as [|? r' ? rs'' Hr Hrs]; subst. congruence.
Qed.

Lemma parse_segment_more f f' seg r :
  parse_segment db f seg = Some r -> f <= f' ->
  parse_segment db f' seg = Some r.
Proof.
  intros H Hle. apply parse_segment_some in H as (fin & H & ->).
  apply parse_segment_some. exists fin. split; [|reflexivity].
  now apply (while_loop_more db f f').
Qed.

Lemma parse_all_more f f' segs rs :
  parse_all db f segs = Some rs -> f <= f' ->
  parse_all db f' segs = Some rs.
Proof.
  rewrite !parse_all_some. intros H Hle.
  induction H as [|seg r segs rs Hr _ IH]; constructor; [|assumption].
  now apply (parse_segment_more f f').
Qed.

Lemma parse_all_enough segs :
  Forall (fun seg => Forall (fun l => SEGMENT_HEADER_RE_match db l = false)
                            (segment_lines db seg)) segs ->
  exists fuel rs, parse_all db fuel segs = Some rs.
Proof.
  induction 1 as [|seg segs Hseg _ (f1 & rs & IH)].
  - exists 0, []. reflexivity.
  - apply no_stall_no_header, parse_segment_returns_iff in Hseg
      as (f0 & r & Hr).
    exists (Nat.max f0 f1), (r :: rs). cbn [parse_all].
    rewrite (parse_segment_more f0 (Nat.max f0 f1) seg r Hr)
      by apply Nat.le_max_l.
    rewrite (parse_all_more f1 (Nat.max f0 f1) segs rs IH)
      by apply Nat.le_max_r.
    reflexivity.
Qed.

Lemma parse_all_no_header fuel segs rs :
  parse_all db fuel segs = Some rs ->
  Forall (fun seg => Forall (fun l => SEGMENT_HEADER_RE_match db l = false)
                            (segment_lines db seg)) segs.
Proof.
  rewrite parse_all_some.
  induction 1 as [|seg r segs rs' Hr _ IH]; constructor; [|assumption].
  apply no_stall_no_header, parse_segment_returns_iff. eauto.
Qed.

Lemma parse_all_parsed fuel segs rs :
  parse_all db fuel segs = Some rs ->
  Forall (fun r => exists fuel segment,
                     parse_segment db fuel segment = Some r) rs.
Proof.
  rewrite parse_all_some. induction 1; constructor; eauto.
Qed.

Lemma parse_articles_returned fuel raw rs :
  parse_articles db fuel raw = Returned rs <->
  split_into_segments db raw <> []
  /\ parse_all db fuel (split_into_segments db raw) = Some rs.
Proof.
  unfold parse_articles.
  destruct (split_into_segments db raw) as [|seg segs]; cbn [is_empty].
  - split; [discriminate | intros [H _]; congruence].
  - destruct (parse_all db fuel (seg :: segs)) as [rs'|].
    + split.
      * intros H. injection H as <-. split; [discriminate | reflexivity].
      * intros [_ H]. injection H as <-. reflexivity.
    + split; [discriminate | intros [_ H]; discriminate].
Qed.

End Articles.

(** X12: [parse_articles] returns, given turns enough, exactly when the
    text holds an occurrence of the header and in no segment a line read
    by the loop matches the header pattern. *)
Theorem parse_articles_returns_iff (db : UnicodeDB) (raw_text : str) :
  (exists fuel rs, parse_articles db fuel raw_text = Returned rs) <->
  header_starts db raw_text <> []
  /\ Forall (fun seg =>
               Forall (fun l => SEGMENT_HEADER_RE_match db l = false)
                      (segment_lines db seg))
            (split_into_segments db raw_text).
Proof.
  split.
  - intros (fuel & rs & H). apply parse_articles_returned in H as [Hne H].
    split; [now rewrite <- split_into_segments_nil|].
    now apply parse_all_no_header in H.
  - intros [Hne F]. apply parse_all_enough in F as (fuel & rs & H).
    exists fuel, rs. apply parse_articles_returned.
    split; [now rewrite split_into_segments_nil | assumption].
Qed.

(** X13: what [parse_articles] returns holds one record for each occurrence
    of the header, never none: record [i] is what [parse_segment] returns
    for segment [i]. *)
Theorem parse_articles_one_record_per_header (db : UnicodeDB) (fuel : nat)
  (raw_text : str) (rs : list record) :
  parse_articles db fuel raw_text = Returned rs ->
  length rs = length (header_starts db raw_text)
  /\ rs <> []
  /\ Forall2 (fun seg r => parse_segment db fuel seg = Some r)
             (split_into_segments db raw_text) rs.
Proof.
  intros H. apply parse_articles_returned in H as [Hne H].
  apply parse_all_some in H.
  split; [|split; [|assumption]].
  - rewrite <- (Forall2_length H), split_into_segments_between.
    apply segments_between_length.
  - intros ->. inversion H as [E|]. congruence.
Qed.

(** The text with two headers gives two records. *)
Lemma parse_articles_one_record_per_header_witness :
  parse_articles ascii_db 1 two_segments_text
  = Returned [[(MAIN_SECTION, VDict [(lit "A", lit "v1")])];
              [(MAIN_SECTION, VDict [(lit "B", [])])]]
  /\ length (header_starts ascii_db two_segments_text) = 2.
Proof.
  assert (H : parse_articles ascii_db 1 two_segments_text
              = Returned [[(MAIN_SECTION, VDict [(lit "A", lit "v1")])];
                          [(MAIN_SECTION, VDict [(lit "B", [])])]])
    by (vm_compute; reflexivity).
  split; [exact H|].
  symmetry.
  exact (proj1 (parse_articles_one_record_per_header ascii_db 1
                  two_segments_text _ H)).
Defined.

(** ** [load_and_flatten]: when it raises *)

Lemma flatten_sections_cases (r : record) : forall flat,
  if holds_list r
  then flatten_sections flat (map snd r) = Raised AttributeError
  else exists flat', flatten_sections flat (map snd r) = Returned flat'.
Proof.
  unfold holds_list.
  induction r as [|[k [d|l]] r IH]; intros flat;
    cbn [existsb map snd flatten_sections flatten_section orb].
  - eauto.
  - apply IH.
  - reflexivity.
Qed.

Lemma flatten_record_cases (r : record) :
  if holds_list r then flatten_record r = Raised AttributeError
  else exists flat, flatten_record r = Returned flat.
Proof. apply flatten_sections_cases. Qed.

Lemma flatten_records_cases (records : list record) :
  if existsb holds_list records
  then flatten_records records = Raised AttributeError
  else exists flats, flatten_records records = Returned flats
                     /\ length flats = length records.
Proof.
  induction records as [|r records IH]; cbn [existsb flatten_records].
  - exists []. auto.
  - pose proof (flatten_record_cases r) as Hr.
    destruct (holds_list r); cbn [orb].
    + now rewrite Hr.
    + destruct Hr as [flat ->].
      destruct (existsb holds_list records).
      * now rewrite IH.
      * destruct IH as (flats & -> & L). exists (flat :: flats).
        split; [reflexivity | cbn; now rewrite L].
Qed.

Lemma load_and_flatten_raises (records : list record) :
  load_and_flatten records = Raised AttributeError <->
  existsb holds_list records = true.
Proof.
  unfold load_and_flatten.
  pose proof (flatten_records_cases records) as H.
  destruct (existsb holds_list records).
  - rewrite H. tauto.
  - destruct H as (flats & -> & _). split; discriminate.
Qed.

(** X14: [load_and_flatten] raises exactly when a record holds a list among
    its sections, and what it raises is then the [AttributeError] of the
    call of [items]; otherwise it returns a frame with one row for each
    record. *)
Theorem load_and_flatten_outcome (records : list record) :
  (load_and_flatten records = Raised AttributeError <->
   existsb holds_list records = true)
  /\ ((exists df, load_and_flatten records = Returned df) <->
      existsb holds_list records = false)
  /\ (forall df, load_and_flatten records = Returned df ->
                 length (df_rows df) = length records)
  /\ load_and_flatten records <> Raised ValueError
  /\ load_and_flatten records <> OutOfFuel.
Proof.
  unfold load_and_flatten.
  pose proof (flatten_records_cases records) as H.
  destruct (existsb holds_list records).
  - rewrite H. repeat split; try discriminate; auto.
    intros [df E]. discriminate.
  - destruct H as (flats & -> & L). repeat split; try discriminate; eauto.
    intros df E. injection E as <-. exact L.
Qed.

(** ** The filter of the upload handler *)

Lemma drop_unmapped_get (r : record) (k : str) :
  dict_get (drop_unmapped r) k
  = if str_eqb k UNMAPPED_SECTION then None else dict_get r k.
Proof.
  unfold drop_unmapped. change (lit "_UNMAPPED_VALUES") with UNMAPPED_SECTION.
  induction r as [|[k' v] r IH]; cbn [filter dict_get fst].
  - now destruct (str_eqb k UNMAPPED_SECTION).
  - destruct (str_eqb k' UNMAPPED_SECTION) eqn:U; cbn [negb dict_get].
    + rewrite IH. destruct (str_eqb k' k) eqn:E; [|reflexivity].
      apply str_eqb_eq in U, E. subst. now rewrite str_eqb_refl.
    + rewrite IH. destruct (str_eqb k' k) eqn:E; [|reflexivity].
      apply str_eqb_eq in E. subst. now rewrite U.
Qed.

Lemma holds_list_article_obj (fin : pstate) :
  holds_list (article_obj fin) = negb (is_empty (st_pending fin)).
Proof.
  unfold holds_list, article_obj.
  destruct (is_empty (st_pack fin)), (is_empty (st_pending fin)); reflexivity.
Qed.

(** X15: the filter of the upload handler removes the unmapped entry of a
    record and nothing else: every other name is looked up as before; a
    second pass changes nothing, and a record without unmapped entry is
    left as it is. *)
Theorem drop_unmapped_removes_one_entry (r : record) :
  (forall k, dict_get (drop_unmapped r) k
             = if str_eqb k UNMAPPED_SECTION then None else dict_get r k)
  /\ drop_unmapped (drop_unmapped r) = drop_unmapped r
  /\ (drop_unmapped r = r <-> dict_get r UNMAPPED_SECTION = None)
  /\ length (drop_unmapped r) <= length r.
Proof.
  split; [apply drop_unmapped_get|]. unfold drop_unmapped.
  change (lit "_UNMAPPED_VALUES") with UNMAPPED_SECTION.
  split; [|split].
  - induction r as [|[k v] r IH]; cbn [filter fst]; [reflexivity|].
    destruct (str_eqb k UNMAPPED_SECTION) eqn:U; cbn [negb]; [exact IH|].
    cbn [filter fst]. rewrite U. cbn [negb]. now rewrite IH.
  - induction r as [|[k v] r IH]; cbn [filter fst dict_get];
      [tauto|].
    destruct (str_eqb k UNMAPPED_SECTION) eqn:U; cbn [negb].
    + split; [|discriminate]. intros E.
      assert (H : length (filter (fun kv : str * pyval =>
                                    negb (str_eqb (fst kv) UNMAPPED_SECTION))
                                 r) <= length r)
        by apply filter_length_le.
      rewrite E in H. cbn [length] in H. lia.
    + rewrite <- IH. split; [intros E; now injection E | now intros ->].
  - apply filter_length_le.
Qed.

(** ** From the text to the rows *)

(** X16: the three steps of the upload handler in a row, [parse_articles],
    the filter and [load_and_flatten]: the only exception they raise is
    the [ValueError] of a text without header, and when [parse_articles]
    returns, the frame has one row for each occurrence of the header, at
    least one.  Without the filter, [load_and_flatten] raises exactly when
    a record holds unmapped values. *)
Theorem upload_pipeline (db : UnicodeDB) (fuel : nat) (raw_text : str) :
  match parse_articles db fuel raw_text with
  | Returned rs =>
      (exists df, load_and_flatten (clean_articles rs) = Returned df
                  /\ length (df_rows df) = length (header_starts db raw_text)
                  /\ df_rows df <> [])
      /\ (load_and_flatten rs = Raised AttributeError <->
          exists r, In r rs /\ dict_get r UNMAPPED_SECTION <> None)
  | Raised e => e = ValueError /\ header_starts db raw_text = []
  | OutOfFuel => True
  end.
Proof.
  destruct (parse_articles db fuel raw_text) as [rs|e|] eqn:P;
    [|now apply parse_articles_raised in P | exact I].
  apply parse_articles_returned in P as [Hne P].
  pose proof (parse_all_parsed db fuel _ rs P) as F.
  apply parse_all_some in P.
  assert (L : length rs = length (header_starts db raw_text)).
  { rewrite <- (Forall2_length P), split_into_segments_between.
    apply segments_between_length. }
  apply parsed_records_finals in F as (finals & -> & _).
  rewrite length_map in L. split.
  - exists (make_dataframe
              (map (fun fin => merge_sections (st_mapping fin) (st_pack fin))
                   finals)).
    split; [unfold load_and_flatten; now rewrite flatten_records_cleaned|].
    cbn [df_rows make_dataframe]. rewrite length_map. split; [exact L|].
    destruct finals; [|discriminate].
    inversion P as [E|]. congruence.
  - rewrite load_and_flatten_raises, existsb_exists. split.
    + intros (r & Hin & Hl). exists r. split; [assumption|].
      apply in_map_iff in Hin as (fin & <- & _).
      rewrite holds_list_article_obj in Hl. rewrite article_obj_unmapped.
      destruct (is_empty (st_pending fin)); [discriminate Hl | discriminate].
    + intros (r & Hin & Hu). exists r. split; [assumption|].
      apply in_map_iff in Hin as (fin & <- & _).
      rewrite holds_list_article_obj. rewrite article_obj_unmapped in Hu.
      destruct (is_empty (st_pending fin)); [congruence | reflexivity].
Qed.

(** ** [prefix_mengeneinheit] *)

Lemma file_lines_concat (text : str) : concat (file_lines text) = text.
Proof.
  induction text as [|c text IH]; cbn [file_lines]; [reflexivity|].
  destruct (N.eqb c c_LF).
  - cbn. now rewrite IH.
  - destruct (file_lines text) as [|line lines].
    + cbn in IH. subst text. reflexivity.
    + cbn in *. now rewrite IH.
Qed.

Lemma complete_line_cons c l :
  N.eqb c c_LF = false -> complete_line l -> complete_line (c :: l).
Proof.
  intros Hc (body & -> & Hb). exists (c :: body). split; [reflexivity|].
  now constructor.
Qed.

Lemma partial_line_cons c l :
  N.eqb c c_LF = false -> Forall (fun c => N.eqb c c_LF = false) l ->
  partial_line (c :: l).
Proof. intros Hc Hl. split; [discriminate | now constructor]. Qed.

Lemma file_lines_shaped (text : str) : file_lines_shape (file_lines text).
Proof.
  induction text as [|c text IH]; cbn [file_lines]; [constructor|].
  destruct (N.eqb c c_LF) eqn:E.
  - apply N.eqb_eq in E. subst c. apply shape_more; [|assumption].
    exists []. split; [reflexivity | constructor].
  - destruct (file_lines text) as [|line lines].
    + apply shape_last. apply partial_line_cons; [assumption | constructor].
    + inversion IH as [|l [_ P] | l ls C S]; subst.
      * apply shape_last. now apply partial_line_cons.
      * apply shape_more; [|assumption]. now apply complete_line_cons.
Qed.

Lemma file_lines_partial (l : str) : partial_line l -> file_lines l = [l].
Proof.
  intros [Hne Hl]. induction Hl as [|c l Hc Hl IH]; [congruence|].
  cbn [file_lines]. rewrite Hc. destruct l as [|c' l]; [reflexivity|].
  now rewrite IH.
Qed.

Lemma file_lines_complete (body rest : str) :
  Forall (fun c => N.eqb c c_LF = false) body ->
  file_lines ((body ++ [c_LF]) ++ rest) = (body ++ [c_LF]) :: file_lines rest.
Proof.
  induction 1 as [|c body Hc _ IH]; cbn [app file_lines].
  - now rewrite N.eqb_refl.
  - rewrite Hc. cbn [app] in IH. now rewrite IH.
Qed.

Lemma file_lines_of_shape (lines : list str) :
  file_lines_shape lines -> file_lines (concat lines) = lines.
Proof.
  induction 1 as [|l P | l lines (body & -> & Hb) _ IH].
  - reflexivity.
  - cbn. rewrite app_nil_r. now apply file_lines_partial.
  - cbn [concat]. rewrite file_lines_complete by assumption. now rewrite IH.
Qed.

(** The end of a complete line is a complete line, when it is not
    empty. *)
Lemma complete_line_end (a t : str) :
  complete_line (a ++ t) -> t <> [] -> complete_line t.
Proof.
  intros (body & E & Hb) Hne.
  destruct (exists_last Hne) as (t' & x & ->).
  rewrite app_assoc in E. apply app_inj_tail in E as [<- ->].
  exists t'. split; [reflexivity|]. now apply Forall_app in Hb.
Qed.

Lemma lit_17w : lit "17w " = [49; 55; 119; 32]%N.
Proof. reflexivity. Qed.

Lemma prefix_line_cases (line : str) :
  (startswith (lit "Mengeneinheit") (lstrip isspace line) = false
   /\ prefix_line line = line)
  \/ exists a r,
       line = a ++ lit "Mengeneinheit" ++ r
       /\ Forall (fun c => isspace c = true) a
       /\ prefix_line line = lit "17w " ++ lit "Mengeneinheit" ++ r.
Proof.
  unfold prefix_line, startswith.
  destruct (strip_prefix (lit "Mengeneinheit") (lstrip isspace line))
    as [r|] eqn:E; [right | now left].
  apply strip_prefix_app in E.
  destruct (lstrip_split isspace line) as (a & L & Ha).
  exists a, r. rewrite E in *. auto.
Qed.

Lemma prefix_line_complete (l : str) :
  complete_line l -> complete_line (prefix_line l).
Proof.
  intros C. destruct (prefix_line_cases l)
    as [[_ ->] | (a & r & E & _ & ->)]; [assumption|].
  rewrite E in C. apply complete_line_end in C; [|discriminate].
  rewrite lit_17w. cbn [app].
  do 4 (apply complete_line_cons; [reflexivity|]). exact C.
Qed.

Lemma prefix_line_partial (l : str) :
  partial_line l -> partial_line (prefix_line l).
Proof.
  intros P. destruct (prefix_line_cases l)
    as [[_ ->] | (a & r & E & _ & ->)]; [assumption|].
  destruct P as [_ P]. rewrite E in P. apply Forall_app in P as [_ P].
  rewrite lit_17w. cbn [app]. split; [discriminate|].
  do 4 (constructor; [reflexivity|]). exact P.
Qed.

Lemma prefix_lines_shaped (lines : list str) :
  file_lines_shape lines -> file_lines_shape (map prefix_line lines).
Proof.
  induction 1 as [|l P | l lines C _ IH]; cbn [map].
  - constructor.
  - apply shape_last. now apply prefix_line_partial.
  - apply shape_more; [now apply prefix_line_complete | assumption].
Qed.

Lemma prefix_line_fixed (l : str) :
  prefix_line l = l <->
  startswith (lit "Mengeneinheit") (lstrip isspace l) = false.
Proof.
  split.
  - intros F. unfold prefix_line in F.
    destruct (startswith (lit "Mengeneinheit") (lstrip isspace l)) eqn:S;
      [|reflexivity].
    exfalso. unfold startswith in S.
    destruct (strip_prefix (lit "Mengeneinheit") (lstrip isspace l))
      as [r|] eqn:E; [|discriminate].
    apply strip_prefix_app in E.
    destruct (lstrip_split isspace l) as (a & L & Ha).
    rewrite E in L, F. rewrite <- F in L at 1.
    destruct Ha as [|w a Hw _].
    + cbn in L. discriminate.
    + cbn in L. injection L as <- _. discriminate.
  - intros S. unfold prefix_line. now rewrite S.
Qed.

Lemma prefix_line_twice (l : str) :
  prefix_line (prefix_line l) = prefix_line l.
Proof.
  destruct (prefix_line_cases l) as [[_ E] | (a & r & _ & _ & E)];
    rewrite E; [assumption|].
  apply prefix_line_fixed. reflexivity.
Qed.

Lemma map_fixed {A} (f : A -> A) (l : list A) :
  map f l = l <-> Forall (fun x => f x = x) l.
Proof.
  induction l as [|x l IH]; cbn.
  - split; [constructor | reflexivity].
  - split.
    + intros E. injection E as E1 E2. constructor; [assumption | now apply IH].
    + intros H. inversion H as [|? ? H1 H2]; subst.
      rewrite H1. f_equal. now apply IH.
Qed.

(** X17: [prefix_mengeneinheit] works line by line.  The lines of the text
    it writes are the lines of the text it reads, each one as it is or
    with its prefix, in the same order and number; line ends are kept, and
    the lines of a text, joined, are the text. *)
Theorem prefix_mengeneinheit_line_by_line (text : str) :
  file_lines (prefix_mengeneinheit text) = map prefix_line (file_lines text)
  /\ length (file_lines (prefix_mengeneinheit text))
     = length (file_lines text)
  /\ concat (file_lines text) = text
  /\ Forall (fun line =>
               prefix_line line = line
               \/ exists a r,
                    line = a ++ lit "Mengeneinheit" ++ r
                    /\ Forall (fun c => isspace c = true) a
                    /\ prefix_line line
                       = lit "17w " ++ lit "Mengeneinheit" ++ r)
            (file_lines text).
Proof.
  assert (E : file_lines (prefix_mengeneinheit text)
              = map prefix_line (file_lines text)).
  { unfold prefix_mengeneinheit. apply file_lines_of_shape.
    apply prefix_lines_shaped, file_lines_shaped. }
  split; [exact E|]. split; [now rewrite E, length_map|].
  split; [apply file_lines_concat|].
  apply Forall_forall. intros line _.
  destruct (prefix_line_cases line) as [[_ H] | H]; auto.
Qed.

(** X18: running [prefix_mengeneinheit] on its own output changes nothing;
    and it copies a text unchanged exactly when no line of the text
    begins, after white space, with the word. *)
Theorem prefix_mengeneinheit_idempotent (text : str) :
  prefix_mengeneinheit (prefix_mengeneinheit text)
  = prefix_mengeneinheit text
  /\ (prefix_mengeneinheit text = text <->
      Forall (fun line =>
                startswith (lit "Mengeneinheit") (lstrip isspace line)
                = false)
             (file_lines text)).
Proof.
  assert (E : file_lines (prefix_mengeneinheit text)
              = map prefix_line (file_lines text)).
  { unfold prefix_mengeneinheit. apply file_lines_of_shape.
    apply prefix_lines_shaped, file_lines_shaped. }
  split.
  - unfold prefix_mengeneinheit at 1. rewrite E, map_map.
    unfold prefix_mengeneinheit. f_equal. apply map_ext.
    apply prefix_line_twice.
  - assert (F : Forall (fun line =>
                          startswith (lit "Mengeneinheit")
                                     (lstrip isspace line) = false)
                       (file_lines text)
                <-> map prefix_line (file_lines text) = file_lines text).
    { rewrite map_fixed. split; apply Forall_impl; intros l;
        apply prefix_line_fixed. }
    rewrite F. split.
    + intros H. rewrite <- E. now rewrite H.
    + intros H. unfold prefix_mengeneinheit. rewrite H.
      apply file_lines_concat.
Qed.

(** *** The prefixed line, as the parser reads it *)

Lemma dropwhile_app_stop {A} (p : A -> bool) (u v : list A) :
  match v with x :: _ => p x = false | [] => True end ->
  dropwhile p (u ++ v) = dropwhile p u ++ v.
Proof.
  intros Hv. induction u as [|x u IH]; cbn [app dropwhile].
  - now apply dropwhile_stop.
  - now destruct (p x).
Qed.

(** Stripping a string that begins with a part whose two ends are not
    to be removed leaves that part in place. *)
Lemma strip_core (p : char -> bool) (core t : str) :
  core <> [] -> ends_free p core ->
  strip p (core ++ t) = core ++ rstrip p t.
Proof.
  intros Hne [Hf Hl]. unfold strip, lstrip, rstrip.
  assert (E : dropwhile p (core ++ t) = core ++ t).
  { apply dropwhile_stop. destruct core as [|c core]; [congruence|].
    cbn [app]. now apply Hf. }
  rewrite E, rev_app_distr.
  rewrite dropwhile_app_stop.
  - now rewrite rev_app_distr, rev_involutive.
  - unfold last_char in Hl. destruct (rev core) as [|y r] eqn:R.
    + apply (f_equal (@rev _)) in R. rewrite rev_involutive in R.
      cbn in R. congruence.
    + now apply Hl.
Qed.

Lemma rstrip_space_LF (body : str) :
  rstrip isspace (body ++ [c_LF]) = rstrip isspace body.
Proof. unfold rstrip. now rewrite rev_unit. Qed.

Lemma rstrip_part (P : char -> Prop) (p : char -> bool) (s : str) :
  Forall P s -> Forall P (rstrip p s).
Proof.
  destruct (rstrip_split p s) as (b & E & _). intros H. rewrite E in H.
  now apply Forall_app in H.
Qed.

Lemma ends_free_app_core (p : char -> bool) (core t : str) :
  core <> [] -> ends_free p core ->
  (forall c, last_char t = Some c -> p c = false) ->
  ends_free p (core ++ t).
Proof.
  intros Hne [Hf Hl] Hl'. split; intros c H.
  - destruct core as [|x core]; [congruence|]. now apply Hf.
  - unfold last_char in *. rewrite rev_app_distr in H.
    destruct (rev t) as [|y r].
    + now apply Hl.
    + now apply Hl'.
Qed.

Lemma normalize_core (core t : str) :
  core <> [] -> ends_free is_padding core ->
  normalize_line (core ++ t)
  = core ++ rstrip isspace (rstrip is_quote (rstrip isspace t)).
Proof.
  intros Hne E. apply ends_free_padding in E as [Es Eq].
  unfold normalize_line.
  now rewrite (strip_core isspace), (strip_core is_quote),
    (strip_core isspace).
Qed.

(** X19: a line to which [prefix_mengeneinheit] gives its prefix is, once
    [normalize_line] has been applied to what was written, a key line for
    [KEY_RE]: its code is [17w], which selects the main mapping, and its
    label is the rest of the line from the word on, without the white
    space and the quotes at its end. *)
Theorem prefixed_line_is_a_key_line (db : UnicodeDB) (line : str) :
  complete_line line \/ partial_line line ->
  startswith (lit "Mengeneinheit") (lstrip isspace line) = true ->
  exists a r,
    line = a ++ lit "Mengeneinheit" ++ r
    /\ Forall (fun c => isspace c = true) a
    /\ key_of_line db (normalize_line (prefix_line line))
       = Some (lit "17w",
               lit "Mengeneinheit"
               ++ rstrip isspace (rstrip is_quote (rstrip isspace r)))
    /\ section_of (lit "17w") = MAIN_SECTION
    /\ is_pack_code db (lit "17w") = false.
Proof.
  intros Hl S.
  destruct (prefix_line_cases line) as [[S' _] | (a & r & E & Ha & P)];
    [congruence|].
  exists a, r. split; [exact E|]. split; [exact Ha|].
  split; [|split; reflexivity].
  rewrite P.
  assert (Hr : exists body,
             Forall (fun c => N.eqb c c_LF = false) body
             /\ rstrip isspace r = rstrip isspace body).
  { destruct Hl as [C | [_ Pl]].
    - rewrite E in C. rewrite app_assoc in C.
      destruct r as [|x r].
      + exists []. split; [constructor | reflexivity].
      + apply complete_line_end in C as (body & -> & Hb); [|discriminate].
        exists body. split; [assumption | apply rstrip_space_LF].
    - exists r. split; [|reflexivity]. rewrite E in Pl.
      apply Forall_app in Pl as [_ Pl]. now apply Forall_app in Pl. }
  destruct Hr as (body & Hb & Er).
  set (rest := rstrip isspace (rstrip is_quote (rstrip isspace r))).
  assert (N : normalize_line (lit "17w " ++ lit "Mengeneinheit" ++ r)
              = lit "17w" ++ [32%N] ++ (lit "Mengeneinheit" ++ rest)).
  { rewrite app_assoc. rewrite normalize_core.
    - reflexivity.
    - discriminate.
    - split; intros c H; vm_compute in H; injection H as <-; reflexivity. }
  rewrite N. apply key_of_line_labelled.
  - apply (shape_plain db 119%N); [reflexivity | discriminate].
  - discriminate.
  - repeat constructor.
  - discriminate.
  - apply ends_free_app_core; [discriminate | |].
    + split; intros c H; vm_compute in H; injection H as <-; reflexivity.
    + intros c H. unfold rest in H. now apply rstrip_last in H.
  - apply Forall_app. split; [repeat constructor|].
    unfold rest. apply rstrip_part, rstrip_part. rewrite Er.
    now apply rstrip_part.
Qed.

(** A line of a file that begins with white space and the word. *)
Lemma prefixed_line_is_a_key_line_witness :
  complete_line indented_unit_line
  /\ prefix_line indented_unit_line = lit "17w Mengeneinheit kg" ++ [c_LF]
  /\ exists a r,
       indented_unit_line = a ++ lit "Mengeneinheit" ++ r
       /\ Forall (fun c => isspace c = true) a
       /\ key_of_line ascii_db (normalize_line (prefix_line indented_unit_line))
          = Some (lit "17w",
                  lit "Mengeneinheit"
                  ++ rstrip isspace (rstrip is_quote (rstrip isspace r)))
       /\ section_of (lit "17w") = MAIN_SECTION
       /\ is_pack_code ascii_db (lit "17w") = false.
Proof.
  assert (C : complete_line indented_unit_line).
  { exists (lit "  Mengeneinheit kg"). split; [reflexivity|].
    repeat constructor. }
  split; [exact C|]. split; [vm_compute; reflexivity|].
  exact (prefixed_line_is_a_key_line ascii_db indented_unit_line
           (or_introl C) eq_refl).
Defined.

(** ** Sub-section headers *)

(** X20: a line that matches [PACK_HEADER_RE] is a marker and nothing
    else: it is no key line, and in a record [parse_segment] returns it is
    the value of no label of the main or of the packages mapping and no
    entry of the unmapped list. *)
Theorem sub_section_header_is_never_data (db : UnicodeDB) (fuel : nat)
  (segment : str) (r : record) (l : str) :
  parse_segment db fuel segment = Some r ->
  PACK_HEADER_RE_match db l = true ->
  key_of_line db l = None
  /\ (forall label, record_get r MAIN_SECTION label <> Some l)
  /\ (forall label, record_get r PACK_SECTION label <> Some l)
  /\ (forall u, dict_get r UNMAPPED_SECTION = Some (VList u) -> ~ In l u).
Proof. apply pack_header_never_data. Qed.

(** The header between the two groups of [grouped_segment]. *)
Lemma sub_section_header_is_never_data_witness :
  PACK_HEADER_RE_match ascii_db (lit "17.1 PACKSTUCKE") = true
  /\ In (lit "17.1 PACKSTUCKE") (normalized_lines grouped_segment)
  /\ forall label,
       record_get [(MAIN_SECTION,
                    VDict [(lit "A", lit "v1"); (lit "B", lit "v2")]);
                   (PACK_SECTION, VDict [(lit "P", lit "v3")])]
                  PACK_SECTION label
       <> Some (lit "17.1 PACKSTUCKE").
Proof.
  split; [reflexivity|]. split; [vm_compute; tauto|].
  refine (proj1 (proj2 (proj2
    (sub_section_header_is_never_data ascii_db 5 grouped_segment _
       (lit "17.1 PACKSTUCKE") _ eq_refl)))).
  vm_compute. reflexivity.
Defined.

(** ** Line ends *)

Lemma replace_cr_to_cr (s : str) : replace_cr (to_cr s) = replace_cr s.
Proof.
  unfold replace_cr, to_cr. rewrite map_map. apply map_ext. intros c.
  destruct (N.eqb_spec c c_LF) as [-> | Hc]; reflexivity.
Qed.

(** The lines kept of a list of lines: normalized, the empty ones left
    out. *)
Lemma kept_lines_crlf (s : str) : forall line,
  filter (fun l => negb (is_empty (normalize_line l)))
         (splitlines_from line false (replace_cr (to_crlf s)))
  = filter (fun l => negb (is_empty (normalize_line l)))
           (splitlines_from line false (replace_cr s)).
Proof.
  induction s as [|c s IH]; intros line; [reflexivity|].
  unfold to_crlf, replace_cr in *. cbn [flat_map map].
  destruct (N.eqb_spec c c_LF) as [-> | Hlf].
  - cbn [app map]. replace (N.eqb c_CR c_CR) with true by reflexivity.
    replace (N.eqb c_LF c_CR) with false by reflexivity.
    cbn [splitlines_from andb].
    replace (is_linebreak c_LF) with true by reflexivity.
    replace (N.eqb c_LF c_CR) with false by reflexivity.
    cbn [splitlines_from andb].
    replace (is_linebreak c_LF) with true by reflexivity.
    replace (N.eqb c_LF c_CR) with false by reflexivity.
    cbn [filter]. destruct (negb (is_empty (normalize_line line)));
      replace (negb (is_empty (normalize_line []))) with false
        by reflexivity; now rewrite IH.
  - cbn [app map]. destruct (N.eqb_spec c c_CR) as [-> | Hcr].
    + cbn [splitlines_from andb].
      replace (is_linebreak c_LF) with true by reflexivity.
      replace (N.eqb c_LF c_CR) with false by reflexivity.
      cbn [filter]. now rewrite IH.
    + cbn [splitlines_from andb].
      apply N.eqb_neq in Hcr. rewrite Hcr.
      destruct (is_linebreak c); [cbn [filter]; now rewrite IH | apply IH].
Qed.

Lemma normalized_lines_crlf (s : str) :
  normalized_lines (to_crlf s) = normalized_lines s.
Proof.
  unfold normalized_lines, splitlines. now rewrite kept_lines_crlf.
Qed.

Lemma normalized_lines_cr (s : str) :
  normalized_lines (to_cr s) = normalized_lines s.
Proof. unfold normalized_lines. now rewrite replace_cr_to_cr. Qed.

(** X21: [parse_segment] does not depend on how the lines of the segment
    end: with every line feed written as carriage return and line feed,
    or as a carriage return alone, the loop reads the same lines and the
    result is the same. *)
Theorem parse_segment_ignores_line_ends (db : UnicodeDB) (fuel : nat)
  (segment : str) :
  segment_lines db (to_crlf segment) = segment_lines db segment
  /\ segment_lines db (to_cr segment) = segment_lines db segment
  /\ parse_segment db fuel (to_crlf segment) = parse_segment db fuel segment
  /\ parse_segment db fuel (to_cr segment) = parse_segment db fuel segment.
Proof.
  unfold parse_segment, segment_lines.
  now rewrite normalized_lines_crlf, normalized_lines_cr.
Qed.

(** ** Texts without line feed *)

Lemma line_start_no_line_feed (raw : str) (p : nat) :
  Forall (fun c => N.eqb c c_LF = false) raw ->
  line_start true raw p = true -> p = 0.
Proof.
  intros H L. destruct p as [|j]; [reflexivity|]. cbn in L.
  destruct (nth_error raw j) as [c|] eqn:E; [|discriminate].
  apply nth_error_In in E. rewrite Forall_forall in H.
  rewrite (H c E) in L. discriminate.
Qed.

(** X22: the header is looked for at the start of a line, and only a line
    feed starts a new line there: a text without line feed is no segment
    or one segment, itself, however many line boundaries of other kinds
    and headers after them it holds. *)
Theorem text_without_line_feed_is_one_segment (db : UnicodeDB)
  (raw_text : str) :
  Forall (fun c => N.eqb c c_LF = false) raw_text ->
  (header_starts db raw_text = []
   /\ split_into_segments db raw_text = [])
  \/ (header_starts db raw_text = [0]
      /\ split_into_segments db raw_text = [raw_text]).
Proof.
  intros H. rewrite split_into_segments_between.
  pose proof (header_starts_sorted db raw_text) as Hs.
  assert (Z : forall p, In p (header_starts db raw_text) -> p = 0).
  { intros p Hp. apply header_starts_sound in Hp as [_ Hp].
    unfold header_occurs, matches_at in Hp.
    apply andb_true_iff in Hp as [Hp _].
    now apply (line_start_no_line_feed raw_text). }
  destruct (header_starts db raw_text) as [|p [|q starts]].
  - now left.
  - right. rewrite (Z p (or_introl eq_refl)). auto.
  - exfalso. pose proof (Z p (or_introl eq_refl)).
    pose proof (Z q (or_intror (or_introl eq_refl))).
    inversion Hs as [|? ? _ Hlt]; subst. inversion Hlt; subst. lia.
Qed.

(** Four lines that end in carriage returns: the second header starts no
    segment. *)
Lemma text_without_line_feed_is_one_segment_witness :
  header_starts ascii_db cr_only_text = [0]
  /\ split_into_segments ascii_db cr_only_text = [cr_only_text].
Proof.
  destruct (text_without_line_feed_is_one_segment ascii_db cr_only_text)
    as [[E _] | H].
  - repeat (constructor; [reflexivity|]). constructor.
  - vm_compute in E. discriminate E.
  - exact H.
Defined.
